(** * A shallow embedding of the treeless persistent map (package pmap)

    The development follows core/pmap/pmap.go and hashing/hashing.go.
    Unsigned machine integers are [Z] with the wrap-around written out,
    byte strings are [list byte], the hash index is a list of buckets
    updated by position, the memory-mapped log is a list of bytes.
    A Go call can return, panic (an out-of-range slice expression) or
    loop for ever (a probe over a table without a free bucket); the
    three outcomes are the constructors of [result]. *)

From Stdlib Require Import ZArith List Lia Bool Strings.Byte String.
From stdpp Require Import base list numbers gmap.

Open Scope Z_scope.

(** ** Outcomes of a call *)

Inductive result (A : Type) : Type :=
| Ret (a : A)
| Panics
| Diverges.
Arguments Ret {A} a.
Arguments Panics {A}.
Arguments Diverges {A}.

Definition rbind {A B : Type} (m : result A) (k : A -> result B) : result B :=
  match m with
  | Ret a => k a
  | Panics => Panics
  | Diverges => Diverges
  end.

Notation "x <~ m ;; k" := (rbind m (fun x => k))
  (at level 100, m at next level, right associativity).

(** The values of Go's [error] that the package builds with [errors.New]. *)
Inductive error : Type :=
| ErrSetValueLen      (* "Error: message value len < 8" *)
| ErrCASValueLen      (* "Error: CAS value len < 16" *)
| ErrCASEmptyPair     (* "CAS failed: empty pair: non-zero timestamp" *)
| ErrCASTimestamp     (* "CAS failed: timestamp mismatch" *)
| ErrCASHash          (* "CAS failed: hash mismatch" *)
| ErrStoreFull        (* returned by store.put *)
| ErrTableTooLarge.   (* returned by hashmap.expand *)

(** ** Machine integers and byte strings *)

Definition wrap32 (z : Z) : Z := z mod 2 ^ 32.
Definition wrap64 (z : Z) : Z := z mod 2 ^ 64.

(** [int64(u)] for [u : uint64]. *)
Definition int64 (u : Z) : Z := if u <? 2 ^ 63 then u else u - 2 ^ 64.

#[global] Instance byte_eq_decision : EqDecision byte := Byte.byte_eq_dec.

Definition byte_to_Z (b : byte) : Z := Z.of_N (Byte.to_N b).

Definition Z_to_byte (z : Z) : byte :=
  match Byte.of_N (Z.to_N (z mod 256)) with
  | Some b => b
  | None => "000"%byte
  end.

Definition len {A : Type} (l : list A) : Z := Z.of_nat (length l).

(** [bytes.Equal]. *)
Definition bytes_Equal (a b : list byte) : bool := bool_decide (a = b).

(** [binary.LittleEndian.Uint32] and [Uint64] on a slice of the right
    length, and [PutUint32]. *)
Fixpoint le_uint (bs : list byte) : Z :=
  match bs with
  | [] => 0
  | b :: bs' => byte_to_Z b + 256 * le_uint bs'
  end.

Fixpoint le_bytes (n : nat) (z : Z) : list byte :=
  match n with
  | O => []
  | S n' => Z_to_byte z :: le_bytes n' (z / 256)
  end.

(** A Go slice: the elements below its length and the rest of the backing
    array up to its capacity.  Re-slicing may reach into the spare part. *)
Record slice : Type := { elems : list byte; spare : list byte }.

(** A slice whose capacity is its length: [nil], a literal, the result of
    [make([]byte, n)]. *)
Definition tight (l : list byte) : slice := {| elems := l; spare := [] |}.

(** [s[:8]] (also written [s[0:8]]): legal up to the capacity of [s]. *)
Definition upto8 (s : slice) : result (list byte) :=
  let backing := elems s ++ spare s in
  if 8 <=? len backing then Ret (take 8 backing) else Panics.

(** [binary.LittleEndian.Uint64(s[:8])]. *)
Definition Uint64_prefix (s : slice) : result Z :=
  b <~ upto8 s ;; Ret (le_uint b).

(** [s[8:]]: needs [8 <= len(s)]. *)
Definition from8 (s : slice) : result (list byte) :=
  if 8 <=? len (elems s) then Ret (drop 8 (elems s)) else Panics.

(** [l[a:b]] on the mapping, whose capacity is its length. *)
Definition sub (l : list byte) (a b : Z) : result (list byte) :=
  if (0 <=? a) && (a <=? b) && (b <=? len l)
  then Ret (take (Z.to_nat (b - a)) (drop (Z.to_nat a) l))
  else Panics.

(** ** hashing/hashing.go *)

Definition offset64 : Z := 14695981039346656037.
Definition prime64 : Z := 1099511628211.

Definition FNV1a64 (b : list byte) : Z :=
  fold_left (fun h c => wrap64 (Z.lxor h (byte_to_Z c) * prime64)) b offset64.

(** [GetChunkID]: the high 32 bits of the hash modulo [uint64(numChunks)].
    [numChunks] is an [int], taken to have 64 bits; the division panics
    when it is 0.  The result is below [2 ^ 32], so its conversion to [int]
    changes nothing. *)
Definition GetChunkID (b : list byte) (numChunks : Z) : result Z :=
  let h := FNV1a64 b in
  if numChunks =? 0 then Panics
  else Ret (Z.shiftr h 32 mod wrap64 numChunks).

(** ** The store *)

Module store.

(** Modelled from the spec: the store (store.go is not among the sources).
    The mapping is the byte list [file], of fixed length [size]; [length] is
    the next free offset and [deleted] the shadowed-bytes counter.  A frame
    costs 12 bytes on top of key and value.  Section 4.1 has [prev] read the
    total length from the four bytes that end where the next frame starts,
    section 9 calls it the tail of the frame, and the comment on [PMap]
    speaks of an 8 byte header, so a frame is laid out as
    keyLen | valLen | key | value | totalLen, every length a little-endian
    uint32.  The views [key] and [val] are sub-slices of the mapping, so the
    capacity of a value view reaches the end of the mapping. *)
Record t : Type := {
  file : list byte;
  deleted : Z;
  length : Z;
  size : Z
}.

(** Modelled from the spec: [newStore] maps a region of exactly [size]
    bytes, [openStore] maps an existing file, whose length is the size; the
    counters start at zero and [Open] recomputes them. *)
Definition newStore (path : string) (size : Z) : t :=
  {| file := repeat "000"%byte (Z.to_nat size);
     deleted := 0; length := 0; size := size |}.

Definition openStore (contents : list byte) : t :=
  {| file := contents; deleted := 0; length := 0; size := len contents |}.

(** Modelled from the spec: the decoders of the fixed part of the frame at
    [offset], and the zero-copy views of its key and of its value.  A read
    outside the mapping panics. *)
Definition keyLen (st : t) (offset : Z) : result Z :=
  b <~ sub (file st) offset (offset + 4) ;; Ret (le_uint b).

Definition valLen (st : t) (offset : Z) : result Z :=
  b <~ sub (file st) (offset + 4) (offset + 8) ;; Ret (le_uint b).

Definition totalLen (st : t) (offset : Z) : result Z :=
  kl <~ keyLen st offset ;;
  vl <~ valLen st offset ;;
  Ret (wrap32 (kl + vl)).

Definition key (st : t) (offset : Z) : result (list byte) :=
  kl <~ keyLen st offset ;;
  sub (file st) (offset + 8) (offset + 8 + kl).

Definition val (st : t) (offset : Z) : result slice :=
  kl <~ keyLen st offset ;;
  vl <~ valLen st offset ;;
  v <~ sub (file st) (offset + 8 + kl) (offset + 8 + kl + vl) ;;
  Ret {| elems := v; spare := drop (Z.to_nat (offset + 8 + kl + vl)) (file st) |}.

(** Modelled from the spec: the view that [val st offset] returned, read
    once the mapping has become that of [st']; a view is a window on the
    mapping, not a copy of its bytes. *)
Definition valLater (st st' : t) (offset : Z) : result slice :=
  kl <~ keyLen st offset ;;
  vl <~ valLen st offset ;;
  v <~ sub (file st') (offset + 8 + kl) (offset + 8 + kl + vl) ;;
  Ret {| elems := v; spare := drop (Z.to_nat (offset + 8 + kl + vl)) (file st') |}.

(** Modelled from the spec: [prev], the offset of the frame before
    [offset], found through the total length in the four bytes that end at
    [offset]; negative when [offset] is 0. *)
Definition prev (st : t) (offset : Z) : result Z :=
  if offset =? 0 then Ret (-1)
  else b <~ sub (file st) (offset - 4) offset ;; Ret (offset - 12 - le_uint b).

Definition frame (key value : list byte) : list byte :=
  le_bytes 4 (len key) ++ le_bytes 4 (len value) ++ key ++ value
  ++ le_bytes 4 (len key + len value).

(** Modelled from the spec: [put] writes the frame at [length] and advances
    [length] by 12 plus the lengths of key and value; it fails when the
    frame would end beyond [size].  It returns the store, the offset of the
    new frame as a uint32, and the error. *)
Definition put (st : t) (key value : list byte) : t * Z * option error :=
  let need := 12 + len key + len value in
  if length st + need >? size st then (st, 0, Some ErrStoreFull)
  else
    let offset := length st in
    (@Build_t
       (take (Z.to_nat offset) (file st) ++ frame key value
        ++ drop (Z.to_nat (offset + need)) (file st))
       (deleted st) (offset + need) (size st),
     wrap32 offset, None).

(** The assignments [c.st.deleted += n] and [c.st.length = n] of pmap.go;
    the counters are uint64. *)
Definition addDeleted (st : t) (n : Z) : t :=
  @Build_t (file st) (wrap64 (deleted st + n)) (length st) (size st).

Definition setLength (st : t) (n : Z) : t :=
  @Build_t (file st) (deleted st) n (size st).

End store.

(** ** The hash index *)

Module hashmap.

(** Modelled from the spec: the buckets' sentinels and the remap of a raw
    hash that collides with one (hashmap.go is not among the sources);
    section 3 and section 4.2 give these values as their examples. *)
Definition emptyBucket : Z := 4294967295.
Definition deletedBucket : Z := 4294967294.

(** Modelled from the spec: a raw hash equal to a sentinel is shifted by 2,
    with wrap-around. *)
Definition hashReMap (h : Z) : Z :=
  if (h =? emptyBucket) || (h =? deletedBucket) then wrap32 (h + 2) else h.

(** Modelled from the spec: the open-addressed table (hashmap.go is not
    among the sources).  A bucket is the pair (hash32, storeOffset32); the
    capacity is [2 ^ log2size], [sizeMask] is the capacity minus one, the
    table expands when [numStoredKeys] reaches [numKeysToExpand], three
    quarters of the capacity, and [sizeLimit] bounds the capacity. *)
Record t : Type := {
  table : list (Z * Z);
  log2size : Z;
  sizeMask : Z;
  numStoredKeys : Z;
  numKeysToExpand : Z;
  sizeLimit : Z
}.

(** Modelled from the spec: a table of [2 ^ log2size] empty buckets. *)
Definition newHashMap (log2size sizeLimit : Z) : t :=
  {| table := repeat (emptyBucket, 0) (Z.to_nat (2 ^ log2size));
     log2size := log2size;
     sizeMask := 2 ^ log2size - 1;
     numStoredKeys := 0;
     numKeysToExpand := 2 ^ log2size * 3 / 4;
     sizeLimit := sizeLimit |}.

(** Modelled from the spec: the accessors of a bucket. *)
Definition bucket (hm : t) (index : Z) : Z * Z :=
  default (emptyBucket, 0) (table hm !! Z.to_nat index).

Definition getHash (hm : t) (index : Z) : Z := fst (bucket hm index).
Definition getStoreIndex (hm : t) (index : Z) : Z := snd (bucket hm index).

Definition setTable (hm : t) (tb : list (Z * Z)) : t :=
  @Build_t tb (log2size hm) (sizeMask hm) (numStoredKeys hm)
    (numKeysToExpand hm) (sizeLimit hm).

Definition setHash (hm : t) (index h : Z) : t :=
  setTable hm (<[Z.to_nat index := (h, getStoreIndex hm index)]> (table hm)).

Definition setStoreIndex (hm : t) (index storeIndex : Z) : t :=
  setTable hm (<[Z.to_nat index := (getHash hm index, storeIndex)]> (table hm)).

(** [numStoredKeys++]. *)
Definition incStoredKeys (hm : t) : t :=
  @Build_t (table hm) (log2size hm) (sizeMask hm) (numStoredKeys hm + 1)
    (numKeysToExpand hm) (sizeLimit hm).

(** [(index + 1) & c.hm.sizeMask] on the uint32 [index]: the bucket after
    [index] in probing order. *)
Definition next (hm : t) (index : Z) : Z :=
  Z.land (wrap32 (index + 1)) (sizeMask hm).

(** The number of buckets a probe can visit before it repeats itself. *)
Definition fuel (hm : t) : nat := Z.to_nat (sizeMask hm + 1).

(** The first empty bucket from [index] on, in probing order. *)
Fixpoint firstEmpty (hm : t) (index : Z) (n : nat) : result Z :=
  match n with
  | O => Diverges
  | S n' =>
      if getHash hm index =? emptyBucket then Ret index
      else firstEmpty hm (next hm index) n'
  end.

(** Re-insertion of one bucket of the old table into the new one. *)
Definition reinsert (hm : t) (b : Z * Z) : result t :=
  if (fst b =? emptyBucket) || (fst b =? deletedBucket) then Ret hm
  else
    index <~ firstEmpty hm (Z.land (fst b) (sizeMask hm)) (fuel hm) ;;
    Ret (incStoredKeys (setStoreIndex (setHash hm index (fst b)) index (snd b))).

(** Modelled from the spec: [expand] doubles the capacity and re-inserts
    every bucket that is neither empty nor deleted; it fails when the
    doubled capacity would exceed the size limit. *)
Definition expand (hm : t) : result (t * option error) :=
  if 2 ^ (log2size hm + 1) >? sizeLimit hm then Ret (hm, Some ErrTableTooLarge)
  else
    hm' <~ fold_left (fun acc b => h <~ acc ;; reinsert h b) (table hm)
             (Ret (newHashMap (log2size hm + 1) (sizeLimit hm))) ;;
    Ret (hm', None).

End hashmap.

(** ** The running checksum *)

Module syncChecksum.

(** Modelled from the spec: the commutative digest (its source file is not
    among the sources).  Section 4.3: the state is an XOR aggregate, [sum]
    and [sub] perform the same transformation, and the time argument may be
    ignored. *)
Record t : Type := { aggregate : Z }.

(** Modelled from the spec: the zero value of the struct, and [sum], [sub]
    and [checksum]. *)
Definition zero : t := {| aggregate := 0 |}.
Definition sum (cs : t) (term : Z) (ts : Z) : t :=
  {| aggregate := Z.lxor (aggregate cs) term |}.
Definition sub (cs : t) (term : Z) (ts : Z) : t :=
  {| aggregate := Z.lxor (aggregate cs) term |}.
Definition checksum (cs : t) : Z := aggregate cs.

End syncChecksum.

(** ** core/pmap/pmap.go *)

Record PMap : Type := {
  hm : hashmap.t;
  st : store.t;
  checksum : syncChecksum.t;
  path : string
}.

Definition withHm (c : PMap) (h : hashmap.t) : PMap :=
  @Build_PMap h (st c) (checksum c) (path c).
Definition withSt (c : PMap) (s : store.t) : PMap :=
  @Build_PMap (hm c) s (checksum c) (path c).
Definition withChecksum (c : PMap) (cs : syncChecksum.t) : PMap :=
  @Build_PMap (hm c) (st c) cs (path c).

Section Constants.

(** The two constants of hashmap.go that [New] and [Open] pass to
    [newHashMap]; their values are not in the sources. *)
Variable defaultHashMapInitialLog2Size : Z.
Variable defaultHashMapSizeLimit : Z.

Definition New (path : string) (size : Z) : PMap :=
  {| hm := hashmap.newHashMap defaultHashMapInitialLog2Size defaultHashMapSizeLimit;
     st := store.newStore path size;
     checksum := syncChecksum.zero;
     path := path |}.

End Constants.

(** What a probe ends on: an empty bucket, or the bucket whose hash and
    stored key both match. *)
Inductive slot : Type :=
| EmptySlot (index : Z)
| FullMatch (index : Z) (stIndex : Z).

(** The probing loop that [Get], [Set], [CAS], [Del] and [restorePair] all
    contain: linear probing from [index] for the hash [h] and [key].  The
    loop changes nothing, so a probe that has visited every bucket it can
    reach without leaving the loop never leaves it. *)
Fixpoint probe (c : PMap) (h : Z) (key : list byte) (index : Z) (n : nat)
  : result slot :=
  match n with
  | O => Diverges
  | S n' =>
      let storedHash := hashmap.getHash (hm c) index in
      if storedHash =? hashmap.emptyBucket then Ret (EmptySlot index)
      else if h =? storedHash then
        let stIndex := hashmap.getStoreIndex (hm c) index in
        storedKey <~ store.key (st c) stIndex ;;
        if bytes_Equal storedKey key then Ret (FullMatch index stIndex)
        else probe c h key (hashmap.next (hm c) index) n'
      else probe c h key (hashmap.next (hm c) index) n'
  end.

Definition search (c : PMap) (h : Z) (key : list byte) : result slot :=
  probe c h key (Z.land h (hashmap.sizeMask (hm c))) (hashmap.fuel (hm c)).

(** "Check for available space": the guard in front of the probing loop of
    [Set], [CAS] and [restorePair]. *)
Definition checkSpace (c : PMap) : result (PMap * option error) :=
  if hashmap.numStoredKeys (hm c) >=? hashmap.numKeysToExpand (hm c) then
    r <~ hashmap.expand (hm c) ;;
    match r with
    | (_, Some err) => Ret (c, Some err)
    | (hm', None) => Ret (withHm c hm', None)
    end
  else Ret (c, None).

Definition Checksum (c : PMap) : Z := syncChecksum.checksum (checksum c).
Definition Deleted (c : PMap) : Z := store.deleted (st c).
Definition Used (c : PMap) : Z := store.length (st c).
Definition Size (c : PMap) : Z := store.size (st c).

(** The bytes the backing file holds once the map is closed. *)
Definition Close (c : PMap) : list byte := store.file (st c).

(** [Get] returns the copy of the value ([None] is Go's nil slice) and the
    error. *)
Definition Get (c : PMap) (h32 : Z) (key : list byte)
  : result (option (list byte) * option error) :=
  let h := wrap32 h32 in
  s <~ search c h key ;;
  match s with
  | EmptySlot _ => Ret (None, None)
  | FullMatch _ stIndex =>
      v <~ store.val (st c) stIndex ;;
      Ret (Some (elems v), None)
  end.

(** The bucket [index] takes hash [h] and offset [storeIndex]. *)
Definition takeBucket (c : PMap) (index h storeIndex : Z) : PMap :=
  withHm c (hashmap.setStoreIndex (hashmap.setHash (hm c) index h) index storeIndex).

(** [Set] ([Set] is a sort of Rocq, hence the name).  On a full match the
    timestamp of the stored value is read through the view [v] twice:
    before [put] for the comparison, after it for the checksum. *)
Definition Set_ (c : PMap) (h64 : Z) (key value : list byte)
  : result (PMap * option error) :=
  if len value <? 8 then Ret (c, Some ErrSetValueLen)
  else
    r <~ checkSpace c ;;
    match r with
    | (c, Some err) => Ret (c, Some err)
    | (c, None) =>
        let h := hashmap.hashReMap (wrap32 h64) in
        s <~ search c h key ;;
        match s with
        | EmptySlot index =>
            match store.put (st c) key value with
            | (_, _, Some err) => Ret (c, Some err)
            | (st', storeIndex, None) =>
                let c := withSt c st' in
                let c := takeBucket c index h storeIndex in
                let c := withHm c (hashmap.incStoredKeys (hm c)) in
                bits <~ Uint64_prefix (tight value) ;;
                let t := int64 bits in
                Ret (withChecksum c
                       (syncChecksum.sum (checksum c) (Z.lxor h64 bits) t), None)
            end
        | FullMatch index stIndex =>
            v <~ store.val (st c) stIndex ;;
            oldBits <~ Uint64_prefix v ;;
            bits <~ Uint64_prefix (tight value) ;;
            let oldT := int64 oldBits in
            let t := int64 bits in
            if (oldT >? t) || (oldT =? t) then Ret (c, None)
            else
              match store.put (st c) key value with
              | (_, _, Some err) => Ret (c, Some err)
              | (st', storeIndex, None) =>
                  v <~ store.valLater (st c) st' stIndex ;;
                  oldBits <~ Uint64_prefix v ;;
                  let c := withSt c st' in
                  let c := withChecksum c
                             (syncChecksum.sub (checksum c) (Z.lxor h64 oldBits) t) in
                  let c := takeBucket c index h storeIndex in
                  Ret (withChecksum c
                         (syncChecksum.sum (checksum c) (Z.lxor h64 bits) t), None)
              end
        end
    end.

Definition CAS (c : PMap) (h64 : Z) (key value : list byte)
  : result (PMap * option error) :=
  if len value <? 24 then Ret (c, Some ErrCASValueLen)
  else
    r <~ checkSpace c ;;
    match r with
    | (c, Some err) => Ret (c, Some err)
    | (c, None) =>
        let providedTime := int64 (le_uint (take 8 value)) in
        let hv := le_uint (take 8 (drop 8 value)) in
        let newBits := le_uint (take 8 (drop 16 value)) in
        let t := int64 newBits in
        let h := hashmap.hashReMap (wrap32 h64) in
        s <~ search c h key ;;
        match s with
        | EmptySlot index =>
            if negb (providedTime =? 0) && negb (hv =? FNV1a64 []) then
              Ret (c, Some ErrCASEmptyPair)
            else
              match store.put (st c) key (drop 16 value) with
              | (_, _, Some err) => Ret (c, Some err)
              | (st', storeIndex, None) =>
                  let c := withSt c st' in
                  let c := takeBucket c index h storeIndex in
                  let c := withHm c (hashmap.incStoredKeys (hm c)) in
                  Ret (withChecksum c
                         (syncChecksum.sum (checksum c) (Z.lxor h64 newBits) t), None)
              end
        | FullMatch index stIndex =>
            v <~ store.val (st c) stIndex ;;
            oldBits <~ Uint64_prefix v ;;
            let oldT := int64 oldBits in
            if negb (oldT =? providedTime) then Ret (c, Some ErrCASTimestamp)
            else
              payload <~ from8 v ;;
              if negb (hv =? FNV1a64 payload) then Ret (c, Some ErrCASHash)
              else
                let c := withChecksum c
                           (syncChecksum.sub (checksum c) (Z.lxor h64 oldBits) t) in
                match store.put (st c) key (drop 16 value) with
                | (_, _, Some err) => Ret (c, Some err)
                | (st', storeIndex, None) =>
                    let c := withSt c st' in
                    let c := takeBucket c index h storeIndex in
                    Ret (withChecksum c
                           (syncChecksum.sum (checksum c) (Z.lxor h64 newBits) t), None)
                end
        end
    end.

Definition Del (c : PMap) (h64 : Z) (key value : list byte)
  : result (PMap * option error) :=
  let h := hashmap.hashReMap (wrap32 h64) in
  s <~ search c h key ;;
  match s with
  | EmptySlot _ => Ret (c, None)
  | FullMatch index stIndex =>
      v <~ store.val (st c) stIndex ;;
      oldBits <~ Uint64_prefix v ;;
      bits <~ Uint64_prefix (tight value) ;;
      let oldT := int64 oldBits in
      let t := int64 bits in
      if t <? oldT then Ret (c, None)
      else
        let c := withSt c (store.addDeleted (st c) (12 + len key + len (elems v))) in
        let c := withChecksum c
                   (syncChecksum.sub (checksum c) (Z.lxor h64 oldBits) t) in
        let c := withHm c (hashmap.setHash (hm c) index hashmap.deletedBucket) in
        let '(st', _, err) := store.put (st c) key [] in
        Ret (withSt c st', err)
  end.

(** [restorePair] is handed the views [key] and [value] that [Open] took
    from the mapping. *)
Definition restorePair (c : PMap) (key : list byte) (value : slice)
  (storeIndex : Z) : result (PMap * option error) :=
  r <~ checkSpace c ;;
  match r with
  | (c, Some err) => Ret (c, Some err)
  | (c, None) =>
      let h64 := FNV1a64 key in
      let h := hashmap.hashReMap (wrap32 h64) in
      s <~ search c h key ;;
      match s with
      | EmptySlot index =>
          let c := takeBucket c index h storeIndex in
          let c := withHm c (hashmap.incStoredKeys (hm c)) in
          bits <~ Uint64_prefix value ;;
          let t := int64 bits in
          Ret (withChecksum c
                 (syncChecksum.sum (checksum c) (Z.lxor h64 bits) t), None)
      | FullMatch index stIndex =>
          v <~ store.val (st c) stIndex ;;
          bits <~ Uint64_prefix value ;;
          let t := int64 bits in
          oldBits <~ Uint64_prefix v ;;
          let c := withChecksum c
                     (syncChecksum.sub (checksum c) (Z.lxor h64 oldBits) t) in
          let c := withSt c (store.addDeleted (st c) (12 + len key + len (elems v))) in
          if len (elems value) >? 0 then
            let c := takeBucket c index h storeIndex in
            Ret (withChecksum c
                   (syncChecksum.sum (checksum c) (Z.lxor h64 bits) t), None)
          else
            Ret (withHm c (hashmap.setHash (hm c) index hashmap.deletedBucket), None)
      end
  end.

(** The loop of [Open]; every turn moves [index] at least 12 bytes on. *)
Fixpoint replay (c : PMap) (index : Z) (n : nat) : result PMap :=
  match n with
  | O => Diverges
  | S n' =>
      kl <~ store.keyLen (st c) index ;;
      if kl <=? 0 then Ret c
      else
        key <~ store.key (st c) index ;;
        val <~ store.val (st c) index ;;
        r <~ restorePair c key val (wrap32 index) ;;
        let c := fst r in
        let c := if len (elems val) >? 0 then c
                 else withSt c (store.addDeleted (st c) (12 + len key)) in
        tl <~ store.totalLen (st c) index ;;
        let index := wrap64 (index + (12 + tl)) in
        let c := withSt c (store.setLength (st c) index) in
        replay c index n'
  end.

Section Constants.

Variable defaultHashMapInitialLog2Size : Z.
Variable defaultHashMapSizeLimit : Z.

(** [Open] is given what the file at [path] holds. *)
Definition Open (path : string) (contents : list byte) : result PMap :=
  let c := {| hm := hashmap.newHashMap defaultHashMapInitialLog2Size
                      defaultHashMapSizeLimit;
              st := store.openStore contents;
              checksum := syncChecksum.zero;
              path := path |} in
  replay c 0 (S (length contents)).

End Constants.

Definition isPresent (c : PMap) (index : Z) : result bool :=
  key <~ store.key (st c) index ;;
  let h32 := wrap32 (FNV1a64 key) in
  r <~ Get c h32 key ;;
  match r with
  | (Some value, None) =>
      storeValue <~ store.val (st c) index ;;
      a <~ upto8 (tight value) ;;
      b <~ upto8 storeValue ;;
      Ret (bytes_Equal a b)
  | _ => Ret false
  end.

(** The iterators are given the callback's answer [foreach key value] and
    return the pairs the callback was called with, in call order. *)
Fixpoint iterateFrom (c : PMap) (foreach : list byte -> list byte -> bool)
  (index : Z) (n : nat) : result (list (list byte * list byte)) :=
  match n with
  | O => Diverges
  | S n' =>
      if index <? store.length (st c) then
        p <~ isPresent c index ;;
        if p then
          key <~ store.key (st c) index ;;
          val <~ store.val (st c) index ;;
          if foreach key (elems val) then
            tl <~ store.totalLen (st c) index ;;
            rest <~ iterateFrom c foreach (wrap64 (index + (12 + tl))) n' ;;
            Ret ((key, elems val) :: rest)
          else Ret [(key, elems val)]
        else
          tl <~ store.totalLen (st c) index ;;
          iterateFrom c foreach (wrap64 (index + (12 + tl))) n'
      else Ret []
  end.

Definition Iterate (c : PMap) (foreach : list byte -> list byte -> bool)
  : result (list (list byte * list byte)) :=
  iterateFrom c foreach 0 (S (Z.to_nat (store.length (st c)))).

Fixpoint backwardsFrom (c : PMap) (foreach : list byte -> list byte -> bool)
  (index : Z) (n : nat) : result (list (list byte * list byte)) :=
  match n with
  | O => Diverges
  | S n' =>
      p <~ isPresent c index ;;
      if p then
        key <~ store.key (st c) index ;;
        val <~ store.val (st c) index ;;
        if foreach key (elems val) then
          prev <~ store.prev (st c) index ;;
          if prev <? 0 then Ret [(key, elems val)]
          else
            rest <~ backwardsFrom c foreach (wrap64 prev) n' ;;
            Ret ((key, elems val) :: rest)
        else Ret [(key, elems val)]
      else
        prev <~ store.prev (st c) index ;;
        if prev <? 0 then Ret []
        else backwardsFrom c foreach (wrap64 prev) n'
  end.

Definition BackwardsIterate (c : PMap) (foreach : list byte -> list byte -> bool)
  : result (list (list byte * list byte)) :=
  let index := store.length (st c) in
  if index <=? 0 then Ret []
  else
    prev <~ store.prev (st c) index ;;
    backwardsFrom c foreach (wrap64 prev) (S (Z.to_nat (store.length (st c)))).

(** ** Workloads *)

(** A mutation that must return a nil error. *)
Definition ok (r : result (PMap * option error)) : option PMap :=
  match r with
  | Ret (c, None) => Some c
  | _ => None
  end.

Definition thenDo (m : option PMap) (f : PMap -> result (PMap * option error))
  : option PMap :=
  match m with
  | Some c => ok (f c)
  | None => None
  end.

Definition bs (s : string) : list byte := list_byte_of_string s.

(** A timestamp header: 8 little-endian bytes. *)
Definition ts (n : Z) : list byte := le_bytes 8 n.

(** [Set], [Del] and [Get] called the way the scenarios of the PMap call
    them, with the FNV-1a hash of the key. *)
Definition setKey (k : string) (value : list byte) (c : PMap) :=
  Set_ c (FNV1a64 (bs k)) (bs k) value.
Definition delKey (k : string) (value : list byte) (c : PMap) :=
  Del c (FNV1a64 (bs k)) (bs k) value.
Definition casKey (k : string) (value : list byte) (c : PMap) :=
  CAS c (FNV1a64 (bs k)) (bs k) value.
Definition getKey (k : string) (c : PMap) :=
  Get c (wrap32 (FNV1a64 (bs k))) (bs k).

(** The value a [CAS] is given: expected timestamp, expected payload hash,
    new timestamp, new payload. *)
Definition casValue (expectedTs expectedHash newTs : Z) (payload : list byte)
  : list byte :=
  ts expectedTs ++ le_bytes 8 expectedHash ++ ts newTs ++ payload.

(** A fresh anonymous map over a table of four buckets. *)
Definition fresh : PMap := New 2 1024 "" 256.

Definition everything (key value : list byte) : bool := true.

(** The map a successful workload ends in. *)
Definition after (m : option PMap) : PMap := default fresh m.

(** A map whose index of four buckets may not grow, after three keys have
    been set: the index is at its expansion threshold. *)
Definition full : PMap :=
  after (thenDo (thenDo (ok (setKey "a" (ts 1000 ++ bs "X") (New 2 4 "" 256)))
                   (setKey "b" (ts 1001 ++ bs "Y")))
           (setKey "c" (ts 1002 ++ bs "Z"))).

(** Two keys whose FNV-1a hash ends in a sentinel: the low 32 bits of
    [FNV1a64 "ydojwsz"] are [emptyBucket], those of [FNV1a64 "xnmozm"] are
    [deletedBucket]. *)
Definition keyE : string := "ydojwsz".
Definition keyD : string := "xnmozm".

(** * Invariants and abstractions *)

(** The mapping has the size of the store, the log ends inside it, and a
    uint32 addresses every offset. *)
Definition store_ok (s : store.t) : Prop :=
  len (store.file s) = store.size s /\
  0 <= store.length s <= store.size s /\
  store.size s <= 2 ^ 32.

(** The frame of [k] and [v] lies at [off], wholly below the end of the
    log. *)
Definition frame_at (s : store.t) (off : Z) (k v : list byte) : Prop :=
  0 <= off /\ off + (12 + len k + len v) <= store.length s /\
  take (length (store.frame k v)) (drop (Z.to_nat off) (store.file s))
    = store.frame k v.

(** The number of buckets. *)
Definition capacity (h : hashmap.t) : Z := 2 ^ hashmap.log2size h.

(** A bucket that is not empty, and one that refers to a frame. *)
Definition nonempty (b : Z * Z) : Prop := fst b <> hashmap.emptyBucket.
Definition occupied (b : Z * Z) : Prop :=
  fst b <> hashmap.emptyBucket /\ fst b <> hashmap.deletedBucket.

(** Both are decidable, so that the buckets of a table can be filtered. *)
#[global] Instance nonempty_dec b : Decision (nonempty b).
Proof. unfold nonempty. apply _. Defined.
#[global] Instance occupied_dec b : Decision (occupied b).
Proof. unfold occupied. apply _. Defined.

(** The shape of the table: a power of two of buckets within reach of a
    uint32 index, the expansion threshold below the capacity, no more
    non-empty buckets than counted keys, every hash a uint32. *)
Definition table_ok (h : hashmap.t) : Prop :=
  0 <= hashmap.log2size h <= 32 /\
  hashmap.sizeMask h = capacity h - 1 /\
  len (hashmap.table h) = capacity h /\
  hashmap.numKeysToExpand h = capacity h * 3 / 4 /\
  hashmap.sizeLimit h <= 2 ^ 32 /\
  len (filter nonempty (hashmap.table h)) <= hashmap.numStoredKeys h /\
  hashmap.numStoredKeys h <= hashmap.numKeysToExpand h /\
  (forall b, b ∈ hashmap.table h -> 0 <= fst b < 2 ^ 32).

(** No empty bucket lies on the probe path from the home bucket of a hash
    to the bucket that files it. *)
Definition paths_ok (h : hashmap.t) : Prop :=
  forall i, 0 <= i < capacity h -> occupied (hashmap.bucket h i) ->
    forall d, 0 <= d < (i - hashmap.getHash h i) mod capacity h ->
      hashmap.getHash h ((hashmap.getHash h i + d) mod capacity h)
        <> hashmap.emptyBucket.

(** The first empty bucket on the way from [i], and what lies before it. *)
Definition first_empty_at (t : hashmap.t) (i : Z) (d : nat) : Prop :=
  hashmap.getHash t ((i + Z.of_nat d) mod capacity t) = hashmap.emptyBucket /\
  forall e, (e < d)%nat ->
    hashmap.getHash t ((i + Z.of_nat e) mod capacity t) <> hashmap.emptyBucket.

(** A bucket the probe for [h] and [key] walks past. *)
Definition skipped (c : PMap) (h : Z) (key : list byte) (i : Z) : Prop :=
  hashmap.getHash (hm c) i <> hashmap.emptyBucket /\
  (hashmap.getHash (hm c) i = h ->
   exists k', store.key (st c) (hashmap.getStoreIndex (hm c) i) = Ret k' /\ k' <> key).

(** A bucket the probe for [h] and [key] stops at with a full match. *)
Definition matching (c : PMap) (h : Z) (key : list byte) (i : Z) : Prop :=
  hashmap.getHash (hm c) i <> hashmap.emptyBucket /\
  hashmap.getHash (hm c) i = h /\
  store.key (st c) (hashmap.getStoreIndex (hm c) i) = Ret key.

(** Every bucket in use refers to a frame whose value carries a timestamp. *)
Definition live_frames (c : PMap) : Prop :=
  forall i, 0 <= i < capacity (hm c) -> occupied (hashmap.bucket (hm c) i) ->
    exists k v, frame_at (st c) (hashmap.getStoreIndex (hm c) i) k v /\ 8 <= len v.

(** No two buckets file the same key under the same hash. *)
Definition keys_unique (c : PMap) : Prop :=
  forall i j k, 0 <= i < capacity (hm c) -> 0 <= j < capacity (hm c) ->
    occupied (hashmap.bucket (hm c) i) -> occupied (hashmap.bucket (hm c) j) ->
    hashmap.getHash (hm c) i = hashmap.getHash (hm c) j ->
    store.key (st c) (hashmap.getStoreIndex (hm c) i) = Ret k ->
    store.key (st c) (hashmap.getStoreIndex (hm c) j) = Ret k ->
    i = j.

(** The invariant of the map. *)
Definition wf (c : PMap) : Prop :=
  table_ok (hm c) /\ paths_ok (hm c) /\ store_ok (st c) /\
  live_frames c /\ keys_unique c.

(** Bucket [i] files [key] under hash [h], with its frame at [off]. *)
Definition filed (c : PMap) (h : Z) (key : list byte) (i off : Z) : Prop :=
  0 <= i < capacity (hm c) /\
  hashmap.bucket (hm c) i = (h, off) /\
  occupied (h, off) /\
  store.key (st c) off = Ret key.

(** Bucket [idx] of [t] becomes [b]. *)
Definition put_bucket (t : hashmap.t) (idx : Z) (b : Z * Z) : hashmap.t :=
  hashmap.setStoreIndex (hashmap.setHash t idx (fst b)) idx (snd b).

(** The state of the loop of [expand]: [nh] is the new table after the
    buckets [p] of the old one have been re-inserted. *)
Definition expanding (old nh : hashmap.t) (p : list (Z * Z)) : Prop :=
  table_ok nh /\ paths_ok nh /\
  hashmap.log2size nh = hashmap.log2size old + 1 /\
  hashmap.sizeLimit nh = hashmap.sizeLimit old /\
  hashmap.numStoredKeys nh = len (filter occupied p) /\
  len (filter nonempty (hashmap.table nh)) = hashmap.numStoredKeys nh /\
  (forall b, b ∈ hashmap.table nh -> nonempty b -> occupied b) /\
  filter occupied (hashmap.table nh) ≡ₚ filter occupied p.

(** The timestamp header of a value: its bits, and the instant they
    denote. *)
Definition stamp (v : list byte) : Z := le_uint (take 8 v).
Definition instant (v : list byte) : Z := int64 (stamp v).

(** The hash under which the mutators file a key. *)
Definition filing (h64 : Z) : Z := hashmap.hashReMap (wrap32 h64).

(** The map holds [v] for [key] under the hash [h]. *)
Definition holds (c : PMap) (h : Z) (key v : list byte) : Prop :=
  exists i off, filed c h key i off /\ frame_at (st c) off key v.

(** [c1] is [c] after the guard "check for available space" let it
    through: the same store and checksum, the same keys, room for one more
    key. *)
Definition regrouped (c c1 : PMap) : Prop :=
  wf c1 /\ st c1 = st c /\ checksum c1 = checksum c /\
  hashmap.numStoredKeys (hm c1) < hashmap.numKeysToExpand (hm c1) /\
  (forall h k v, holds c1 h k v <-> holds c h k v).

(** [c2] is [c1] with [value] stored for [key] under [h]. *)
Definition stored (c1 c2 : PMap) (h : Z) (key value : list byte) : Prop :=
  wf c2 /\
  holds c2 h key value /\
  (forall h' k' v', (h', k') <> (h, key) -> (holds c2 h' k' v' <-> holds c1 h' k' v')) /\
  Used c2 = Used c1 + (12 + len key + len value) /\
  Deleted c2 = Deleted c1.

(** [c2] is [c] without the value [v0] of [key], filed under [h]. *)
Definition removed (c c2 : PMap) (h : Z) (key v0 : list byte) : Prop :=
  wf c2 /\
  (forall v, ~ holds c2 h key v) /\
  (forall h' k' v', (h', k') <> (h, key) -> (holds c2 h' k' v' <-> holds c h' k' v')) /\
  Deleted c2 = wrap64 (Deleted c + (12 + len key + len v0)) /\
  hashmap.numStoredKeys (hm c2) = hashmap.numStoredKeys (hm c).

(** The fields of the value a [CAS] is given. *)
Definition expectedInstant (value : list byte) : Z := int64 (le_uint (take 8 value)).
Definition expectedHash (value : list byte) : Z := le_uint (take 8 (drop 8 value)).
Definition newValue (value : list byte) : list byte := drop 16 value.

(** The maps a caller can hold: a fresh one, over an index of at most
    [2 ^ 32] buckets and a store of at most [2 ^ 32] bytes, and whatever
    [Set], [CAS] and [Del] leave behind, error or not. *)
Inductive reachable : PMap -> Prop :=
| reach_New (log2size sizeLimit : Z) (path : string) (size : Z) :
    0 <= log2size <= 32 -> sizeLimit <= 2 ^ 32 -> 0 <= size <= 2 ^ 32 ->
    reachable (New log2size sizeLimit path size)
| reach_Set (c : PMap) (h64 : Z) (key value : list byte) (c' : PMap) (err : option error) :
    reachable c -> Set_ c h64 key value = Ret (c', err) -> reachable c'
| reach_CAS (c : PMap) (h64 : Z) (key value : list byte) (c' : PMap) (err : option error) :
    reachable c -> CAS c h64 key value = Ret (c', err) -> reachable c'
| reach_Del (c : PMap) (h64 : Z) (key value : list byte) (c' : PMap) (err : option error) :
    reachable c -> Del c h64 key value = Ret (c', err) -> reachable c'.

(** Byte strings as keys of finite maps. *)
#[global] Instance byte_countable : Countable byte :=
  inj_countable Byte.to_N Byte.of_N Byte.of_to_N.

(** The last-write-wins merge of one write into the keys and values a map
    holds: the write is dropped when the key has a value whose timestamp is
    not older. *)
Definition lww_step (m : gmap (list byte) (list byte)) (op : list byte * list byte)
  : gmap (list byte) (list byte) :=
  match m !! fst op with
  | Some old => if instant (snd op) <=? instant old then m else <[fst op := snd op]> m
  | None => <[fst op := snd op]> m
  end.

Definition lww (ops : list (list byte * list byte)) : gmap (list byte) (list byte) :=
  foldl lww_step ∅ ops.

(** The XOR of [H k xor stamp v] over the keys and values of [m]. *)
Definition digest (H : list byte -> Z) (m : gmap (list byte) (list byte)) : Z :=
  map_fold (fun k v acc => Z.lxor (Z.lxor (H k) (stamp v)) acc) 0 m.

(** The map [c] holds exactly [m], every key filed under the hash [H] gives
    it, and its checksum is the digest of [m]. *)
Definition represents (H : list byte -> Z) (c : PMap)
  (m : gmap (list byte) (list byte)) : Prop :=
  wf c /\
  (forall h k v, holds c h k v <-> h = filing (H k) /\ m !! k = Some v) /\
  Checksum c = digest H m.

(** The writes [(key, value)] applied in order, each with the hash
    [H key]; [None] as soon as a [Set] does not return a nil error. *)
Fixpoint applySets (H : list byte -> Z) (c : PMap) (ops : list (list byte * list byte))
  : option PMap :=
  match ops with
  | [] => Some c
  | (k, v) :: ops' =>
      match Set_ c (H k) k v with
      | Ret (c', None) => applySets H c' ops'
      | _ => None
      end
  end.

(** No two writes to the same key share a timestamp. *)
Definition distinct_stamps (ops : list (list byte * list byte)) : Prop :=
  Forall (fun op1 =>
    Forall (fun op2 =>
      fst op1 = fst op2 -> instant (snd op1) = instant (snd op2) -> snd op1 = snd op2)
      ops) ops.

#[global] Instance distinct_stamps_dec ops : Decision (distinct_stamps ops).
Proof. unfold distinct_stamps. apply _. Defined.

(** The map of scenario S1: "a" holds ts(1000) X. *)
Definition afterS1 : PMap := after (ok (setKey "a" (ts 1000 ++ bs "X") fresh)).

(** Three writes, and the same three in another order. *)
Definition writes1 : list (list byte * list byte) :=
  [(bs "a", ts 1 ++ bs "X"); (bs "b", ts 2 ++ bs "Y"); (bs "a", ts 5 ++ bs "Z")].
Definition writes2 : list (list byte * list byte) :=
  [(bs "a", ts 5 ++ bs "Z"); (bs "b", ts 2 ++ bs "Y"); (bs "a", ts 1 ++ bs "X")].


(** One call of a workload: [Set], [CAS] or [Del] for a key, with the
    FNV-1a hash of the key, the hash that [restorePair] and [isPresent]
    compute for it. *)
Inductive op : Type :=
| OpSet (key value : list byte)
| OpCAS (key value : list byte)
| OpDel (key value : list byte).

Definition op_key (o : op) : list byte :=
  match o with
  | OpSet k _ | OpCAS k _ | OpDel k _ => k
  end.

Definition apply_op (c : PMap) (o : op) : result (PMap * option error) :=
  match o with
  | OpSet k v => Set_ c (FNV1a64 k) k v
  | OpCAS k v => CAS c (FNV1a64 k) k v
  | OpDel k v => Del c (FNV1a64 k) k v
  end.

(** The calls of a workload in order; [None] as soon as a call does not
    return a nil error. *)
Fixpoint run (c : PMap) (ops : list op) : option PMap :=
  match ops with
  | [] => Some c
  | o :: ops' =>
      match apply_op c o with
      | Ret (c', None) => run c' ops'
      | _ => None
      end
  end.

(** The bytes of a log: its frames one after the other. *)
Definition log_bytes (l : list (list byte * list byte)) : list byte :=
  concat (map (fun kv => store.frame kv.1 kv.2) l).

(** The store holds the log [l] and nothing else: the frames of [l] from
    offset 0 to [length], zero bytes from there on. *)
Definition log_ok (s : store.t) (l : list (list byte * list byte)) : Prop :=
  store_ok s /\
  store.length s = len (log_bytes l) /\
  store.file s
  = log_bytes l ++ repeat "000"%byte (Z.to_nat (store.size s - store.length s)).

(** What a log leaves of its keys: a frame sets the value of its key, a
    frame with an empty value (a tombstone) removes the key. *)
Definition log_step (m : gmap (list byte) (list byte)) (kv : list byte * list byte)
  : gmap (list byte) (list byte) :=
  if decide (kv.2 = []) then delete kv.1 m else <[kv.1 := kv.2]> m.

Definition log_map (l : list (list byte * list byte)) : gmap (list byte) (list byte) :=
  foldl log_step ∅ l.

(** The frames the mutators write after the keys [m]: the key is not empty,
    the value carries a timestamp, and a tombstone is for a key of [m]. *)
Definition frame_wf (m : gmap (list byte) (list byte)) (kv : list byte * list byte)
  : Prop :=
  kv.1 <> [] /\
  if decide (kv.2 = []) then is_Some (m !! kv.1) else 8 <= len kv.2.

Fixpoint log_wf (m : gmap (list byte) (list byte)) (l : list (list byte * list byte))
  : Prop :=
  match l with
  | [] => True
  | kv :: l' => frame_wf m kv /\ log_wf (log_step m kv) l'
  end.

(** The map [c] and the log [l] of its store agree: [c] holds what [l]
    leaves of its keys, each under its FNV-1a hash. *)
Definition logged (c : PMap) (l : list (list byte * list byte)) : Prop :=
  represents FNV1a64 c (log_map l) /\ log_ok (st c) l.

(** A log that [Open] can replay. *)
Definition tracked (c : PMap) (l : list (list byte * list byte)) : Prop :=
  logged c l /\ log_wf ∅ l.

(** The bytes of the frames of the pairs of [m]: 12 bytes of lengths and
    trailer, the key and the value. *)
Definition live_bytes (m : gmap (list byte) (list byte)) : Z :=
  map_fold (fun k v acc => 12 + len k + len v + acc) 0 m.

(** The state of the loop of [Open] on the bytes [file] once the frames [p]
    have been replayed: the map holds what [p] leaves of its keys, the log
    ends after [p], every stored key has cost at least 13 bytes of log,
    the index may grow to as many buckets as the file has bytes, and the
    deleted bytes are those of the log that are not in a frame of a pair
    the map holds. *)
Definition replayed (file : list byte) (c : PMap) (p : list (list byte * list byte))
  : Prop :=
  represents FNV1a64 c (log_map p) /\
  store.file (st c) = file /\
  store.size (st c) = len file /\
  store.length (st c) = len (log_bytes p) /\
  13 * hashmap.numStoredKeys (hm c) <= len (log_bytes p) /\
  len file <= hashmap.sizeLimit (hm c) /\
  0 <= store.deleted (st c) /\
  store.deleted (st c) + live_bytes (log_map p) = len (log_bytes p).

(** A workload with an overwrite, a discarded write, a delete, a write
    after the delete and a swap. *)
Definition workload : list op :=
  [OpSet (bs "a") (ts 1000 ++ bs "X");
   OpSet (bs "b") (ts 1001 ++ bs "Y");
   OpSet (bs "a") (ts 2000 ++ bs "Z");
   OpSet (bs "b") (ts 500 ++ bs "W");
   OpDel (bs "a") (ts 3000);
   OpSet (bs "a") (ts 4000 ++ bs "V");
   OpCAS (bs "b") (casValue 1001 (FNV1a64 (bs "Y")) 7 (bs "U"))].

Definition afterWorkload : PMap := default fresh (run fresh workload).

(** The pairs a traversal has called its callback with: the pairs of [l]
    in order, up to and with the first one the callback answers false
    for. *)
Fixpoint stop_at (foreach : list byte -> list byte -> bool)
  (l : list (list byte * list byte)) : list (list byte * list byte) :=
  match l with
  | [] => []
  | kv :: l' => if foreach kv.1 kv.2 then kv :: stop_at foreach l' else [kv]
  end.

(** The frames of [p] whose key has no later frame, neither in [p] nor in
    [q]. *)
Fixpoint last_writes (p q : list (list byte * list byte))
  : list (list byte * list byte) :=
  match p with
  | [] => []
  | kv :: p' =>
      if decide (kv.1 ∈ (p' ++ q).*1) then last_writes p' q
      else kv :: last_writes p' q
  end.

(** The frames that [Set] writes after the keys [m]: the value carries a
    timestamp, which is newer than that of the value the key holds. *)
Fixpoint log_lww (m : gmap (list byte) (list byte)) (l : list (list byte * list byte))
  : Prop :=
  match l with
  | [] => True
  | kv :: l' =>
      (8 <= len kv.2 /\
       forall old, m !! kv.1 = Some old -> instant old < instant kv.2) /\
      log_lww (log_step m kv) l'
  end.

(** A key whose FNV-1a hash does not end in a bucket sentinel. *)
Definition plain_hash (k : list byte) : Prop :=
  occupied (wrap32 (FNV1a64 k), 0).

#[global] Instance plain_hash_dec k : Decision (plain_hash k).
Proof. unfold plain_hash. apply _. Defined.

(** * Bytes and little-endian integers *)

Lemma len_nonneg {A} (l : list A) : 0 <= len l.
Proof. unfold len. lia. Qed.

Lemma len_app {A} (l1 l2 : list A) : len (l1 ++ l2) = len l1 + len l2.
Proof. unfold len. rewrite length_app. lia. Qed.

Lemma byte_to_Z_range (b : byte) : 0 <= byte_to_Z b < 256.
Proof.
  unfold byte_to_Z. pose proof (Byte.to_N_bounded b). lia.
Qed.

Lemma byte_to_Z_to_byte (z : Z) : byte_to_Z (Z_to_byte z) = z mod 256.
Proof.
  unfold byte_to_Z, Z_to_byte.
  pose proof (Z.mod_pos_bound z 256 ltac:(lia)) as Hb.
  destruct (Byte.of_N (Z.to_N (z mod 256))) as [b|] eqn:E.
  - apply Byte.to_of_N in E. rewrite E. lia.
  - apply Byte.of_N_None_iff in E. lia.
Qed.

Lemma length_le_bytes (n : nat) (z : Z) : length (le_bytes n z) = n.
Proof. revert z. induction n as [|n IH]; intros z; simpl; [done|]. by rewrite IH. Qed.

Lemma len_le_bytes (n : nat) (z : Z) : len (le_bytes n z) = Z.of_nat n.
Proof. unfold len. by rewrite length_le_bytes. Qed.

Lemma le_uint_le_bytes (n : nat) (z : Z) :
  le_uint (le_bytes n z) = z mod 256 ^ Z.of_nat n.
Proof.
  revert z. induction n as [|n IH]; intros z.
  - simpl. by rewrite Z.mod_1_r.
  - cbn [le_bytes le_uint]. rewrite IH, byte_to_Z_to_byte.
    rewrite Nat2Z.inj_succ, Z.pow_succ_r by lia.
    rewrite (Z.rem_mul_r z 256 (256 ^ Z.of_nat n)) by lia. reflexivity.
Qed.

Lemma le_uint_le_bytes_4 (z : Z) :
  0 <= z < 2 ^ 32 -> le_uint (le_bytes 4 z) = z.
Proof.
  intros Hz. rewrite le_uint_le_bytes.
  change (256 ^ Z.of_nat 4) with (2 ^ 32). by apply Z.mod_small.
Qed.

Lemma le_uint_range (bs : list byte) : 0 <= le_uint bs < 256 ^ len bs.
Proof.
  induction bs as [|b bs IH].
  - simpl. unfold len. simpl. lia.
  - cbn [le_uint]. unfold len in *. rewrite length_cons, Nat2Z.inj_succ, Z.pow_succ_r by lia.
    pose proof (byte_to_Z_range b). lia.
Qed.

(** * Slicing the mapping *)

Lemma sub_Ret (l : list byte) (a b : Z) :
  0 <= a -> a <= b -> b <= len l ->
  sub l a b = Ret (take (Z.to_nat (b - a)) (drop (Z.to_nat a) l)).
Proof.
  intros Ha Hab Hb. unfold sub.
  destruct (0 <=? a) eqn:E1; [|lia].
  destruct (a <=? b) eqn:E2; [|lia].
  destruct (b <=? len l) eqn:E3; [|lia]. reflexivity.
Qed.

(** A window [l[off : off + n]] that is known to hold [w] determines every
    slice inside it. *)
Lemma sub_window (l w : list byte) (off a b : Z) :
  0 <= off -> off + len w <= len l ->
  take (length w) (drop (Z.to_nat off) l) = w ->
  0 <= a -> a <= b -> b <= len w ->
  sub l (off + a) (off + b) = Ret (take (Z.to_nat (b - a)) (drop (Z.to_nat a) w)).
Proof.
  intros Hoff Hfit Hw Ha Hab Hb.
  rewrite sub_Ret by lia. f_equal.
  replace (off + b - (off + a)) with (b - a) by lia.
  rewrite <- Hw.
  rewrite Z2Nat.inj_add by lia. rewrite <- drop_drop.
  rewrite skipn_firstn_comm, take_take. f_equal. unfold len in Hb. lia.
Qed.

Lemma slice_app_mid {A} (p m q : list A) (a n : nat) :
  length p = a -> length m = n -> take n (drop a (p ++ m ++ q)) = m.
Proof.
  intros <- <-. rewrite drop_app_length. by rewrite take_app_length.
Qed.

Lemma len_frame (k v : list byte) : len (store.frame k v) = 12 + len k + len v.
Proof.
  unfold store.frame. rewrite !len_app, !len_le_bytes. lia.
Qed.

Lemma frame_take_keyLen (k v : list byte) :
  take 4 (drop 0 (store.frame k v)) = le_bytes 4 (len k).
Proof.
  unfold store.frame. rewrite drop_0.
  rewrite take_app_length'; [done|]. by rewrite length_le_bytes.
Qed.

Lemma frame_take_valLen (k v : list byte) :
  take 4 (drop 4 (store.frame k v)) = le_bytes 4 (len v).
Proof.
  unfold store.frame.
  rewrite drop_app_length' by (by rewrite length_le_bytes).
  rewrite take_app_length'; [done|]. by rewrite length_le_bytes.
Qed.

Lemma frame_take_key (k v : list byte) :
  take (length k) (drop 8 (store.frame k v)) = k.
Proof.
  unfold store.frame.
  rewrite (app_assoc (le_bytes 4 (len k))).
  rewrite drop_app_length' by (by rewrite length_app, !length_le_bytes).
  by rewrite take_app_length.
Qed.

Lemma frame_take_val (k v : list byte) :
  take (length v) (drop (8 + length k) (store.frame k v)) = v.
Proof.
  unfold store.frame.
  rewrite (app_assoc (le_bytes 4 (len k))), (app_assoc _ k).
  rewrite drop_app_length' by (rewrite !length_app, !length_le_bytes; lia).
  by rewrite take_app_length.
Qed.

Section Frame.

Context (s : store.t) (off : Z) (k v : list byte).
Hypothesis Hok : store_ok s.
Hypothesis Hfr : frame_at s off k v.

Lemma frame_bounds :
  0 <= off /\ off + len (store.frame k v) <= len (store.file s) /\
  0 <= len k < 2 ^ 32 /\ 0 <= len v < 2 ^ 32.
Proof.
  destruct Hok as (Hl & Hr & Hs). destruct Hfr as (H0 & H1 & _).
  rewrite len_frame. pose proof (len_nonneg k). pose proof (len_nonneg v). lia.
Qed.

Lemma frame_sub (a b : Z) :
  0 <= a -> a <= b -> b <= len (store.frame k v) ->
  sub (store.file s) (off + a) (off + b)
    = Ret (take (Z.to_nat (b - a)) (drop (Z.to_nat a) (store.frame k v))).
Proof.
  intros. destruct frame_bounds as (? & ? & _).
  apply sub_window; try lia. apply Hfr.
Qed.

Lemma frame_keyLen : store.keyLen s off = Ret (len k).
Proof.
  unfold store.keyLen. destruct frame_bounds as (_ & _ & Hk & Hv).
  replace off with (off + 0) at 1 by lia.
  rewrite frame_sub by (rewrite ?len_frame; lia).
  change (Z.to_nat (4 - 0)) with 4%nat. change (Z.to_nat 0) with 0%nat.
  rewrite frame_take_keyLen. cbn [rbind]. by rewrite le_uint_le_bytes_4.
Qed.

Lemma frame_valLen : store.valLen s off = Ret (len v).
Proof.
  unfold store.valLen. destruct frame_bounds as (_ & _ & Hk & Hv).
  rewrite frame_sub by (rewrite ?len_frame; lia).
  change (Z.to_nat (8 - 4)) with 4%nat. change (Z.to_nat 4) with 4%nat.
  rewrite frame_take_valLen. cbn [rbind]. by rewrite le_uint_le_bytes_4.
Qed.

Lemma frame_totalLen : store.totalLen s off = Ret (len k + len v).
Proof.
  unfold store.totalLen. rewrite frame_keyLen, frame_valLen. cbn [rbind].
  destruct Hok as (Hl & Hr & Hs). destruct Hfr as (H0 & H1 & _).
  destruct frame_bounds as (_ & _ & Hk & Hv).
  f_equal. apply Z.mod_small. lia.
Qed.

Lemma frame_key : store.key s off = Ret k.
Proof.
  unfold store.key. rewrite frame_keyLen. cbn [rbind].
  destruct frame_bounds as (_ & _ & Hk & Hv).
  replace (off + 8 + len k) with (off + (8 + len k)) by lia.
  rewrite frame_sub by (rewrite ?len_frame; lia).
  f_equal. replace (Z.to_nat (8 + len k - 8)) with (length k) by (unfold len; lia).
  change (Z.to_nat 8) with 8%nat. apply frame_take_key.
Qed.

Lemma frame_val :
  store.val s off
  = Ret {| elems := v;
           spare := drop (Z.to_nat (off + 8 + len k + len v)) (store.file s) |}.
Proof.
  unfold store.val. rewrite frame_keyLen, frame_valLen. cbn [rbind].
  destruct frame_bounds as (_ & _ & Hk & Hv).
  replace (off + 8 + len k + len v) with (off + (8 + len k + len v)) by lia.
  replace (off + 8 + len k) with (off + (8 + len k)) by lia.
  rewrite frame_sub by (rewrite ?len_frame; lia).
  cbn [rbind]. do 2 f_equal.
  replace (Z.to_nat (8 + len k + len v - (8 + len k))) with (length v) by (unfold len; lia).
  replace (Z.to_nat (8 + len k)) with (8 + length k)%nat by (unfold len; lia).
  apply frame_take_val.
Qed.

End Frame.

(** A frame that a later mapping still holds reads the same through a view
    taken before. *)
Lemma frame_valLater (s s' : store.t) (off : Z) (k v : list byte) :
  store_ok s -> store_ok s' -> frame_at s off k v -> frame_at s' off k v ->
  store.valLater s s' off
  = Ret {| elems := v;
           spare := drop (Z.to_nat (off + 8 + len k + len v)) (store.file s') |}.
Proof.
  intros Hok Hok' Hfr Hfr'. unfold store.valLater.
  rewrite (frame_keyLen s off k v Hok Hfr), (frame_valLen s off k v Hok Hfr).
  cbn [rbind].
  pose proof (frame_val s' off k v Hok' Hfr') as Hv. unfold store.val in Hv.
  rewrite (frame_keyLen s' off k v Hok' Hfr'), (frame_valLen s' off k v Hok' Hfr') in Hv.
  exact Hv.
Qed.

Lemma length_frame (k v : list byte) :
  length (store.frame k v) = (12 + length k + length v)%nat.
Proof.
  unfold store.frame. rewrite !length_app, !length_le_bytes. lia.
Qed.

(** [put] on a store with room. *)
Lemma put_room (s : store.t) (k v : list byte) :
  store_ok s ->
  store.length s + (12 + len k + len v) <= store.size s ->
  exists s',
    store.put s k v = (s', store.length s, None) /\
    store_ok s' /\
    store.length s' = store.length s + (12 + len k + len v) /\
    store.deleted s' = store.deleted s /\
    store.size s' = store.size s /\
    frame_at s' (store.length s) k v /\
    (forall off k0 v0, frame_at s off k0 v0 -> frame_at s' off k0 v0).
Proof.
  intros (Hl & Hr & Hs) Hroom.
  pose proof (len_nonneg k). pose proof (len_nonneg v).
  unfold store.put.
  destruct (store.length s + (12 + len k + len v) >? store.size s) eqn:E; [lia|].
  eexists. split.
  { f_equal. f_equal. unfold wrap32. apply Z.mod_small. lia. }
  assert (Hlt : length (take (Z.to_nat (store.length s)) (store.file s))
                = Z.to_nat (store.length s)).
  { rewrite length_take. unfold len in Hl. lia. }
  cbn [store.file store.length store.deleted store.size].
  split; [|split; [|split; [|split; [|split]]]]; try reflexivity.
  - split; [|split]; cbn [store.file store.length store.deleted store.size]; try lia.
    unfold len in *. rewrite !length_app, length_frame, Hlt, length_drop. lia.
  - split; [lia|]. split; [cbn; lia|]. cbn [store.file].
    rewrite drop_app_length' by done. by rewrite take_app_length.
  - intros off k0 v0 (Ho0 & Ho1 & Ho2). split; [done|]. split; [cbn; lia|]. cbn [store.file].
    rewrite <- Ho2 at 2.
    pose proof (length_frame k0 v0) as Hf. unfold len in *.
    rewrite drop_app_le by (rewrite Hlt; lia).
    rewrite take_app_le by (rewrite length_drop, Hlt; lia).
    rewrite skipn_firstn_comm, take_take. f_equal. lia.
Qed.

Section Table.

Context (h : hashmap.t).
Hypothesis Hok : table_ok h.

Lemma capacity_pos : 0 < capacity h.
Proof. unfold capacity. destruct Hok as (? & _). apply Z.pow_pos_nonneg; lia. Qed.

Lemma capacity_le : capacity h <= 2 ^ 32.
Proof.
  unfold capacity. destruct Hok as (? & _). apply Z.pow_le_mono_r; lia.
Qed.

Lemma capacity_divides : 2 ^ 32 = capacity h * 2 ^ (32 - hashmap.log2size h).
Proof.
  unfold capacity. destruct Hok as (? & _).
  rewrite <- Z.pow_add_r by lia. f_equal. lia.
Qed.

Lemma land_mask (x : Z) : Z.land x (hashmap.sizeMask h) = x mod capacity h.
Proof.
  destruct Hok as (Hl & Hm & _). rewrite Hm. unfold capacity.
  rewrite <- Z.land_ones by lia. f_equal. rewrite Z.ones_equiv. lia.
Qed.

Lemma next_mod (i : Z) : hashmap.next h i = (i + 1) mod capacity h.
Proof.
  unfold hashmap.next. rewrite land_mask. unfold wrap32.
  apply Z.mod_mod_divide. exists (2 ^ (32 - hashmap.log2size h)).
  rewrite capacity_divides. lia.
Qed.

Lemma fuel_capacity : hashmap.fuel h = Z.to_nat (capacity h).
Proof. unfold hashmap.fuel. destruct Hok as (_ & Hm & _). rewrite Hm. f_equal. lia. Qed.

Lemma index_in_range (x : Z) : 0 <= x mod capacity h < capacity h.
Proof. apply Z.mod_pos_bound, capacity_pos. Qed.

Lemma bucket_lookup (i : Z) :
  0 <= i < capacity h ->
  hashmap.table h !! Z.to_nat i = Some (hashmap.bucket h i).
Proof.
  intros Hi. unfold hashmap.bucket.
  destruct (hashmap.table h !! Z.to_nat i) as [b|] eqn:E; [done|].
  apply lookup_ge_None in E. destruct Hok as (_ & _ & Hlen & _).
  unfold len in Hlen. lia.
Qed.

Lemma bucket_elem (i : Z) :
  0 <= i < capacity h -> hashmap.bucket h i ∈ hashmap.table h.
Proof. intros Hi. eapply list_elem_of_lookup_2, bucket_lookup, Hi. Qed.

Lemma getHash_range (i : Z) :
  0 <= i < capacity h -> 0 <= hashmap.getHash h i < 2 ^ 32.
Proof.
  intros Hi. destruct Hok as (_ & _ & _ & _ & _ & _ & _ & Hb).
  apply Hb, bucket_elem, Hi.
Qed.

End Table.

(** * The probing loop *)

Lemma bounded_search (P : nat -> Prop) (n : nat) :
  (forall m, Decision (P m)) ->
  (exists m, (m < n)%nat /\ P m /\ forall e, (e < m)%nat -> ~ P e)
  \/ (forall e, (e < n)%nat -> ~ P e).
Proof.
  intros Hdec. induction n as [|n IH].
  - right. intros e He. lia.
  - destruct IH as [(m & Hm & HPm & Hleast)|Hnone].
    + left. exists m. split; [lia|]. split; done.
    + destruct (decide (P n)) as [HPn|HnPn].
      * left. exists n. split; [lia|]. split; done.
      * right. intros e He. destruct (decide (e = n)) as [->|Hne]; [done|].
        apply Hnone. lia.
Qed.

Lemma least_nat (P : nat -> Prop) (n : nat) :
  (forall m, Decision (P m)) -> P n ->
  exists m, (m <= n)%nat /\ P m /\ forall e, (e < m)%nat -> ~ P e.
Proof.
  intros Hdec Hn.
  destruct (bounded_search P (S n) Hdec) as [(m & Hm & HPm & Hleast)|Hnone].
  - exists m. split; [lia|]. split; done.
  - exfalso. apply (Hnone n); [lia|done].
Qed.

Section Probe.

Context (c : PMap) (h : Z) (key : list byte).
Hypothesis Hok : table_ok (hm c).

Local Notation "'cap'" := (capacity (hm c)) (only parsing).

Lemma probe_empty (i : Z) (n : nat) :
  hashmap.getHash (hm c) i = hashmap.emptyBucket ->
  probe c h key i (S n) = Ret (EmptySlot i).
Proof. intros E. cbn [probe]. rewrite E. by rewrite Z.eqb_refl. Qed.

Lemma probe_match (i : Z) (n : nat) :
  matching c h key i ->
  probe c h key i (S n) = Ret (FullMatch i (hashmap.getStoreIndex (hm c) i)).
Proof.
  intros (Hne & Hh & Hk). cbn [probe].
  destruct (hashmap.getHash (hm c) i =? hashmap.emptyBucket) eqn:E1; [lia|].
  destruct (h =? hashmap.getHash (hm c) i) eqn:E2; [|lia].
  rewrite Hk. cbn [rbind]. unfold bytes_Equal. by rewrite bool_decide_eq_true_2.
Qed.

Lemma probe_skip (i : Z) (n : nat) :
  skipped c h key i ->
  probe c h key i (S n) = probe c h key ((i + 1) mod cap) n.
Proof.
  intros (Hne & Hk). cbn [probe]. rewrite (next_mod _ Hok).
  destruct (hashmap.getHash (hm c) i =? hashmap.emptyBucket) eqn:E1; [lia|].
  destruct (h =? hashmap.getHash (hm c) i) eqn:E2; [|done].
  destruct Hk as (k' & -> & Hk'); [lia|]. cbn [rbind].
  unfold bytes_Equal. by rewrite bool_decide_eq_false_2.
Qed.

Lemma probe_skips (d : nat) : forall (i : Z) (n : nat),
  (forall e, (e < d)%nat -> skipped c h key ((i + Z.of_nat e) mod cap)) ->
  (d <= n)%nat ->
  probe c h key (i mod cap) n = probe c h key ((i + Z.of_nat d) mod cap) (n - d).
Proof.
  induction d as [|d IH]; intros i n Hs Hn.
  - rewrite Z.add_0_r, Nat.sub_0_r. reflexivity.
  - destruct n as [|n]; [lia|].
    rewrite probe_skip.
    2:{ specialize (Hs 0%nat ltac:(lia)). by rewrite Z.add_0_r in Hs. }
    pose proof (capacity_pos _ Hok).
    rewrite Zplus_mod_idemp_l.
    rewrite (IH (i + 1) n).
    + f_equal. f_equal. lia.
    + intros e He. specialize (Hs (S e) ltac:(lia)).
      replace (i + 1 + Z.of_nat e) with (i + Z.of_nat (S e)) by lia. done.
    + lia.
Qed.

(** The outcome of a probe in terms of the buckets on its way: either it
    walks past everything up to the first empty bucket, or it stops at the
    first matching bucket before it. *)
Lemma probe_outcome (d : nat) (i : Z) (n : nat) :
  first_empty_at (hm c) i d ->
  (d < n)%nat ->
  (forall e, (e < d)%nat ->
     hashmap.getHash (hm c) ((i + Z.of_nat e) mod cap) = h ->
     exists k', store.key (st c)
                  (hashmap.getStoreIndex (hm c) ((i + Z.of_nat e) mod cap)) = Ret k') ->
  (probe c h key (i mod cap) n = Ret (EmptySlot ((i + Z.of_nat d) mod cap)) /\
   forall e, (e < d)%nat -> skipped c h key ((i + Z.of_nat e) mod cap))
  \/
  (exists e, (e < d)%nat /\
     probe c h key (i mod cap) n
       = Ret (FullMatch ((i + Z.of_nat e) mod cap)
                (hashmap.getStoreIndex (hm c) ((i + Z.of_nat e) mod cap))) /\
     matching c h key ((i + Z.of_nat e) mod cap) /\
     forall e', (e' < e)%nat -> skipped c h key ((i + Z.of_nat e') mod cap)).
Proof.
  intros (Hempty & Hbefore) Hn Hkeys.
  set (P := fun e : nat => matching c h key ((i + Z.of_nat e) mod cap)).
  assert (Hdec : forall e, Decision (P e)).
  { intros e. unfold P, matching. apply and_dec; [apply _|]. apply and_dec; [apply _|].
    destruct (store.key (st c) (hashmap.getStoreIndex (hm c) ((i + Z.of_nat e) mod cap)))
      as [k'| |]; [|right; discriminate|right; discriminate].
    destruct (decide (k' = key)) as [->|Hne]; [by left|right; congruence]. }
  assert (Hskip : forall e, (e < d)%nat -> ~ P e -> skipped c h key ((i + Z.of_nat e) mod cap)).
  { intros e He HnP. split; [by apply Hbefore|].
    intros Hh. destruct (Hkeys e He Hh) as (k' & Hk'). exists k'. split; [done|].
    intros ->. apply HnP. split; [by apply Hbefore|]. done. }
  destruct (bounded_search P d Hdec) as [(e & Hle & HPe & Hleast)|Hno].
  - right. exists e. split; [lia|].
    assert (Hsk : forall e', (e' < e)%nat -> skipped c h key ((i + Z.of_nat e') mod cap)).
    { intros e' He'. apply Hskip; [lia|]. by apply Hleast. }
    split; [|split; done].
    rewrite (probe_skips e i n Hsk) by lia.
    destruct (n - e)%nat as [|m] eqn:E; [lia|]. by apply probe_match.
  - left.
    assert (Hsk : forall e, (e < d)%nat -> skipped c h key ((i + Z.of_nat e) mod cap)).
    { intros e He. apply Hskip; [done|]. by apply Hno. }
    split; [|done].
    rewrite (probe_skips d i n Hsk) by lia.
    destruct (n - d)%nat as [|m] eqn:E; [lia|]. by apply probe_empty.
Qed.

End Probe.

(** * Well-formed maps *)

Lemma mod_reach (n h i : Z) : 0 < n -> 0 <= i < n -> (h + (i - h) mod n) mod n = i.
Proof.
  intros Hn Hi. rewrite Zplus_mod_idemp_r.
  replace (h + (i - h)) with i by lia. by apply Z.mod_small.
Qed.

Lemma mod_dist (n h d : Z) : 0 < n -> 0 <= d < n -> ((h + d) mod n - h) mod n = d.
Proof.
  intros Hn Hd. rewrite Zminus_mod_idemp_l.
  replace (h + d - h) with d by lia. by apply Z.mod_small.
Qed.

Lemma exists_unfiltered {A} (P : A -> Prop) `{!forall x, Decision (P x)} (l : list A) :
  (length (filter P l) < length l)%nat ->
  exists i x, l !! i = Some x /\ ~ P x.
Proof.
  induction l as [|a l IH]; intros Hlt; [simpl in Hlt; lia|].
  destruct (decide (P a)) as [Ha|Ha].
  - rewrite filter_cons_True in Hlt by done. simpl in Hlt.
    destruct IH as (i & x & Hi & Hx); [lia|]. by exists (S i), x.
  - by exists 0%nat, a.
Qed.

Section FirstEmpty.

Context (t : hashmap.t).
Hypothesis Hok : table_ok t.

Lemma table_has_room : len (filter nonempty (hashmap.table t)) < capacity t.
Proof.
  pose proof (capacity_pos _ Hok) as Hpos.
  pose proof Hok as (_ & _ & _ & He & _ & Hc1 & Hc2 & _).
  assert (capacity t * 3 / 4 < capacity t).
  { apply Z.div_lt_upper_bound; lia. }
  lia.
Qed.

Lemma first_empty_exists (i : Z) :
  exists d, (d < Z.to_nat (capacity t))%nat /\ first_empty_at t i d.
Proof.
  pose proof (capacity_pos _ Hok) as Hpos.
  pose proof table_has_room as Hroom.
  pose proof Hok as (_ & _ & Hlen & _). unfold len in Hlen.
  destruct (exists_unfiltered nonempty (hashmap.table t)) as (j & b & Hj & Hb).
  { unfold len in Hroom. lia. }
  assert (Hjr : 0 <= Z.of_nat j < capacity t).
  { apply lookup_lt_Some in Hj. lia. }
  assert (Hbj : hashmap.getHash t (Z.of_nat j) = hashmap.emptyBucket).
  { unfold hashmap.getHash, hashmap.bucket. rewrite Nat2Z.id, Hj. simpl.
    unfold nonempty in Hb. by destruct (decide (fst b = hashmap.emptyBucket)). }
  set (P := fun e : nat =>
              hashmap.getHash t ((i + Z.of_nat e) mod capacity t) = hashmap.emptyBucket).
  assert (HP0 : P (Z.to_nat ((Z.of_nat j - i) mod capacity t))).
  { unfold P. pose proof (Z.mod_pos_bound (Z.of_nat j - i) (capacity t) Hpos).
    rewrite Z2Nat.id by lia. by rewrite mod_reach. }
  destruct (least_nat P _ ltac:(intros; unfold P; apply _) HP0) as (d & Hd & HPd & Hleast).
  exists d. split.
  - pose proof (Z.mod_pos_bound (Z.of_nat j - i) (capacity t) Hpos). lia.
  - split; [done|]. intros e He. by apply Hleast.
Qed.

End FirstEmpty.

Section Search.

Context (c : PMap).
Hypothesis Hwf : wf c.

Local Notation "'cap'" := (capacity (hm c)) (only parsing).

(** What a search for a hash that is not a sentinel returns. *)
Lemma search_cases (h : Z) (key : list byte) :
  occupied (h, 0) ->
  (exists i off, search c h key = Ret (FullMatch i off) /\ filed c h key i off)
  \/
  (exists j, search c h key = Ret (EmptySlot j) /\
     0 <= j < cap /\
     hashmap.getHash (hm c) j = hashmap.emptyBucket /\
     (forall d, 0 <= d < (j - h) mod cap ->
        hashmap.getHash (hm c) ((h + d) mod cap) <> hashmap.emptyBucket) /\
     forall i off, ~ filed c h key i off).
Proof.
  intros (Hh1 & Hh2). simpl in Hh1, Hh2.
  pose proof (capacity_pos _ (proj1 Hwf)) as Hpos.
  pose proof Hwf as (_ & Hpaths & Hst & Hlive & Huniq).
  unfold search. rewrite (land_mask _ (proj1 Hwf)), (fuel_capacity _ (proj1 Hwf)).
  destruct (first_empty_exists _ (proj1 Hwf) h) as (d & Hd & Hfe).
  assert (Hocc : forall e, hashmap.getHash (hm c) ((h + Z.of_nat e) mod cap) = h ->
                 occupied (hashmap.bucket (hm c) ((h + Z.of_nat e) mod cap))).
  { intros e He. unfold hashmap.getHash in He. split; by rewrite He. }
  destruct (probe_outcome c h key (proj1 Hwf) d h (Z.to_nat cap) Hfe Hd) as
    [(Hp & Hsk)|(e & He & Hp & Hm & Hsk)].
  { intros e He Hhe. destruct (Hlive ((h + Z.of_nat e) mod cap)) as (k' & v' & Hf & _).
    - apply Z.mod_pos_bound, Hpos.
    - by apply Hocc.
    - exists k'. by apply (frame_key _ _ k' v'). }
  - right. exists ((h + Z.of_nat d) mod cap). split; [done|].
    split; [apply Z.mod_pos_bound, Hpos|]. destruct Hfe as (Hfe1 & Hfe2).
    split; [done|]. split.
    + intros dd Hdd. rewrite mod_dist in Hdd by lia.
      specialize (Hfe2 (Z.to_nat dd) ltac:(lia)). by rewrite Z2Nat.id in Hfe2 by lia.
    + intros i off (Hi & Hb & Hoc & Hk).
      set (D0 := (i - h) mod cap).
      pose proof (Z.mod_pos_bound (i - h) cap Hpos) as HD0. fold D0 in HD0.
      assert (Hgi : hashmap.getHash (hm c) i = h) by (unfold hashmap.getHash; by rewrite Hb).
      assert (Hsi : hashmap.getStoreIndex (hm c) i = off)
        by (unfold hashmap.getStoreIndex; by rewrite Hb).
      assert (Hlt : D0 < Z.of_nat d).
      { destruct (Z_lt_le_dec D0 (Z.of_nat d)) as [|Hge]; [done|]. exfalso.
        destruct (Z.eq_dec D0 (Z.of_nat d)) as [E|NE].
        - rewrite <- E in Hfe1. unfold D0 in Hfe1. rewrite mod_reach in Hfe1 by lia.
          rewrite Hgi in Hfe1. done.
        - apply (Hpaths i Hi ltac:(by rewrite Hb) (Z.of_nat d)).
          + rewrite Hgi. fold D0. lia.
          + rewrite Hgi. done. }
      destruct (Hsk (Z.to_nat D0) ltac:(lia)) as (_ & Hskk).
      rewrite Z2Nat.id in Hskk by lia. unfold D0 in Hskk. rewrite mod_reach in Hskk by lia.
      destruct (Hskk Hgi) as (k' & Hk' & Hne). rewrite Hsi in Hk'. congruence.
  - left. exists ((h + Z.of_nat e) mod cap),
      (hashmap.getStoreIndex (hm c) ((h + Z.of_nat e) mod cap)).
    split; [done|].
    destruct Hm as (Hm1 & Hm2 & Hm3). split; [apply Z.mod_pos_bound, Hpos|].
    split; [|split; [|done]].
    + unfold hashmap.getHash, hashmap.getStoreIndex in *.
      destruct (hashmap.bucket (hm c) ((h + Z.of_nat e) mod cap)) as [bh bo].
      simpl in *. by subst.
    + split; done.
Qed.

Lemma search_found (h : Z) (key : list byte) (i off : Z) :
  filed c h key i off -> search c h key = Ret (FullMatch i off).
Proof.
  intros Hf. pose proof Hf as (Hi & Hb & Hoc & Hk).
  destruct (search_cases h key) as [(j & off' & Hs & Hf')|(j & _ & _ & _ & _ & Hno)].
  - destruct Hoc; by split.
  - destruct Hf' as (Hj & Hb' & Hoc' & Hk').
    pose proof Hwf as (_ & _ & _ & _ & Huniq).
    assert (i = j).
    { apply (Huniq i j key); try done.
      - by rewrite Hb.
      - by rewrite Hb'.
      - unfold hashmap.getHash. by rewrite Hb, Hb'.
      - unfold hashmap.getStoreIndex. by rewrite Hb.
      - unfold hashmap.getStoreIndex. by rewrite Hb'. }
    subst j. rewrite Hb in Hb'. by inversion Hb'; subst.
  - exfalso. by apply (Hno i off).
Qed.

End Search.

(** * Updating one bucket *)

Lemma setHash_table (h : hashmap.t) (j x : Z) :
  hashmap.table (hashmap.setHash h j x)
  = <[Z.to_nat j := (x, hashmap.getStoreIndex h j)]> (hashmap.table h).
Proof. reflexivity. Qed.

Lemma setStoreIndex_table (h : hashmap.t) (j x : Z) :
  hashmap.table (hashmap.setStoreIndex h j x)
  = <[Z.to_nat j := (hashmap.getHash h j, x)]> (hashmap.table h).
Proof. reflexivity. Qed.

Lemma bucket_insert (h : hashmap.t) (j i : Z) (b : Z * Z) :
  0 <= j < len (hashmap.table h) -> 0 <= i ->
  hashmap.bucket (hashmap.setTable h (<[Z.to_nat j := b]> (hashmap.table h))) i
  = if decide (i = j) then b else hashmap.bucket h i.
Proof.
  intros Hj Hi. unfold hashmap.bucket, hashmap.setTable. cbn [hashmap.table].
  destruct (decide (i = j)) as [->|Hne].
  - rewrite list_lookup_insert_eq; [done|]. unfold len in Hj. lia.
  - rewrite list_lookup_insert_ne; [done|]. lia.
Qed.

Lemma takeBucket_table (c : PMap) (j h off : Z) :
  0 <= j < len (hashmap.table (hm c)) ->
  hashmap.table (hm (takeBucket c j h off))
  = <[Z.to_nat j := (h, off)]> (hashmap.table (hm c)).
Proof.
  intros Hj. unfold takeBucket. cbn [hm withHm].
  rewrite setStoreIndex_table, setHash_table.
  rewrite list_insert_insert_eq. do 2 f_equal.
  unfold hashmap.getHash.
  change (hashmap.setHash (hm c) j h)
    with (hashmap.setTable (hm c)
            (<[Z.to_nat j := (h, hashmap.getStoreIndex (hm c) j)]> (hashmap.table (hm c)))).
  rewrite bucket_insert by lia. by rewrite decide_True.
Qed.

Lemma filter_insert_length {A} (P : A -> Prop) `{!forall x, Decision (P x)}
  (l : list A) (n : nat) (x y : A) :
  l !! n = Some x ->
  length (filter P (<[n := y]> l))
  = (length (filter P l) + (if decide (P y) then 1 else 0)
     - (if decide (P x) then 1 else 0))%nat.
Proof.
  intros Hn. pose proof (lookup_lt_Some _ _ _ Hn) as Hlt.
  rewrite insert_take_drop by done.
  assert (Hl : filter P l = filter P (take n l ++ x :: drop (S n) l))
    by (by rewrite take_drop_middle).
  rewrite Hl.
  rewrite !list.filter_app, !length_app, !filter_cons.
  destruct (decide (P y)), (decide (P x)); simpl; lia.
Qed.

Lemma elem_of_insert_inv {A} (l : list A) (n : nat) (x y : A) :
  y ∈ <[n := x]> l -> y = x \/ y ∈ l.
Proof.
  intros Hy. apply list_elem_of_lookup in Hy as (i & Hi).
  destruct (decide (i = n)) as [->|Hne].
  - destruct (decide (n < length l)%nat).
    + rewrite list_lookup_insert_eq in Hi by done. left. congruence.
    + rewrite list_insert_ge in Hi by lia. right. by eapply list_elem_of_lookup_2.
  - rewrite list_lookup_insert_ne in Hi by done. right. by eapply list_elem_of_lookup_2.
Qed.

Lemma takeBucket_bucket (c : PMap) (j h off i : Z) :
  table_ok (hm c) -> 0 <= j < capacity (hm c) -> 0 <= i ->
  hashmap.bucket (hm (takeBucket c j h off)) i
  = if decide (i = j) then (h, off) else hashmap.bucket (hm c) i.
Proof.
  intros Hok Hj Hi.
  pose proof Hok as (_ & _ & Hlen & _).
  unfold hashmap.bucket. rewrite takeBucket_table by lia.
  destruct (decide (i = j)) as [->|Hne].
  - rewrite list_lookup_insert_eq; [done|]. unfold len in Hlen. lia.
  - rewrite list_lookup_insert_ne; [done|]. lia.
Qed.

Lemma wf_withChecksum (c : PMap) (cs : syncChecksum.t) :
  wf c -> wf (withChecksum c cs).
Proof. intros H. exact H. Qed.

(** ** Filing a frame in a bucket *)

Section TakeBucket.

Context (c : PMap) (st' : store.t) (j h off : Z) (k v : list byte).
Hypothesis Hwf : wf c.
Hypothesis Hj : 0 <= j < capacity (hm c).
Hypothesis Hh : occupied (h, 0).
Hypothesis Hhr : 0 <= h < 2 ^ 32.
Hypothesis Hst' : store_ok st'.
Hypothesis Hpres : forall o k0 v0, frame_at (st c) o k0 v0 -> frame_at st' o k0 v0.
Hypothesis Hframe : frame_at st' off k v.
Hypothesis Hv : 8 <= len v.

Let c1 : PMap := takeBucket (withSt c st') j h off.

Lemma c1_bucket (i : Z) :
  0 <= i ->
  hashmap.bucket (hm c1) i = if decide (i = j) then (h, off) else hashmap.bucket (hm c) i.
Proof. intros Hi. unfold c1. rewrite takeBucket_bucket; try done. apply Hwf. Qed.

Lemma c1_key_stable (i : Z) :
  0 <= i < capacity (hm c) -> occupied (hashmap.bucket (hm c) i) ->
  store.key st' (hashmap.getStoreIndex (hm c) i)
  = store.key (st c) (hashmap.getStoreIndex (hm c) i).
Proof.
  intros Hi Hoc. pose proof Hwf as (_ & _ & Hst & Hlive & _).
  destruct (Hlive i Hi Hoc) as (k0 & v0 & Hf & _).
  rewrite (frame_key _ _ k0 v0 Hst Hf).
  by rewrite (frame_key _ _ k0 v0 Hst' (Hpres _ _ _ Hf)).
Qed.

Lemma c1_live_frames : live_frames c1.
Proof.
  intros i Hi Hoc. change (capacity (hm c1)) with (capacity (hm c)) in Hi.
  unfold hashmap.getStoreIndex. rewrite c1_bucket in * by lia.
  destruct (decide (i = j)) as [->|Hne].
  - exists k, v. split; done.
  - pose proof Hwf as (_ & _ & _ & Hlive & _).
    destruct (Hlive i Hi Hoc) as (k0 & v0 & Hf & Hv0).
    exists k0, v0. split; [|done]. by apply Hpres.
Qed.

Lemma c1_table_basic :
  0 <= hashmap.log2size (hm c1) <= 32 /\
  hashmap.sizeMask (hm c1) = capacity (hm c1) - 1 /\
  len (hashmap.table (hm c1)) = capacity (hm c1) /\
  hashmap.numKeysToExpand (hm c1) = capacity (hm c1) * 3 / 4 /\
  hashmap.sizeLimit (hm c1) <= 2 ^ 32 /\
  (forall b, b ∈ hashmap.table (hm c1) -> 0 <= fst b < 2 ^ 32).
Proof.
  pose proof Hwf as ((H1 & H2 & H3 & H4 & H5 & H6 & H7 & H8) & _).
  change (capacity (hm c1)) with (capacity (hm c)).
  split; [exact H1|]. split; [exact H2|]. split.
  { unfold c1. rewrite takeBucket_table by (cbn; lia).
    unfold len. rewrite length_insert. exact H3. }
  split; [exact H4|]. split; [exact H5|].
  intros b Hb. unfold c1 in Hb. rewrite takeBucket_table in Hb by (cbn; lia).
  apply elem_of_insert_inv in Hb as [->|Hb]; [done|]. by apply H8.
Qed.

Lemma c1_count :
  len (filter nonempty (hashmap.table (hm c1)))
  = len (filter nonempty (hashmap.table (hm c)))
    + (if decide (nonempty (hashmap.bucket (hm c) j)) then 0 else 1).
Proof.
  pose proof Hwf as (Hok & _). pose proof Hok as (_ & _ & Hlen & _).
  unfold c1. rewrite takeBucket_table by (cbn; lia). cbn [hm withSt].
  unfold len. rewrite (filter_insert_length _ _ _ _ _ (bucket_lookup _ Hok j Hj)).
  rewrite decide_True by (destruct Hh as (Hh1 & _); exact Hh1).
  destruct (decide (nonempty (hashmap.bucket (hm c) j))) as [Hne|He]; [|lia].
  assert (0 < length (filter nonempty (hashmap.table (hm c))))%nat; [|lia].
  assert (Hin : hashmap.bucket (hm c) j ∈ filter nonempty (hashmap.table (hm c))).
  { apply list_elem_of_filter. split; [done|]. by apply bucket_elem. }
  destruct (filter nonempty (hashmap.table (hm c))); [by apply elem_of_nil in Hin|].
  simpl. lia.
Qed.

(** The new frame goes into an empty bucket at the end of the probe. *)
Lemma wf_insert :
  hashmap.getHash (hm c) j = hashmap.emptyBucket ->
  (forall d, 0 <= d < (j - h) mod capacity (hm c) ->
     hashmap.getHash (hm c) ((h + d) mod capacity (hm c)) <> hashmap.emptyBucket) ->
  (forall i o, ~ filed c h k i o) ->
  hashmap.numStoredKeys (hm c) < hashmap.numKeysToExpand (hm c) ->
  wf (withHm c1 (hashmap.incStoredKeys (hm c1))).
Proof.
  intros He Hpath Hno Hroom.
  pose proof Hwf as (Hok & Hpaths & Hst & Hlive & Huniq).
  pose proof (capacity_pos _ Hok) as Hpos.
  pose proof c1_table_basic as (B1 & B2 & B3 & B4 & B5 & B6).
  assert (Hbk : forall i, 0 <= i ->
            hashmap.bucket (hm (withHm c1 (hashmap.incStoredKeys (hm c1)))) i
            = if decide (i = j) then (h, off) else hashmap.bucket (hm c) i).
  { intros i Hi. rewrite <- c1_bucket by done. reflexivity. }
  assert (Hgh : forall i, 0 <= i ->
            hashmap.getHash (hm c) i <> hashmap.emptyBucket ->
            hashmap.getHash (hm (withHm c1 (hashmap.incStoredKeys (hm c1)))) i
              <> hashmap.emptyBucket).
  { intros i Hi Hne. unfold hashmap.getHash. rewrite Hbk by done.
    destruct (decide (i = j)); [apply Hh|done]. }
  split; [|split; [|split; [|split]]].
  - split; [exact B1|]. split; [exact B2|]. split; [exact B3|]. split; [exact B4|].
    split; [exact B5|]. split; [|split; [|exact B6]].
    + change (hashmap.table (hm (withHm c1 (hashmap.incStoredKeys (hm c1)))))
        with (hashmap.table (hm c1)).
      rewrite c1_count. rewrite decide_False by (unfold nonempty, hashmap.getHash in *; tauto).
      cbn. pose proof Hok as (_ & _ & _ & _ & _ & Hc & _). lia.
    + cbn. lia.
  - intros i Hi Hoc d Hd.
    change (capacity (hm (withHm c1 (hashmap.incStoredKeys (hm c1)))))
      with (capacity (hm c)) in *.
    apply Hgh; [apply Z.mod_pos_bound, Hpos|].
    unfold hashmap.getHash in Hd |- *. rewrite Hbk in Hoc, Hd |- * by lia.
    destruct (decide (i = j)) as [->|Hne].
    + simpl in Hd |- *. by apply Hpath.
    + by apply Hpaths.
  - exact Hst'.
  - exact c1_live_frames.
  - intros i1 i2 k0 Hi1 Hi2 Ho1 Ho2 Hhash Hk1 Hk2.
    change (capacity (hm (withHm c1 (hashmap.incStoredKeys (hm c1)))))
      with (capacity (hm c)) in *.
    change (st (withHm c1 (hashmap.incStoredKeys (hm c1)))) with st' in *.
    unfold hashmap.getHash, hashmap.getStoreIndex in Hhash, Hk1, Hk2.
    rewrite (Hbk i1) in Ho1, Hhash, Hk1 by lia.
    rewrite (Hbk i2) in Ho2, Hhash, Hk2 by lia.
    assert (Hcase : forall i, 0 <= i < capacity (hm c) -> i <> j ->
              occupied (hashmap.bucket (hm c) i) ->
              fst (hashmap.bucket (hm c) i) = h ->
              store.key st' (snd (hashmap.bucket (hm c) i)) = Ret k0 ->
              store.key st' off = Ret k0 -> False).
    { intros i Hi Hne Hoc Hhi Hki Hkj.
      rewrite (frame_key _ _ k v Hst' Hframe) in Hkj. inversion Hkj; subst k0.
      apply (Hno i (snd (hashmap.bucket (hm c) i))).
      split; [done|]. split; [by rewrite <- Hhi; destruct (hashmap.bucket (hm c) i)|].
      split; [split; rewrite <- Hhi; apply Hoc|].
      rewrite <- Hki. symmetry. by apply c1_key_stable. }
    destruct (decide (i1 = j)) as [->|Hn1], (decide (i2 = j)) as [->|Hn2]; try done.
    + exfalso. cbn [fst snd] in *. by apply (Hcase i2).
    + exfalso. cbn [fst snd] in *. by apply (Hcase i1).
    + apply (Huniq i1 i2 k0); try done.
      * rewrite <- Hk1. symmetry. by apply c1_key_stable.
      * rewrite <- Hk2. symmetry. by apply c1_key_stable.
Qed.

(** The new frame replaces the one the bucket referred to, for the same key. *)
Lemma wf_overwrite (off0 : Z) :
  filed c h k j off0 -> wf c1.
Proof.
  intros (_ & Hb & Hoc & Hk0).
  pose proof Hwf as (Hok & Hpaths & Hst & Hlive & Huniq).
  pose proof (capacity_pos _ Hok) as Hpos.
  pose proof c1_table_basic as (B1 & B2 & B3 & B4 & B5 & B6).
  assert (Hgh : forall i, 0 <= i ->
            hashmap.getHash (hm c1) i = hashmap.getHash (hm c) i).
  { intros i Hi. unfold hashmap.getHash. rewrite c1_bucket by done.
    destruct (decide (i = j)) as [->|]; [by rewrite Hb|done]. }
  assert (Hocc : forall i, 0 <= i ->
            occupied (hashmap.bucket (hm c1) i) -> occupied (hashmap.bucket (hm c) i)).
  { intros i Hi. unfold occupied. fold (hashmap.getHash (hm c1) i).
    fold (hashmap.getHash (hm c) i). by rewrite Hgh. }
  split; [|split; [|split; [|split]]].
  - split; [exact B1|]. split; [exact B2|]. split; [exact B3|]. split; [exact B4|].
    split; [exact B5|]. split; [|split; [|exact B6]].
    + rewrite c1_count. rewrite decide_True by (rewrite Hb; apply Hoc).
      pose proof Hok as (_ & _ & _ & _ & _ & Hc & _). change (hashmap.numStoredKeys (hm c1))
        with (hashmap.numStoredKeys (hm c)). lia.
    + apply Hok.
  - intros i Hi Hoc1 d Hd. change (capacity (hm c1)) with (capacity (hm c)) in *.
    rewrite !Hgh in * by (try lia; apply Z.mod_pos_bound, Hpos).
    apply Hpaths; try done. apply Hocc; [lia|done].
  - exact Hst'.
  - exact c1_live_frames.
  - intros i1 i2 k0 Hi1 Hi2 Ho1 Ho2 Hhash Hk1 Hk2.
    change (capacity (hm c1)) with (capacity (hm c)) in *.
    change (st c1) with st' in *.
    rewrite !Hgh in Hhash by lia.
    apply Hocc in Ho1; [|lia]. apply Hocc in Ho2; [|lia].
    assert (Hkey : forall i, 0 <= i < capacity (hm c) ->
              occupied (hashmap.bucket (hm c) i) ->
              store.key st' (hashmap.getStoreIndex (hm c1) i) = Ret k0 ->
              (i = j -> k0 = k) /\
              (i <> j -> store.key (st c) (hashmap.getStoreIndex (hm c) i) = Ret k0)).
    { intros i Hi Ho Hki. unfold hashmap.getStoreIndex in Hki.
      rewrite c1_bucket in Hki by lia.
      destruct (decide (i = j)) as [->|Hne].
      - simpl in Hki. rewrite (frame_key _ _ k v Hst' Hframe) in Hki.
        split; [intros _; congruence|done].
      - split; [done|]. intros _. rewrite <- Hki. symmetry. by apply c1_key_stable. }
    assert (Hkj : store.key (st c) (hashmap.getStoreIndex (hm c) j) = Ret k).
    { unfold hashmap.getStoreIndex. by rewrite Hb. }
    destruct (Hkey i1 Hi1 Ho1 Hk1) as (Ha1 & Hb1).
    destruct (Hkey i2 Hi2 Ho2 Hk2) as (Ha2 & Hb2).
    destruct (decide (i1 = j)) as [E1|N1], (decide (i2 = j)) as [E2|N2]; try congruence.
    + specialize (Ha1 E1). subst k0 i1. symmetry.
      apply (Huniq i2 j k); try done. by apply Hb2.
    + specialize (Ha2 E2). subst k0 i2.
      apply (Huniq i1 j k); try done. by apply Hb1.
    + apply (Huniq i1 i2 k0); try done; [by apply Hb1|by apply Hb2].
Qed.

End TakeBucket.

(** * Expansion of the table *)

Lemma put_bucket_table (t : hashmap.t) (idx : Z) (b : Z * Z) :
  0 <= idx < len (hashmap.table t) ->
  hashmap.table (put_bucket t idx b) = <[Z.to_nat idx := b]> (hashmap.table t).
Proof.
  intros Hi.
  pose proof (takeBucket_table (Build_PMap t (store.newStore "" 0) syncChecksum.zero "")
                idx (fst b) (snd b) Hi) as H.
  cbn [hm] in H. unfold takeBucket in H. cbn [hm withHm] in H.
  unfold put_bucket. rewrite H. by destruct b.
Qed.

Lemma put_bucket_bucket (t : hashmap.t) (idx i : Z) (b : Z * Z) :
  0 <= idx < len (hashmap.table t) -> 0 <= i ->
  hashmap.bucket (put_bucket t idx b) i
  = if decide (i = idx) then b else hashmap.bucket t i.
Proof.
  intros Hidx Hi. unfold hashmap.bucket. rewrite put_bucket_table by done.
  destruct (decide (i = idx)) as [->|Hne].
  - rewrite list_lookup_insert_eq; [done|]. unfold len in Hidx. lia.
  - rewrite list_lookup_insert_ne; [done|]. lia.
Qed.

Lemma firstEmpty_found (t : hashmap.t) (d : nat) : forall (i : Z) (n : nat),
  table_ok t -> first_empty_at t i d -> (d < n)%nat ->
  hashmap.firstEmpty t (i mod capacity t) n = Ret ((i + Z.of_nat d) mod capacity t).
Proof.
  induction d as [|d IH]; intros i n Hok (He & Hb) Hn.
  - destruct n as [|n]; [lia|]. cbn [hashmap.firstEmpty].
    rewrite Z.add_0_r in *. rewrite He. by rewrite Z.eqb_refl.
  - destruct n as [|n]; [lia|]. cbn [hashmap.firstEmpty].
    pose proof (Hb 0%nat ltac:(lia)) as H0. rewrite Z.add_0_r in H0.
    destruct (hashmap.getHash t (i mod capacity t) =? hashmap.emptyBucket) eqn:E; [lia|].
    rewrite (next_mod _ Hok). rewrite Zplus_mod_idemp_l.
    rewrite (IH (i + 1) n Hok).
    + f_equal. f_equal. lia.
    + split.
      * replace (i + 1 + Z.of_nat d) with (i + Z.of_nat (S d)) by lia. done.
      * intros e He'. replace (i + 1 + Z.of_nat e) with (i + Z.of_nat (S e)) by lia.
        apply Hb. lia.
    + lia.
Qed.

(** Filling an empty bucket at the end of the probe path of its hash keeps
    every probe path free of empty buckets. *)
Lemma paths_insert (t : hashmap.t) (idx : Z) (b : Z * Z) :
  table_ok t -> paths_ok t ->
  0 <= idx < capacity t ->
  occupied b ->
  (forall d, 0 <= d < (idx - fst b) mod capacity t ->
     hashmap.getHash t ((fst b + d) mod capacity t) <> hashmap.emptyBucket) ->
  paths_ok (put_bucket t idx b).
Proof.
  intros Hok Hpaths Hidx Hocc Hpath i Hi Hoi d Hd.
  pose proof (capacity_pos _ Hok) as Hpos.
  pose proof Hok as (_ & _ & Hlen & _).
  change (capacity (put_bucket t idx b)) with (capacity t) in *.
  assert (Hnew : forall p, 0 <= p ->
            hashmap.getHash t p <> hashmap.emptyBucket ->
            hashmap.getHash (put_bucket t idx b) p <> hashmap.emptyBucket).
  { intros p Hp Hne. unfold hashmap.getHash. rewrite put_bucket_bucket by lia.
    destruct (decide (p = idx)); [apply Hocc|exact Hne]. }
  unfold hashmap.getHash in Hd |- * at 2. rewrite (put_bucket_bucket t idx i) in Hoi, Hd |- * by lia.
  apply Hnew; [apply Z.mod_pos_bound, Hpos|].
  destruct (decide (i = idx)) as [->|Hne].
  - by apply Hpath.
  - by apply Hpaths.
Qed.

Lemma filter_insert_perm {A} (P : A -> Prop) `{!forall x, Decision (P x)}
  (l : list A) (n : nat) (x y : A) :
  l !! n = Some x -> ~ P x -> P y ->
  filter P (<[n := y]> l) ≡ₚ y :: filter P l.
Proof.
  intros Hn Hx Hy. pose proof (lookup_lt_Some _ _ _ Hn) as Hlt.
  rewrite insert_take_drop by done.
  assert (Hl : filter P l = filter P (take n l ++ x :: drop (S n) l))
    by (by rewrite take_drop_middle).
  rewrite Hl, !list.filter_app.
  rewrite (filter_cons_True P y) by done. rewrite (filter_cons_False P x) by done.
  by rewrite Permutation_middle.
Qed.

Lemma filter_repeat_empty {A} (P : A -> Prop) `{!forall x, Decision (P x)} (x : A) (n : nat) :
  ~ P x -> filter P (repeat x n) = [].
Proof.
  intros Hx. induction n as [|n IH]; [done|]. simpl. by rewrite filter_cons_False.
Qed.

Lemma newHashMap_bucket (L limit i : Z) :
  hashmap.bucket (hashmap.newHashMap L limit) i = (hashmap.emptyBucket, 0).
Proof.
  unfold hashmap.bucket, hashmap.newHashMap. cbn [hashmap.table].
  destruct (repeat (hashmap.emptyBucket, 0) (Z.to_nat (2 ^ L)) !! Z.to_nat i) as [b|] eqn:E;
    [|done].
  apply list_elem_of_lookup_2, list_elem_of_In, repeat_spec in E. by subst.
Qed.

Lemma newHashMap_ok (L limit : Z) :
  0 <= L <= 32 -> limit <= 2 ^ 32 ->
  table_ok (hashmap.newHashMap L limit) /\ paths_ok (hashmap.newHashMap L limit).
Proof.
  intros HL Hlim.
  assert (Hpos : 0 < 2 ^ L) by (apply Z.pow_pos_nonneg; lia).
  split.
  - unfold table_ok, capacity. cbn.
    split; [done|]. split; [done|]. split.
    { unfold len. rewrite repeat_length. lia. }
    split; [done|]. split; [done|].
    rewrite filter_repeat_empty by (unfold nonempty; simpl; tauto).
    split; [unfold len; simpl; lia|]. split.
    { apply Z.div_pos; lia. }
    intros b Hb. apply list_elem_of_In, repeat_spec in Hb. subst b. simpl.
    unfold hashmap.emptyBucket. lia.
  - intros i Hi Hoc. rewrite newHashMap_bucket in Hoc. by destruct Hoc.
Qed.

Lemma expanding_start (old : hashmap.t) :
  table_ok old ->
  2 ^ (hashmap.log2size old + 1) <= hashmap.sizeLimit old ->
  expanding old (hashmap.newHashMap (hashmap.log2size old + 1) (hashmap.sizeLimit old)) [].
Proof.
  intros Hok Hlim.
  pose proof Hok as (HL & _ & _ & _ & Hl32 & _).
  assert (HL' : 0 <= hashmap.log2size old + 1 <= 32).
  { split; [lia|]. apply (Z.pow_le_mono_r_iff 2); lia. }
  destruct (newHashMap_ok (hashmap.log2size old + 1) (hashmap.sizeLimit old) HL' Hl32)
    as (H1 & H2).
  split; [done|]. split; [done|]. split; [done|]. split; [done|].
  cbn [hashmap.numStoredKeys hashmap.newHashMap hashmap.table].
  rewrite filter_repeat_empty by (unfold nonempty; simpl; tauto).
  rewrite filter_repeat_empty by (unfold occupied; simpl; tauto).
  split; [done|]. split; [done|]. split; [|done].
  intros b Hb Hne. apply list_elem_of_In, repeat_spec in Hb. subst b.
  by destruct Hne.
Qed.

Lemma expanding_step (old nh : hashmap.t) (p : list (Z * Z)) (b : Z * Z) :
  table_ok old ->
  expanding old nh p ->
  0 <= fst b < 2 ^ 32 ->
  len (filter occupied (p ++ [b])) <= hashmap.numKeysToExpand old ->
  exists nh', hashmap.reinsert nh b = Ret nh' /\ expanding old nh' (p ++ [b]).
Proof.
  intros Hold (Hok & Hpaths & HL & Hlim & Hn & Hcount & Hnd & Hperm) Hb Hbound.
  unfold hashmap.reinsert.
  destruct (decide (occupied b)) as [Hocc|Hnocc].
  - destruct Hocc as (Ho1 & Ho2).
    destruct (fst b =? hashmap.emptyBucket) eqn:E1; [lia|].
    destruct (fst b =? hashmap.deletedBucket) eqn:E2; [lia|]. cbn [orb].
    pose proof (capacity_pos _ Hok) as Hpos.
    destruct (first_empty_exists _ Hok (fst b)) as (d & Hd & Hfe).
    rewrite (land_mask _ Hok), (fuel_capacity _ Hok).
    rewrite (firstEmpty_found nh d (fst b) _ Hok Hfe Hd). cbn [rbind].
    eexists. split; [reflexivity|].
    set (idx := (fst b + Z.of_nat d) mod capacity nh).
    assert (Hidx : 0 <= idx < capacity nh) by apply Z.mod_pos_bound, Hpos.
    pose proof Hok as (T1 & T2 & T3 & T4 & T5 & T6 & T7 & T8).
    pose proof Hold as (O1 & O2 & O3 & O4 & O5 & O6 & O7 & O8).
    destruct Hfe as (Hfe1 & Hfe2). fold idx in Hfe1.
    assert (Hlk : hashmap.table nh !! Z.to_nat idx = Some (hashmap.bucket nh idx))
      by (by apply bucket_lookup).
    assert (Hnx : ~ nonempty (hashmap.bucket nh idx)).
    { unfold nonempty. fold (hashmap.getHash nh idx). lia. }
    assert (Hnox : ~ occupied (hashmap.bucket nh idx)).
    { intros (Hx & _). by apply Hnx. }
    assert (Hfo : filter occupied (p ++ [b]) = filter occupied p ++ [b]).
    { rewrite list.filter_app. f_equal. by rewrite filter_cons_True. }
    change (hashmap.setStoreIndex (hashmap.setHash nh idx (fst b)) idx (snd b))
      with (put_bucket nh idx b).
    assert (Htb : hashmap.table (hashmap.incStoredKeys (put_bucket nh idx b))
                  = <[Z.to_nat idx := b]> (hashmap.table nh)).
    { change (hashmap.table (hashmap.incStoredKeys (put_bucket nh idx b)))
        with (hashmap.table (put_bucket nh idx b)). apply put_bucket_table. lia. }
    assert (Hcnt : len (filter nonempty (<[Z.to_nat idx := b]> (hashmap.table nh)))
                   = len (filter nonempty (hashmap.table nh)) + 1).
    { unfold len. rewrite (filter_insert_length _ _ _ _ _ Hlk).
      rewrite decide_True by done. rewrite decide_False by done. lia. }
    assert (Hnk : len (filter occupied (p ++ [b])) = hashmap.numStoredKeys nh + 1).
    { rewrite Hfo, len_app, Hn. unfold len. simpl. lia. }
    split; [|split; [|split; [|split; [|split; [|split; [|split]]]]]].
    + split; [exact T1|]. split; [exact T2|]. split.
      { rewrite Htb. unfold len. rewrite length_insert. exact T3. }
      split; [exact T4|]. split; [exact T5|]. split.
      { rewrite Htb, Hcnt. cbn. lia. }
      split.
      { cbn [hashmap.numStoredKeys hashmap.incStoredKeys hashmap.numKeysToExpand].
        change (hashmap.numStoredKeys (put_bucket nh idx b)) with (hashmap.numStoredKeys nh).
        change (hashmap.numKeysToExpand (put_bucket nh idx b))
          with (hashmap.numKeysToExpand nh).
        rewrite T4. unfold capacity. rewrite HL.
        rewrite O4 in Hbound. unfold capacity in Hbound.
        rewrite Z.pow_add_r by lia.
        assert (0 < 2 ^ hashmap.log2size old) by (apply Z.pow_pos_nonneg; lia).
        assert (2 ^ hashmap.log2size old * 3 / 4 <= 2 ^ hashmap.log2size old * 2 ^ 1 * 3 / 4).
        { apply Z.div_le_mono; lia. }
        lia. }
      rewrite Htb. intros x Hx. apply elem_of_insert_inv in Hx as [->|Hx]; [done|].
      by apply T8.
    + apply (paths_insert nh idx b Hok Hpaths Hidx ltac:(by split)).
      intros dd Hdd. unfold idx in Hdd. rewrite mod_dist in Hdd by lia.
      specialize (Hfe2 (Z.to_nat dd) ltac:(lia)). by rewrite Z2Nat.id in Hfe2 by lia.
    + exact HL.
    + exact Hlim.
    + cbn. lia.
    + rewrite Htb, Hcnt. cbn. lia.
    + rewrite Htb. intros x Hx Hne. apply elem_of_insert_inv in Hx as [->|Hx]; [by split|].
      by apply Hnd.
    + rewrite Htb, Hfo. rewrite filter_insert_perm by (try done; by split).
      rewrite Hperm. by rewrite <- Permutation_cons_append.
  - assert (E : (fst b =? hashmap.emptyBucket) || (fst b =? hashmap.deletedBucket) = true).
    { unfold occupied in Hnocc.
      destruct (fst b =? hashmap.emptyBucket) eqn:E1; [done|].
      destruct (fst b =? hashmap.deletedBucket) eqn:E2; [done|]. exfalso. apply Hnocc. lia. }
    rewrite E. eexists. split; [reflexivity|].
    assert (Hfo : filter occupied (p ++ [b]) = filter occupied p).
    { rewrite list.filter_app, filter_cons_False by done. simpl. by rewrite app_nil_r. }
    unfold expanding. rewrite Hfo.
    exact (conj Hok (conj Hpaths (conj HL (conj Hlim (conj Hn (conj Hcount (conj Hnd Hperm))))))).
Qed.

Lemma filter_prefix_length {A} (P : A -> Prop) `{!forall x, Decision (P x)} (p r : list A) :
  len (filter P p) <= len (filter P (p ++ r)).
Proof. rewrite list.filter_app, len_app. pose proof (len_nonneg (filter P r)). lia. Qed.

Lemma filter_occupied_nonempty (l : list (Z * Z)) :
  len (filter occupied l) <= len (filter nonempty l).
Proof.
  induction l as [|b l IH]; [done|].
  rewrite !filter_cons.
  destruct (decide (occupied b)) as [Ho|Hn], (decide (nonempty b)) as [Hn'|He];
    unfold len in *; simpl; try lia.
  exfalso. apply He. apply Ho.
Qed.

Lemma expanding_loop (old : hashmap.t) (rest : list (Z * Z)) :
  table_ok old ->
  forall p nh, p ++ rest = hashmap.table old ->
  expanding old nh p ->
  exists nh',
    fold_left (fun acc b => h <~ acc ;; hashmap.reinsert h b) rest (Ret nh) = Ret nh' /\
    expanding old nh' (hashmap.table old).
Proof.
  intros Hold. induction rest as [|b rest IH]; intros p nh Hp Hinv.
  - rewrite app_nil_r in Hp. subst p. by exists nh.
  - cbn [fold_left rbind].
    assert (Hp' : (p ++ [b]) ++ rest = hashmap.table old) by (by rewrite <- app_assoc).
    destruct (expanding_step old nh p b Hold Hinv) as (nh' & Hre & Hinv').
    + pose proof Hold as (_ & _ & _ & _ & _ & _ & _ & Hr). apply Hr.
      rewrite <- Hp. apply elem_of_app. right. apply list_elem_of_here.
    + pose proof Hold as (_ & _ & _ & _ & _ & Hc1 & Hc2 & _).
      pose proof (filter_prefix_length occupied (p ++ [b]) rest) as H1.
      rewrite Hp' in H1.
      pose proof (filter_occupied_nonempty (hashmap.table old)). lia.
    + rewrite Hre. by apply (IH (p ++ [b])).
Qed.

Lemma expand_too_large (t : hashmap.t) :
  hashmap.sizeLimit t < 2 ^ (hashmap.log2size t + 1) ->
  hashmap.expand t = Ret (t, Some ErrTableTooLarge).
Proof.
  intros H. unfold hashmap.expand.
  destruct (2 ^ (hashmap.log2size t + 1) >? hashmap.sizeLimit t) eqn:E; [done|lia].
Qed.

Lemma expand_ok (t : hashmap.t) :
  table_ok t ->
  2 ^ (hashmap.log2size t + 1) <= hashmap.sizeLimit t ->
  exists nh, hashmap.expand t = Ret (nh, None) /\ expanding t nh (hashmap.table t).
Proof.
  intros Hok Hlim. unfold hashmap.expand.
  destruct (2 ^ (hashmap.log2size t + 1) >? hashmap.sizeLimit t) eqn:E; [lia|].
  destruct (expanding_loop t (hashmap.table t) Hok [] _ eq_refl (expanding_start t Hok Hlim))
    as (nh & Hf & Hinv).
  exists nh. rewrite Hf. by split.
Qed.

(** ** The expanded map *)

Lemma NoDup_filter_lookup {A} (P : A -> Prop) `{!forall x, Decision (P x)} (l : list A) :
  (forall i j x, P x -> l !! i = Some x -> l !! j = Some x -> i = j) ->
  NoDup (filter P l).
Proof.
  induction l as [|a l IH]; intros Hinj; [by rewrite filter_nil; constructor|].
  assert (Hl : NoDup (filter P l)).
  { apply IH. intros i j x Hx Hi Hj.
    assert (S i = S j) by (by apply (Hinj (S i) (S j) x)). lia. }
  rewrite filter_cons. destruct (decide (P a)) as [Ha|Ha]; [|done].
  constructor; [|done]. intros Hin. apply list_elem_of_filter in Hin as (_ & Hin).
  apply list_elem_of_lookup in Hin as (i & Hi).
  assert (0%nat = S i) by (by apply (Hinj 0%nat (S i) a)). lia.
Qed.

Lemma lookup_filter_NoDup {A} (P : A -> Prop) `{!forall x, Decision (P x)} (l : list A) :
  NoDup (filter P l) ->
  forall i j x, P x -> l !! i = Some x -> l !! j = Some x -> i = j.
Proof.
  induction l as [|a l IH]; intros Hnd i j x Hx Hi Hj; [by rewrite lookup_nil in Hi|].
  rewrite filter_cons in Hnd.
  assert (Hnd' : NoDup (filter P l)).
  { destruct (decide (P a)); [by inversion Hnd|done]. }
  assert (Hfresh : P a -> a ∈ l -> False).
  { intros Ha Hin. rewrite decide_True in Hnd by done. inversion Hnd as [|? ? Hn _]; subst.
    apply Hn. apply list_elem_of_filter. by split. }
  destruct i as [|i], j as [|j]; simpl in Hi, Hj; try done.
  - inversion Hi; subst. exfalso. apply Hfresh; [done|]. by eapply list_elem_of_lookup_2.
  - inversion Hj; subst. exfalso. apply Hfresh; [done|]. by eapply list_elem_of_lookup_2.
  - f_equal. by apply (IH Hnd' i j x).
Qed.

Section Expanded.

Context (c : PMap) (nh : hashmap.t).
Hypothesis Hwf : wf c.
Hypothesis Hexp : expanding (hm c) nh (hashmap.table (hm c)).

Lemma expanded_bucket_old (b : Z * Z) :
  occupied b ->
  (b ∈ hashmap.table nh <-> b ∈ hashmap.table (hm c)).
Proof.
  intros Hb. destruct Hexp as (_ & _ & _ & _ & _ & _ & _ & Hperm).
  split; intros Hin.
  - assert (b ∈ filter occupied (hashmap.table nh)) as Hf by (by apply list_elem_of_filter).
    rewrite Hperm in Hf. by apply list_elem_of_filter in Hf as (_ & Hf).
  - assert (b ∈ filter occupied (hashmap.table (hm c))) as Hf by (by apply list_elem_of_filter).
    rewrite <- Hperm in Hf. by apply list_elem_of_filter in Hf as (_ & Hf).
Qed.

Lemma old_bucket_index (b : Z * Z) :
  b ∈ hashmap.table (hm c) ->
  exists i, 0 <= i < capacity (hm c) /\ hashmap.bucket (hm c) i = b.
Proof.
  intros Hin. apply list_elem_of_lookup in Hin as (n & Hn).
  pose proof (lookup_lt_Some _ _ _ Hn) as Hlt.
  pose proof Hwf as ((_ & _ & Hlen & _) & _). unfold len in Hlen.
  exists (Z.of_nat n). split; [lia|].
  unfold hashmap.bucket. by rewrite Nat2Z.id, Hn.
Qed.

Lemma old_occupied_NoDup : NoDup (filter occupied (hashmap.table (hm c))).
Proof.
  apply NoDup_filter_lookup. intros i j b Hb Hi Hj.
  pose proof Hwf as ((_ & _ & Hlen & _) & _ & Hst & Hlive & Huniq). unfold len in Hlen.
  pose proof (lookup_lt_Some _ _ _ Hi). pose proof (lookup_lt_Some _ _ _ Hj).
  assert (Hbi : hashmap.bucket (hm c) (Z.of_nat i) = b)
    by (unfold hashmap.bucket; by rewrite Nat2Z.id, Hi).
  assert (Hbj : hashmap.bucket (hm c) (Z.of_nat j) = b)
    by (unfold hashmap.bucket; by rewrite Nat2Z.id, Hj).
  destruct (Hlive (Z.of_nat i)) as (k & v & Hf & _); [lia|by rewrite Hbi|].
  assert (Z.of_nat i = Z.of_nat j); [|lia].
  apply (Huniq _ _ k); try lia.
  - by rewrite Hbi.
  - by rewrite Hbj.
  - unfold hashmap.getHash. by rewrite Hbi, Hbj.
  - by apply (frame_key _ _ k v).
  - unfold hashmap.getStoreIndex in *. rewrite Hbj, <- Hbi. by apply (frame_key _ _ k v).
Qed.

Lemma wf_expanded : wf (withHm c nh).
Proof.
  pose proof Hwf as (Hok & Hpaths & Hst & Hlive & Huniq).
  pose proof Hexp as (Hok' & Hpaths' & HL & Hlim & Hn & Hcount & Hnd & Hperm).
  split; [exact Hok'|]. split; [exact Hpaths'|]. split; [exact Hst|].
  assert (Hold : forall i, 0 <= i < capacity nh -> occupied (hashmap.bucket nh i) ->
            exists i0, 0 <= i0 < capacity (hm c) /\
              hashmap.bucket (hm c) i0 = hashmap.bucket nh i).
  { intros i Hi Hoc. apply old_bucket_index. apply expanded_bucket_old; [done|].
    by apply bucket_elem. }
  split.
  - intros i Hi Hoc. cbn [hm withHm st] in *.
    destruct (Hold i Hi Hoc) as (i0 & Hi0 & Hb0).
    destruct (Hlive i0 Hi0) as (k & v & Hf & Hv); [by rewrite Hb0|].
    exists k, v. unfold hashmap.getStoreIndex in *. rewrite <- Hb0. by split.
  - intros i j k Hi Hj Hoi Hoj Hh Hki Hkj. cbn [hm withHm st] in *.
    destruct (Hold i Hi Hoi) as (i0 & Hi0 & Hbi).
    destruct (Hold j Hj Hoj) as (j0 & Hj0 & Hbj).
    assert (i0 = j0).
    { apply (Huniq i0 j0 k); try done.
      - by rewrite Hbi.
      - by rewrite Hbj.
      - unfold hashmap.getHash in *. by rewrite Hbi, Hbj.
      - unfold hashmap.getStoreIndex in *. by rewrite Hbi.
      - unfold hashmap.getStoreIndex in *. by rewrite Hbj. }
    subst j0. rewrite Hbi in Hbj.
    assert (Hnd' : NoDup (filter occupied (hashmap.table nh))).
    { rewrite Hperm. apply old_occupied_NoDup. }
    assert (Z.to_nat i = Z.to_nat j); [|lia].
    apply (lookup_filter_NoDup occupied _ Hnd' _ _ (hashmap.bucket nh i)); [done| |].
    + by apply bucket_lookup.
    + rewrite Hbj. by apply bucket_lookup.
Qed.

Lemma expanded_room :
  hashmap.numStoredKeys nh < hashmap.numKeysToExpand nh.
Proof.
  pose proof Hwf as (Hok & _).
  pose proof Hok as (O1 & O2 & O3 & O4 & O5 & O6 & O7 & O8).
  pose proof Hexp as (Hok' & _ & HL & _ & Hn & _).
  pose proof Hok' as (T1 & T2 & T3 & T4 & _).
  pose proof (filter_occupied_nonempty (hashmap.table (hm c))).
  rewrite Hn, T4. unfold capacity in *. rewrite HL, Z.pow_add_r by lia.
  assert (0 < 2 ^ hashmap.log2size (hm c)) by (apply Z.pow_pos_nonneg; lia).
  assert (2 ^ hashmap.log2size (hm c) * 3 / 4 < 2 ^ hashmap.log2size (hm c) * 2 ^ 1 * 3 / 4).
  { change (2 ^ 1) with 2.
    pose proof (Z.div_mod (2 ^ hashmap.log2size (hm c) * 3) 4 ltac:(lia)).
    pose proof (Z.mod_pos_bound (2 ^ hashmap.log2size (hm c) * 3) 4 ltac:(lia)).
    apply Z.div_lt_upper_bound; [lia|].
    pose proof (Z.div_mod (2 ^ hashmap.log2size (hm c) * 2 * 3) 4 ltac:(lia)).
    pose proof (Z.mod_pos_bound (2 ^ hashmap.log2size (hm c) * 2 * 3) 4 ltac:(lia)).
    lia. }
  lia.
Qed.

Lemma filed_expanded (h : Z) (key : list byte) (i off : Z) :
  filed c h key i off -> exists i', filed (withHm c nh) h key i' off.
Proof.
  intros (Hi & Hb & Hoc & Hk).
  pose proof Hwf as (Hok & _). pose proof Hexp as (Hok' & _).
  assert (Hin : (h, off) ∈ hashmap.table nh).
  { apply expanded_bucket_old; [done|]. rewrite <- Hb. by apply bucket_elem. }
  apply list_elem_of_lookup in Hin as (n & Hn).
  pose proof (lookup_lt_Some _ _ _ Hn) as Hlt.
  pose proof Hok' as (_ & _ & Hlen & _). unfold len in Hlen.
  exists (Z.of_nat n). split; [cbn; lia|]. split; [|split; done].
  cbn [hm withHm]. unfold hashmap.bucket. by rewrite Nat2Z.id, Hn.
Qed.

Lemma filed_expanded_inv (h : Z) (key : list byte) (i off : Z) :
  filed (withHm c nh) h key i off -> exists i', filed c h key i' off.
Proof.
  intros (Hi & Hb & Hoc & Hk). cbn [hm withHm st] in *.
  pose proof Hexp as (Hok' & _).
  destruct (old_bucket_index (h, off)) as (i0 & Hi0 & Hb0).
  { apply expanded_bucket_old; [done|]. rewrite <- Hb. by apply bucket_elem. }
  exists i0. split; [done|]. split; [done|]. split; done.
Qed.

End Expanded.

Lemma Uint64_prefix_elems (s : slice) :
  8 <= len (elems s) -> Uint64_prefix s = Ret (stamp (elems s)).
Proof.
  intros H. unfold Uint64_prefix, upto8.
  rewrite len_app. pose proof (len_nonneg (spare s)).
  destruct (8 <=? len (elems s) + len (spare s)) eqn:E; [|lia].
  cbn [rbind]. unfold stamp. rewrite take_app_le; [done|]. unfold len in H. lia.
Qed.

Lemma Uint64_prefix_short (v : list byte) :
  len v < 8 -> Uint64_prefix (tight v) = Panics.
Proof.
  intros H. unfold Uint64_prefix, upto8, tight. cbn [elems spare].
  rewrite app_nil_r. destruct (8 <=? len v) eqn:E; [lia|done].
Qed.

Lemma filing_range (h64 : Z) : 0 <= filing h64 < 2 ^ 32.
Proof.
  unfold filing, hashmap.hashReMap, wrap32.
  pose proof (Z.mod_pos_bound h64 (2 ^ 32) eq_refl).
  pose proof (Z.mod_pos_bound (h64 mod 2 ^ 32 + 2) (2 ^ 32) eq_refl).
  destruct (_ || _); assumption.
Qed.

Lemma filing_occupied (h64 off : Z) : occupied (filing h64, off).
Proof.
  unfold filing, hashmap.hashReMap, occupied, hashmap.emptyBucket, hashmap.deletedBucket,
    wrap32. cbn [fst].
  pose proof (Z.mod_pos_bound h64 (2 ^ 32) eq_refl) as Hr.
  destruct (h64 mod 2 ^ 32 =? 4294967295) eqn:E1.
  - apply Z.eqb_eq in E1. rewrite E1. vm_compute. split; intros HH; discriminate HH.
  - destruct (h64 mod 2 ^ 32 =? 4294967294) eqn:E2.
    + apply Z.eqb_eq in E2. rewrite E2. vm_compute. split; intros HH; discriminate HH.
    + cbn [orb]. lia.
Qed.

Lemma filing_plain (h32 : Z) :
  0 <= h32 < 2 ^ 32 -> occupied (h32, 0) -> filing h32 = h32.
Proof.
  intros Hr (H1 & H2). cbn [fst] in *. unfold filing, wrap32, hashmap.hashReMap.
  rewrite Z.mod_small by lia.
  destruct (h32 =? hashmap.emptyBucket) eqn:E1; [lia|].
  destruct (h32 =? hashmap.deletedBucket) eqn:E2; [lia|]. done.
Qed.

(** ** What a well-formed map holds *)

Section Holds.

Context (c : PMap).
Hypothesis Hwf : wf c.

Lemma frame_at_inj (off : Z) (k1 v1 k2 v2 : list byte) :
  frame_at (st c) off k1 v1 -> frame_at (st c) off k2 v2 -> k1 = k2 /\ v1 = v2.
Proof.
  intros H1 H2. pose proof Hwf as (_ & _ & Hst & _).
  pose proof (frame_key _ _ _ _ Hst H1) as Hk1.
  pose proof (frame_key _ _ _ _ Hst H2) as Hk2.
  pose proof (frame_val _ _ _ _ Hst H1) as Hv1.
  pose proof (frame_val _ _ _ _ Hst H2) as Hv2.
  rewrite Hk1 in Hk2. rewrite Hv1 in Hv2. inversion Hk2. inversion Hv2. done.
Qed.

Lemma filed_frame (h : Z) (key : list byte) (i off : Z) :
  filed c h key i off -> exists v, frame_at (st c) off key v /\ 8 <= len v.
Proof.
  intros (Hi & Hb & Hoc & Hk). pose proof Hwf as (_ & _ & Hst & Hlive & _).
  destruct (Hlive i Hi) as (k0 & v0 & Hf & Hv); [by rewrite Hb|].
  unfold hashmap.getStoreIndex in Hf. rewrite Hb in Hf. cbn [snd] in Hf.
  rewrite (frame_key _ _ _ _ Hst Hf) in Hk. inversion Hk; subst. by exists v0.
Qed.

Lemma holds_functional (h : Z) (key v1 v2 : list byte) :
  holds c h key v1 -> holds c h key v2 -> v1 = v2.
Proof.
  intros (i1 & o1 & Hf1 & Hv1) (i2 & o2 & Hf2 & Hv2).
  pose proof (search_found c Hwf _ _ _ _ Hf1) as E1.
  pose proof (search_found c Hwf _ _ _ _ Hf2) as E2.
  rewrite E1 in E2. inversion E2; subst. by destruct (frame_at_inj _ _ _ _ _ Hv1 Hv2).
Qed.

Lemma holds_len (h : Z) (key v : list byte) : holds c h key v -> 8 <= len v.
Proof.
  intros (i & off & Hf & Hv). destruct (filed_frame _ _ _ _ Hf) as (v' & Hv' & Hl).
  by destruct (frame_at_inj _ _ _ _ _ Hv Hv') as (_ & ->).
Qed.

(** The search of a mutator either ends on the bucket of the key or on an
    empty bucket, and then the map does not hold the key. *)
Lemma search_holds (h : Z) (key : list byte) :
  occupied (h, 0) ->
  (exists i off v, search c h key = Ret (FullMatch i off) /\
     filed c h key i off /\ frame_at (st c) off key v /\ 8 <= len v)
  \/
  (exists j, search c h key = Ret (EmptySlot j) /\
     0 <= j < capacity (hm c) /\
     hashmap.getHash (hm c) j = hashmap.emptyBucket /\
     (forall d, 0 <= d < (j - h) mod capacity (hm c) ->
        hashmap.getHash (hm c) ((h + d) mod capacity (hm c)) <> hashmap.emptyBucket) /\
     (forall i off, ~ filed c h key i off) /\
     forall v, ~ holds c h key v).
Proof.
  intros Hh. destruct (search_cases c Hwf h key Hh) as
    [(i & off & Hs & Hf)|(j & Hs & Hj & He & Hp & Hno)].
  - left. destruct (filed_frame _ _ _ _ Hf) as (v & Hv & Hl). by exists i, off, v.
  - right. exists j. do 5 (split; [done|]).
    intros v (i & off & Hf & _). by apply (Hno i off).
Qed.

End Holds.

(** ** The guard in front of the probing loop *)

Lemma holds_ext (c c' : PMap) (h : Z) (k v : list byte) :
  hashmap.table (hm c) = hashmap.table (hm c') ->
  hashmap.log2size (hm c) = hashmap.log2size (hm c') ->
  st c = st c' ->
  holds c h k v -> holds c' h k v.
Proof.
  intros Ht HL Hs (i & off & (Hi & Hb & Hoc & Hk) & Hf).
  exists i, off. unfold filed, capacity, hashmap.bucket in *.
  rewrite <- Ht, <- HL, <- Hs. done.
Qed.

Lemma checkSpace_cases (c : PMap) :
  wf c ->
  (hashmap.numStoredKeys (hm c) < hashmap.numKeysToExpand (hm c) /\
   checkSpace c = Ret (c, None))
  \/
  (hashmap.numKeysToExpand (hm c) <= hashmap.numStoredKeys (hm c) /\
   hashmap.sizeLimit (hm c) < 2 ^ (hashmap.log2size (hm c) + 1) /\
   checkSpace c = Ret (c, Some ErrTableTooLarge))
  \/
  (hashmap.numKeysToExpand (hm c) <= hashmap.numStoredKeys (hm c) /\
   2 ^ (hashmap.log2size (hm c) + 1) <= hashmap.sizeLimit (hm c) /\
   exists nh, checkSpace c = Ret (withHm c nh, None) /\
     expanding (hm c) nh (hashmap.table (hm c))).
Proof.
  intros Hwf. unfold checkSpace.
  destruct (hashmap.numStoredKeys (hm c) >=? hashmap.numKeysToExpand (hm c)) eqn:E.
  - destruct (Z_lt_le_dec (hashmap.sizeLimit (hm c)) (2 ^ (hashmap.log2size (hm c) + 1)))
      as [Hbig|Hfit].
    + right. left. rewrite (expand_too_large _ Hbig). cbn [rbind]. split; [lia|]. done.
    + right. right. destruct (expand_ok _ (proj1 Hwf) Hfit) as (nh & He & Hinv).
      rewrite He. cbn [rbind]. split; [lia|]. split; [done|]. by exists nh.
  - left. split; [lia|done].
Qed.

Lemma regrouped_refl (c : PMap) :
  wf c -> hashmap.numStoredKeys (hm c) < hashmap.numKeysToExpand (hm c) ->
  regrouped c c.
Proof. intros Hwf Hr. split; [done|]. split; [done|]. split; [done|]. split; done. Qed.

Lemma regrouped_expanded (c : PMap) (nh : hashmap.t) :
  wf c -> expanding (hm c) nh (hashmap.table (hm c)) -> regrouped c (withHm c nh).
Proof.
  intros Hwf Hexp. split; [by apply wf_expanded|]. split; [done|]. split; [done|].
  split; [by apply (expanded_room c)|].
  intros h k v. split.
  - intros (i & off & Hf & Hv). destruct (filed_expanded_inv c nh Hwf Hexp _ _ _ _ Hf)
      as (i' & Hf'). by exists i', off.
  - intros (i & off & Hf & Hv). destruct (filed_expanded c nh Hwf Hexp _ _ _ _ Hf)
      as (i' & Hf'). by exists i', off.
Qed.

Lemma checkSpace_regrouped (c c1 : PMap) :
  wf c -> checkSpace c = Ret (c1, None) -> regrouped c c1.
Proof.
  intros Hwf Hc.
  destruct (checkSpace_cases c Hwf) as [(Hr & E)|[(_ & _ & E)|(_ & _ & nh & E & Hexp)]];
    rewrite E in Hc; inversion Hc; subst.
  - by apply regrouped_refl.
  - by apply regrouped_expanded.
Qed.

(** ** Storing a value *)

Section Stored.

Context (c : PMap) (st' : store.t) (j h off : Z) (k v : list byte).
Hypothesis Hwf : wf c.
Hypothesis Hj : 0 <= j < capacity (hm c).
Hypothesis Hh : occupied (h, 0).
Hypothesis Hst' : store_ok st'.
Hypothesis Hpres : forall o k0 v0, frame_at (st c) o k0 v0 -> frame_at st' o k0 v0.
Hypothesis Hframe : frame_at st' off k v.
(** Bucket [j] is empty, or it is the bucket of [k]. *)
Hypothesis Hbucket :
  hashmap.getHash (hm c) j = hashmap.emptyBucket \/ exists off0, filed c h k j off0.

Let c1 : PMap := takeBucket (withSt c st') j h off.

Lemma stored_new : holds c1 h k v.
Proof.
  exists j, off. split; [|done]. split; [done|]. split.
  { unfold c1. rewrite takeBucket_bucket by (try done; try lia; apply Hwf).
    by rewrite decide_True. }
  split; [by destruct Hh|]. by apply (frame_key _ _ k v).
Qed.

Lemma stored_others (h' : Z) (k' v' : list byte) :
  (h', k') <> (h, k) -> (holds c1 h' k' v' <-> holds c h' k' v').
Proof.
  intros Hne. pose proof Hwf as (Hok & _ & Hst & Hlive & _). split.
  - intros (i & o & (Hi & Hb & Hoc & Hk) & Hf).
    change (capacity (hm c1)) with (capacity (hm c)) in Hi. change (st c1) with st' in *.
    unfold c1 in Hb. rewrite takeBucket_bucket in Hb by (try done; lia).
    destruct (decide (i = j)) as [->|Hij].
    { inversion Hb; subst. rewrite (frame_key _ _ k v Hst' Hframe) in Hk.
      inversion Hk; subst. done. }
    cbn [hm withSt] in Hb.
    destruct (Hlive i Hi) as (k0 & v0 & Hf0 & _); [by rewrite Hb|].
    unfold hashmap.getStoreIndex in Hf0. rewrite Hb in Hf0. cbn [snd] in Hf0.
    pose proof (Hpres _ _ _ Hf0) as Hf0'.
    pose proof (frame_key _ _ _ _ Hst' Hf0') as Hk0. rewrite Hk in Hk0. inversion Hk0; subst k0.
    pose proof (frame_val _ _ _ _ Hst' Hf0') as E1.
    pose proof (frame_val _ _ _ _ Hst' Hf) as E2. rewrite E1 in E2. inversion E2; subst v0.
    exists i, o. split; [|done]. split; [done|]. split; [done|]. split; [done|].
    by apply (frame_key _ _ k' v').
  - intros (i & o & (Hi & Hb & Hoc & Hk) & Hf).
    assert (Hij : i <> j).
    { intros ->. destruct Hbucket as [He|(off0 & _ & Hb0 & _ & Hk0)].
      - unfold hashmap.getHash in He. rewrite Hb in He. by destruct Hoc.
      - rewrite Hb in Hb0. inversion Hb0; subst. rewrite Hk in Hk0. inversion Hk0; subst.
        done. }
    exists i, o. split; [|by apply Hpres]. split; [done|]. split.
    { unfold c1. rewrite takeBucket_bucket by (try done; lia). by rewrite decide_False. }
    split; [done|]. by apply (frame_key _ _ k' v'), Hpres.
Qed.

End Stored.

Lemma put_full (s : store.t) (k v : list byte) :
  store.size s < store.length s + (12 + len k + len v) ->
  store.put s k v = (s, 0, Some ErrStoreFull).
Proof.
  intros H. unfold store.put.
  destruct (store.length s + (12 + len k + len v) >? store.size s) eqn:E; [done|lia].
Qed.

(** ** Set *)

(** Every way a [Set] with a value of at least 8 bytes can end on a
    well-formed map. *)
Lemma Set_cases (c : PMap) (h64 : Z) (key value : list byte) :
  wf c -> 8 <= len value ->
  (hashmap.numKeysToExpand (hm c) <= hashmap.numStoredKeys (hm c) /\
   hashmap.sizeLimit (hm c) < 2 ^ (hashmap.log2size (hm c) + 1) /\
   Set_ c h64 key value = Ret (c, Some ErrTableTooLarge))
  \/
  exists c1, checkSpace c = Ret (c1, None) /\ regrouped c c1 /\
    (((forall v0, ~ holds c (filing h64) key v0) /\
      ((store.size (st c) < store.length (st c) + (12 + len key + len value) /\
        Set_ c h64 key value = Ret (c1, Some ErrStoreFull))
       \/
       (store.length (st c) + (12 + len key + len value) <= store.size (st c) /\
        exists c2, Set_ c h64 key value = Ret (c2, None) /\
          stored c1 c2 (filing h64) key value /\
          Checksum c2 = Z.lxor (Checksum c) (Z.lxor h64 (stamp value)))))
     \/
     (exists v0, holds c (filing h64) key v0 /\
      ((instant value <= instant v0 /\ Set_ c h64 key value = Ret (c1, None))
       \/
       (instant v0 < instant value /\
        store.size (st c) < store.length (st c) + (12 + len key + len value) /\
        Set_ c h64 key value = Ret (c1, Some ErrStoreFull))
       \/
       (instant v0 < instant value /\
        store.length (st c) + (12 + len key + len value) <= store.size (st c) /\
        exists c2, Set_ c h64 key value = Ret (c2, None) /\
          stored c1 c2 (filing h64) key value /\
          Checksum c2 = Z.lxor (Z.lxor (Checksum c) (Z.lxor h64 (stamp v0)))
                          (Z.lxor h64 (stamp value)))))).
Proof.
  intros Hwf Hlen. unfold Set_.
  destruct (len value <? 8) eqn:E8; [lia|].
  assert (Hcs : (hashmap.numKeysToExpand (hm c) <= hashmap.numStoredKeys (hm c) /\
                 hashmap.sizeLimit (hm c) < 2 ^ (hashmap.log2size (hm c) + 1) /\
                 checkSpace c = Ret (c, Some ErrTableTooLarge))
                \/ exists c1, checkSpace c = Ret (c1, None)).
  { destruct (checkSpace_cases c Hwf) as [(_ & E)|[(? & ? & E)|(_ & _ & nh & E & _)]].
    - right. by exists c.
    - by left.
    - right. by exists (withHm c nh). }
  destruct Hcs as [(Hn & Hl & E)|(c1 & E)]; rewrite E; cbn [rbind]; [by left|].
  right. exists c1. split; [done|].
  pose proof (checkSpace_regrouped c c1 Hwf E) as Hre. split; [done|].
  destruct Hre as (Hwf1 & Hst1 & Hck1 & Hroom & Hsame).
  fold (filing h64).
  pose proof (filing_occupied h64 0) as Hocc. pose proof (filing_range h64) as Hrange.
  pose proof Hwf1 as (Hok1 & _ & Hsok1 & _).
  rewrite (Uint64_prefix_elems (tight value)) by done. cbn [elems tight rbind].
  destruct (search_holds c1 Hwf1 (filing h64) key Hocc) as
    [(i & off0 & v0 & Hs & Hf & Hfr & Hl0)|(j & Hs & Hj & He & Hp & Hno & Hnh)];
    rewrite Hs; cbn [rbind].
  - right. exists v0. split.
    { apply Hsame. by exists i, off0. }
    rewrite (frame_val _ _ _ _ Hsok1 Hfr). cbn [rbind].
    rewrite Uint64_prefix_elems by done. cbn [rbind elems].
    fold (instant v0) (instant value).
    destruct (Z_le_gt_dec (instant value) (instant v0)) as [Hold|Hnew].
    + left. split; [done|].
      destruct ((instant v0 >? instant value) || (instant v0 =? instant value)) eqn:Ecmp;
        [done|]. apply orb_false_elim in Ecmp as (E1 & E2). lia.
    + right.
      destruct ((instant v0 >? instant value) || (instant v0 =? instant value)) eqn:Ecmp.
      { apply orb_prop in Ecmp as [E1|E1]; lia. }
      rewrite <- Hst1.
      destruct (Z_lt_le_dec (store.size (st c1))
                  (store.length (st c1) + (12 + len key + len value))) as [Hfull|Hfit].
      * left. do 2 (split; [lia|]). by rewrite (put_full _ _ _ Hfull).
      * right. do 2 (split; [lia|]).
        destruct (put_room _ key value Hsok1 Hfit) as
          (st' & Hput & Hst' & Hlen' & Hdel' & Hsz' & Hnew' & Hpres).
        rewrite Hput.
        rewrite (frame_valLater _ st' off0 key v0 Hsok1 Hst' Hfr (Hpres _ _ _ Hfr)).
        cbn [rbind]. rewrite Uint64_prefix_elems by done. cbn [rbind elems].
        eexists. split; [reflexivity|].
        pose proof Hf as (Hi & _).
        split.
        -- split.
           { apply wf_withChecksum.
             apply (wf_overwrite c1 st' i (filing h64) _ key value) with (off0 := off0);
               done. }
           split.
           { apply (stored_new c1 st' i (filing h64) _ key value); done. }
           split.
           { intros h' k' v' Hne.
             apply (stored_others c1 st' i (filing h64) _ key value); try done.
             right. by exists off0. }
           split; [exact Hlen'|exact Hdel'].
        -- unfold Checksum. cbn. by rewrite Hck1.
  - left. split.
    { intros v0 Hh. apply (Hnh v0). by apply Hsame. }
    rewrite <- Hst1.
    destruct (Z_lt_le_dec (store.size (st c1))
                (store.length (st c1) + (12 + len key + len value))) as [Hfull|Hfit].
    + left. split; [lia|]. by rewrite (put_full _ _ _ Hfull).
    + right. split; [lia|].
      destruct (put_room _ key value Hsok1 Hfit) as
        (st' & Hput & Hst' & Hlen' & Hdel' & Hsz' & Hnew' & Hpres).
      rewrite Hput. eexists. split; [reflexivity|].
      split.
      * split.
        { apply wf_withChecksum.
          apply (wf_insert c1 st' j (filing h64) _ key value); done. }
        split.
        { apply (stored_new c1 st' j (filing h64) _ key value); done. }
        split.
        { intros h' k' v' Hne.
          apply (stored_others c1 st' j (filing h64) _ key value); try done.
          by left. }
        split; [exact Hlen'|exact Hdel'].
      * unfold Checksum. cbn. by rewrite Hck1.
Qed.

(** ** Get *)

Section GetSpec.

Context (c : PMap).
Hypothesis Hwf : wf c.

Lemma wrap32_id (h : Z) : 0 <= h < 2 ^ 32 -> wrap32 h = h.
Proof. intros H. unfold wrap32. by apply Z.mod_small. Qed.

Lemma holds_hash_range (h : Z) (key v : list byte) :
  holds c h key v -> 0 <= h < 2 ^ 32 /\ occupied (h, 0).
Proof.
  intros (i & off & (Hi & Hb & Hoc & Hk) & _).
  pose proof Hwf as (Hok & _). pose proof (getHash_range _ Hok i Hi) as Hr.
  unfold hashmap.getHash in Hr. rewrite Hb in Hr. split; [done|]. by destruct Hoc.
Qed.

Lemma Get_holds (h : Z) (key v : list byte) :
  holds c h key v -> Get c h key = Ret (Some v, None).
Proof.
  intros Hh. destruct (holds_hash_range _ _ _ Hh) as (Hr & _).
  destruct Hh as (i & off & Hf & Hfr).
  unfold Get. rewrite (wrap32_id _ Hr), (search_found c Hwf _ _ _ _ Hf). cbn [rbind].
  by rewrite (frame_val _ _ _ _ (proj1 (proj2 (proj2 Hwf))) Hfr).
Qed.

(** A probe for the hash [emptyBucket] matches no bucket. *)
Lemma search_emptyBucket (key : list byte) :
  exists j, search c hashmap.emptyBucket key = Ret (EmptySlot j).
Proof.
  pose proof Hwf as (Hok & _).
  unfold search. rewrite (land_mask _ Hok), (fuel_capacity _ Hok).
  destruct (first_empty_exists _ Hok hashmap.emptyBucket) as (d & Hd & Hfe).
  destruct (probe_outcome c hashmap.emptyBucket key Hok d _ _ Hfe Hd) as
    [(Hp & _)|(e & He & _ & (Hm1 & Hm2 & _) & _)].
  - intros e He Hhe. destruct Hfe as (_ & Hb). by destruct (Hb e He).
  - by eexists.
  - done.
Qed.

Lemma Get_not_held (h : Z) (key : list byte) :
  0 <= h < 2 ^ 32 -> h <> hashmap.deletedBucket ->
  (forall v, ~ holds c h key v) -> Get c h key = Ret (None, None).
Proof.
  intros Hr Hd Hno. unfold Get. rewrite (wrap32_id _ Hr).
  destruct (decide (h = hashmap.emptyBucket)) as [->|He].
  - destruct (search_emptyBucket key) as (j & ->). done.
  - destruct (search_holds c Hwf h key) as
      [(i & off & v & _ & Hf & Hfr & _)|(j & -> & _)]; [by split| |done].
    exfalso. apply (Hno v). by exists i, off.
Qed.

(** [Get] under a hash other than [deletedBucket] is decided by what the
    map holds. *)
Lemma Get_decided (h : Z) (key : list byte) :
  0 <= h < 2 ^ 32 -> h <> hashmap.deletedBucket ->
  (exists v, holds c h key v /\ Get c h key = Ret (Some v, None))
  \/ ((forall v, ~ holds c h key v) /\ Get c h key = Ret (None, None)).
Proof.
  intros Hr Hd.
  destruct (decide (h = hashmap.emptyBucket)) as [->|He].
  - right. assert (Hno : forall v, ~ holds c hashmap.emptyBucket key v).
    { intros v Hh. destruct (holds_hash_range _ _ _ Hh) as (_ & (Hx & _)). done. }
    split; [done|]. by apply Get_not_held.
  - destruct (search_holds c Hwf h key) as
      [(i & off & v & _ & Hf & Hfr & _)|(j & _ & _ & _ & _ & _ & Hno)]; [by split| |].
    + left. exists v. assert (Hh : holds c h key v) by (by exists i, off).
      split; [done|]. by apply Get_holds.
    + right. split; [done|]. by apply Get_not_held.
Qed.

End GetSpec.

Lemma Get_regrouped (c c1 : PMap) (h32 : Z) (key : list byte) :
  wf c -> regrouped c c1 ->
  wrap32 h32 <> hashmap.deletedBucket ->
  Get c1 h32 key = Get c h32 key.
Proof.
  intros Hwf (Hwf1 & _ & _ & _ & Hsame) Hd.
  assert (Hr : 0 <= wrap32 h32 < 2 ^ 32) by (apply Z.mod_pos_bound; done).
  assert (Hg : forall c0, Get c0 h32 key = Get c0 (wrap32 h32) key).
  { intros c0. unfold Get. by rewrite (wrap32_id (wrap32 h32)). }
  rewrite (Hg c), (Hg c1).
  destruct (Get_decided c Hwf (wrap32 h32) key Hr Hd) as [(v & Hh & ->)|(Hno & ->)].
  - apply Get_holds; [done|]. by apply Hsame.
  - apply Get_not_held; try done. intros v Hh. apply (Hno v). by apply Hsame.
Qed.

(** ** Deleting a bucket *)

Lemma setHash_bucket (t : hashmap.t) (j x i : Z) :
  0 <= j < len (hashmap.table t) -> 0 <= i ->
  hashmap.bucket (hashmap.setHash t j x) i
  = if decide (i = j) then (x, hashmap.getStoreIndex t j) else hashmap.bucket t i.
Proof. intros Hj Hi. by apply bucket_insert. Qed.

Section Deleted.

Context (c : PMap) (st' : store.t) (j h off0 : Z) (k : list byte).
Hypothesis Hwf : wf c.
Hypothesis Hf : filed c h k j off0.
Hypothesis Hst' : store_ok st'.
Hypothesis Hpres : forall o k0 v0, frame_at (st c) o k0 v0 -> frame_at st' o k0 v0.

Let c1 : PMap :=
  withSt (withHm c (hashmap.setHash (hm c) j hashmap.deletedBucket)) st'.

Lemma deleted_bucket (i : Z) :
  0 <= i ->
  hashmap.bucket (hm c1) i
  = if decide (i = j) then (hashmap.deletedBucket, off0) else hashmap.bucket (hm c) i.
Proof.
  intros Hi. destruct Hf as (Hj & Hb & _). pose proof Hwf as ((_ & _ & Hlen & _) & _).
  unfold c1. cbn [hm withSt withHm]. rewrite setHash_bucket by lia.
  unfold hashmap.getStoreIndex. by rewrite Hb.
Qed.

Lemma deleted_occupied (i : Z) :
  0 <= i -> occupied (hashmap.bucket (hm c1) i) ->
  i <> j /\ hashmap.bucket (hm c1) i = hashmap.bucket (hm c) i.
Proof.
  intros Hi Hoc. rewrite deleted_bucket in Hoc |- * by done.
  destruct (decide (i = j)) as [->|Hne]; [|done]. by destruct Hoc as (_ & Hx).
Qed.

Lemma deleted_key_stable (i : Z) :
  0 <= i < capacity (hm c) -> occupied (hashmap.bucket (hm c) i) ->
  store.key st' (hashmap.getStoreIndex (hm c) i)
  = store.key (st c) (hashmap.getStoreIndex (hm c) i).
Proof.
  intros Hi Hoc. pose proof Hwf as (_ & _ & Hst & Hlive & _).
  destruct (Hlive i Hi Hoc) as (k0 & v0 & Hfr & _).
  rewrite (frame_key _ _ k0 v0 Hst Hfr).
  by rewrite (frame_key _ _ k0 v0 Hst' (Hpres _ _ _ Hfr)).
Qed.

Lemma wf_delete : wf c1.
Proof.
  pose proof Hwf as (Hok & Hpaths & Hst & Hlive & Huniq).
  pose proof Hok as (T1 & T2 & T3 & T4 & T5 & T6 & T7 & T8).
  pose proof Hf as (Hj & Hb & Hocj & Hkj).
  pose proof (capacity_pos _ Hok) as Hpos.
  assert (Htb : hashmap.table (hm c1)
                = <[Z.to_nat j := (hashmap.deletedBucket, off0)]> (hashmap.table (hm c))).
  { unfold c1. cbn [hm withSt withHm]. rewrite setHash_table.
    unfold hashmap.getStoreIndex. by rewrite Hb. }
  assert (Hne : forall p, 0 <= p ->
            hashmap.getHash (hm c) p <> hashmap.emptyBucket ->
            hashmap.getHash (hm c1) p <> hashmap.emptyBucket).
  { intros p Hp Hx. unfold hashmap.getHash. rewrite deleted_bucket by done.
    destruct (decide (p = j)); [done|exact Hx]. }
  split; [|split; [|split; [|split]]].
  - split; [exact T1|]. split; [exact T2|]. split.
    { rewrite Htb. unfold len. rewrite length_insert. exact T3. }
    split; [exact T4|]. split; [exact T5|]. split; [|split; [exact T7|]].
    + rewrite Htb. unfold len.
      rewrite (filter_insert_length _ _ _ _ _ (bucket_lookup _ Hok j Hj)).
      rewrite decide_True by done.
      rewrite decide_True by (rewrite Hb; apply Hocj).
      change (hashmap.numStoredKeys (hm c1)) with (hashmap.numStoredKeys (hm c)).
      unfold len in T6.
      assert (0 < length (filter nonempty (hashmap.table (hm c))))%nat; [|lia].
      assert (Hin : hashmap.bucket (hm c) j ∈ filter nonempty (hashmap.table (hm c))).
      { apply list_elem_of_filter. split; [rewrite Hb; apply Hocj|]. by apply bucket_elem. }
      destruct (filter nonempty (hashmap.table (hm c))); [by apply elem_of_nil in Hin|].
      simpl. lia.
    + rewrite Htb. intros b Hbin. apply elem_of_insert_inv in Hbin as [->|Hbin]; [done|].
      by apply T8.
  - intros i Hi Hoc d Hd. change (capacity (hm c1)) with (capacity (hm c)) in *.
    destruct (deleted_occupied i ltac:(lia) Hoc) as (Hij & Hbi).
    unfold hashmap.getHash in Hd |- * at 2. rewrite Hbi in Hoc, Hd |- *.
    apply Hne; [apply Z.mod_pos_bound, Hpos|]. by apply Hpaths.
  - exact Hst'.
  - intros i Hi Hoc. change (capacity (hm c1)) with (capacity (hm c)) in Hi.
    destruct (deleted_occupied i ltac:(lia) Hoc) as (Hij & Hbi).
    unfold hashmap.getStoreIndex. rewrite Hbi in Hoc |- *.
    destruct (Hlive i Hi Hoc) as (k0 & v0 & Hfr & Hv). exists k0, v0.
    split; [|done]. by apply Hpres.
  - intros i1 i2 k0 Hi1 Hi2 Ho1 Ho2 Hh Hk1 Hk2.
    change (capacity (hm c1)) with (capacity (hm c)) in *. change (st c1) with st' in *.
    destruct (deleted_occupied i1 ltac:(lia) Ho1) as (Hn1 & Hb1).
    destruct (deleted_occupied i2 ltac:(lia) Ho2) as (Hn2 & Hb2).
    unfold hashmap.getHash, hashmap.getStoreIndex in Hh, Hk1, Hk2.
    rewrite Hb1 in Ho1, Hh, Hk1. rewrite Hb2 in Ho2, Hh, Hk2.
    apply (Huniq i1 i2 k0); try done.
    + rewrite <- Hk1. symmetry. by apply deleted_key_stable.
    + rewrite <- Hk2. symmetry. by apply deleted_key_stable.
Qed.

Lemma deleted_gone (v : list byte) : ~ holds c1 h k v.
Proof.
  intros (i & o & (Hi & Hb & Hoc & Hk) & Hfr).
  change (capacity (hm c1)) with (capacity (hm c)) in Hi. change (st c1) with st' in *.
  pose proof Hwf as (_ & _ & _ & _ & Huniq). pose proof Hf as (Hj & Hbj & Hocj & Hkj).
  destruct (deleted_occupied i ltac:(lia) ltac:(by rewrite Hb)) as (Hij & Hbi).
  rewrite Hb in Hbi. apply Hij. apply (Huniq i j k); try done.
  - by rewrite <- Hbi.
  - by rewrite Hbj.
  - unfold hashmap.getHash. by rewrite <- Hbi, Hbj.
  - rewrite <- deleted_key_stable by (try done; by rewrite <- Hbi).
    unfold hashmap.getStoreIndex. by rewrite <- Hbi.
  - unfold hashmap.getStoreIndex. by rewrite Hbj.
Qed.

Lemma deleted_others (h' : Z) (k' v' : list byte) :
  (h', k') <> (h, k) -> (holds c1 h' k' v' <-> holds c h' k' v').
Proof.
  intros Hne. pose proof Hwf as (Hok & _ & Hst & Hlive & _).
  pose proof Hf as (Hj & Hbj & Hocj & Hkj). split.
  - intros (i & o & (Hi & Hb & Hoc & Hk) & Hfr).
    change (capacity (hm c1)) with (capacity (hm c)) in Hi. change (st c1) with st' in *.
    destruct (deleted_occupied i ltac:(lia) ltac:(by rewrite Hb)) as (Hij & Hbi).
    rewrite Hb in Hbi. symmetry in Hbi.
    destruct (Hlive i Hi) as (k0 & v0 & Hf0 & _); [by rewrite Hbi|].
    unfold hashmap.getStoreIndex in Hf0. rewrite Hbi in Hf0. cbn [snd] in Hf0.
    pose proof (Hpres _ _ _ Hf0) as Hf0'.
    pose proof (frame_key _ _ _ _ Hst' Hf0') as Hk0. rewrite Hk in Hk0. inversion Hk0; subst k0.
    pose proof (frame_val _ _ _ _ Hst' Hf0') as E1.
    pose proof (frame_val _ _ _ _ Hst' Hfr) as E2. rewrite E1 in E2. inversion E2; subst v0.
    exists i, o. split; [|done]. split; [done|]. split; [done|]. split; [done|].
    by apply (frame_key _ _ k' v').
  - intros (i & o & (Hi & Hb & Hoc & Hk) & Hfr).
    assert (Hij : i <> j).
    { intros ->. rewrite Hb in Hbj. inversion Hbj; subst. rewrite Hk in Hkj.
      inversion Hkj; subst. done. }
    exists i, o. split; [|by apply Hpres]. split; [done|]. split.
    { rewrite deleted_bucket by lia. by rewrite decide_False. }
    split; [done|]. by apply (frame_key _ _ k' v'), Hpres.
Qed.

End Deleted.

(** ** Del *)

Lemma store_ok_addDeleted (s : store.t) (n : Z) :
  store_ok s -> store_ok (store.addDeleted s n).
Proof. intros H. exact H. Qed.

(** Every way a [Del] can end on a well-formed map. *)
Lemma Del_cases (c : PMap) (h64 : Z) (key value : list byte) :
  wf c ->
  ((forall v0, ~ holds c (filing h64) key v0) /\ Del c h64 key value = Ret (c, None))
  \/
  exists v0, holds c (filing h64) key v0 /\
    ((len value < 8 /\ Del c h64 key value = Panics)
     \/
     (8 <= len value /\ instant value < instant v0 /\
      Del c h64 key value = Ret (c, None))
     \/
     (8 <= len value /\ instant v0 <= instant value /\
      exists c2 err, Del c h64 key value = Ret (c2, err) /\
        removed c c2 (filing h64) key v0 /\
        Checksum c2 = Z.lxor (Checksum c) (Z.lxor h64 (stamp v0)) /\
        (exists i off, filed c (filing h64) key i off /\
           hashmap.bucket (hm c2) i = (hashmap.deletedBucket, off)) /\
        ((Used c + (12 + len key) <= Size c /\ err = None /\
          Used c2 = Used c + (12 + len key) /\
          frame_at (st c2) (Used c) key [])
         \/
         (Size c < Used c + (12 + len key) /\ err = Some ErrStoreFull /\
          Used c2 = Used c)))).
Proof.
  intros Hwf. unfold Del. fold (filing h64).
  pose proof Hwf as (Hok & _ & Hsok & _).
  destruct (search_holds c Hwf (filing h64) key (filing_occupied h64 0)) as
    [(i & off0 & v0 & Hs & Hf & Hfr & Hl0)|(j & Hs & _ & _ & _ & _ & Hnh)];
    rewrite Hs; cbn [rbind]; [|by left].
  right. exists v0. split; [by exists i, off0|].
  rewrite (frame_val _ _ _ _ Hsok Hfr). cbn [rbind].
  rewrite Uint64_prefix_elems by done. cbn [rbind elems].
  destruct (Z_lt_le_dec (len value) 8) as [Hshort|Hlong].
  { left. split; [done|]. by rewrite Uint64_prefix_short. }
  right. rewrite (Uint64_prefix_elems (tight value)) by done. cbn [rbind elems tight].
  fold (instant v0) (instant value).
  destruct (instant value <? instant v0) eqn:Ecmp.
  { left. split; [done|]. split; [lia|done]. }
  right. split; [done|]. split; [lia|].
  cbn [st withSt withHm withChecksum hm checksum].
  set (sd := store.addDeleted (st c) (12 + len key + len v0)).
  assert (Hsd : store_ok sd) by (by apply store_ok_addDeleted).
  assert (Hrem : forall st',
            store_ok st' ->
            (forall o k0 v1, frame_at (st c) o k0 v1 -> frame_at st' o k0 v1) ->
            store.deleted st' = store.deleted sd ->
            removed c
              (withSt
                 (withHm (withChecksum (withSt c sd)
                            (syncChecksum.sub (checksum c) (Z.lxor h64 (stamp v0))
                               (instant value)))
                    (hashmap.setHash (hm c) i hashmap.deletedBucket)) st')
              (filing h64) key v0).
  { intros st' Hst' Hpres Hdel. split.
    { apply (wf_delete c st' i (filing h64) off0 key); done. }
    split.
    { apply (deleted_gone c st' i (filing h64) off0 key); done. }
    split.
    { apply (deleted_others c st' i (filing h64) off0 key); done. }
    split; [|done]. unfold Deleted. cbn [st withSt]. by rewrite Hdel. }
  assert (Hbk : forall st',
            hashmap.bucket
              (hm (withSt
                 (withHm (withChecksum (withSt c sd)
                            (syncChecksum.sub (checksum c) (Z.lxor h64 (stamp v0))
                               (instant value)))
                    (hashmap.setHash (hm c) i hashmap.deletedBucket)) st')) i
            = (hashmap.deletedBucket, off0)).
  { intros st'. pose proof Hf as (Hi & _).
    rewrite (deleted_bucket c st' i (filing h64) off0 key Hwf Hf) by lia.
    by rewrite decide_True. }
  destruct (Z_lt_le_dec (store.size sd) (store.length sd + (12 + len key + len (@nil byte))))
    as [Hfull|Hfit].
  - rewrite (put_full _ _ _ Hfull). eexists _, _. split; [reflexivity|].
    split; [by apply Hrem|]. split; [done|]. split; [by exists i, off0|].
    right. unfold Used, Size. cbn in Hfull |- *. unfold len in Hfull at 2. simpl in Hfull.
    split; [lia|]. done.
  - destruct (put_room _ key [] Hsd Hfit) as
      (st' & Hput & Hst' & Hlen' & Hdel' & Hsz' & Hnew' & Hpres).
    rewrite Hput. eexists _, _. split; [reflexivity|].
    split; [by apply Hrem|]. split; [done|]. split; [by exists i, off0|].
    left. unfold Used, Size. cbn [st withSt].
    cbn in Hfit, Hlen'. unfold len in Hfit at 2, Hlen' at 2. simpl in Hfit, Hlen'.
    split; [lia|]. split; [done|]. split; [lia|]. exact Hnew'.
Qed.

(** ** CAS *)

Lemma len_newValue (value : list byte) :
  24 <= len value -> len (newValue value) = len value - 16.
Proof. intros H. unfold newValue, len in *. rewrite length_drop. lia. Qed.

Lemma from8_elems (s : slice) :
  8 <= len (elems s) -> from8 s = Ret (drop 8 (elems s)).
Proof. intros H. unfold from8. destruct (8 <=? len (elems s)) eqn:E; [done|lia]. Qed.

(** Every way a [CAS] with a value of at least 24 bytes can end on a
    well-formed map. *)
Lemma CAS_cases (c : PMap) (h64 : Z) (key value : list byte) :
  wf c -> 24 <= len value ->
  (hashmap.numKeysToExpand (hm c) <= hashmap.numStoredKeys (hm c) /\
   hashmap.sizeLimit (hm c) < 2 ^ (hashmap.log2size (hm c) + 1) /\
   CAS c h64 key value = Ret (c, Some ErrTableTooLarge))
  \/
  exists c1, checkSpace c = Ret (c1, None) /\ regrouped c c1 /\
    (((forall v0, ~ holds c (filing h64) key v0) /\
      ((expectedInstant value <> 0 /\ expectedHash value <> FNV1a64 [] /\
        CAS c h64 key value = Ret (c1, Some ErrCASEmptyPair))
       \/
       ((expectedInstant value = 0 \/ expectedHash value = FNV1a64 []) /\
        store.size (st c) < store.length (st c) + (12 + len key + len (newValue value)) /\
        CAS c h64 key value = Ret (c1, Some ErrStoreFull))
       \/
       ((expectedInstant value = 0 \/ expectedHash value = FNV1a64 []) /\
        store.length (st c) + (12 + len key + len (newValue value)) <= store.size (st c) /\
        exists c2, CAS c h64 key value = Ret (c2, None) /\
          stored c1 c2 (filing h64) key (newValue value) /\
          Checksum c2 = Z.lxor (Checksum c) (Z.lxor h64 (stamp (newValue value))))))
     \/
     (exists v0, holds c (filing h64) key v0 /\
      ((instant v0 <> expectedInstant value /\
        CAS c h64 key value = Ret (c1, Some ErrCASTimestamp))
       \/
       (instant v0 = expectedInstant value /\
        expectedHash value <> FNV1a64 (drop 8 v0) /\
        CAS c h64 key value = Ret (c1, Some ErrCASHash))
       \/
       (instant v0 = expectedInstant value /\
        expectedHash value = FNV1a64 (drop 8 v0) /\
        store.size (st c) < store.length (st c) + (12 + len key + len (newValue value)) /\
        CAS c h64 key value
        = Ret (withChecksum c1
                 (syncChecksum.sub (checksum c1) (Z.lxor h64 (stamp v0))
                    (instant (newValue value))), Some ErrStoreFull))
       \/
       (instant v0 = expectedInstant value /\
        expectedHash value = FNV1a64 (drop 8 v0) /\
        store.length (st c) + (12 + len key + len (newValue value)) <= store.size (st c) /\
        exists c2, CAS c h64 key value = Ret (c2, None) /\
          stored c1 c2 (filing h64) key (newValue value) /\
          Checksum c2 = Z.lxor (Z.lxor (Checksum c) (Z.lxor h64 (stamp v0)))
                          (Z.lxor h64 (stamp (newValue value))))))).
Proof.
  intros Hwf Hlen. unfold CAS.
  destruct (len value <? 24) eqn:E24; [lia|].
  assert (Hcs : (hashmap.numKeysToExpand (hm c) <= hashmap.numStoredKeys (hm c) /\
                 hashmap.sizeLimit (hm c) < 2 ^ (hashmap.log2size (hm c) + 1) /\
                 checkSpace c = Ret (c, Some ErrTableTooLarge))
                \/ exists c1, checkSpace c = Ret (c1, None)).
  { destruct (checkSpace_cases c Hwf) as [(_ & E)|[(? & ? & E)|(_ & _ & nh & E & _)]].
    - right. by exists c.
    - by left.
    - right. by exists (withHm c nh). }
  destruct Hcs as [(Hn & Hl & E)|(c1 & E)]; rewrite E; cbn [rbind]; [by left|].
  right. exists c1. split; [done|].
  pose proof (checkSpace_regrouped c c1 Hwf E) as Hre. split; [done|].
  destruct Hre as (Hwf1 & Hst1 & Hck1 & Hroom & Hsame).
  fold (filing h64) (expectedInstant value) (expectedHash value) (newValue value).
  fold (stamp (newValue value)). fold (instant (newValue value)).
  pose proof (filing_occupied h64 0) as Hocc. pose proof (filing_range h64) as Hrange.
  pose proof Hwf1 as (Hok1 & _ & Hsok1 & _).
  pose proof (len_newValue value Hlen) as Hnl.
  assert (Hn8 : 8 <= len (newValue value)) by lia.
  destruct (search_holds c1 Hwf1 (filing h64) key Hocc) as
    [(i & off0 & v0 & Hs & Hf & Hfr & Hl0)|(j & Hs & Hj & He & Hp & Hno & Hnh)];
    rewrite Hs; cbn [rbind].
  - right. exists v0. split.
    { apply Hsame. by exists i, off0. }
    rewrite (frame_val _ _ _ _ Hsok1 Hfr). cbn [rbind].
    rewrite Uint64_prefix_elems by done. cbn [rbind elems].
    fold (instant v0).
    destruct (Z.eq_dec (instant v0) (expectedInstant value)) as [Hts|Hts].
    2:{ left. split; [done|].
        destruct (instant v0 =? expectedInstant value) eqn:E1; [lia|done]. }
    right. destruct (instant v0 =? expectedInstant value) eqn:E1; [|lia]. cbn [negb].
    rewrite from8_elems by done. cbn [rbind elems].
    destruct (Z.eq_dec (expectedHash value) (FNV1a64 (drop 8 v0))) as [Hhv|Hhv].
    2:{ left. do 2 (split; [done|]).
        destruct (expectedHash value =? FNV1a64 (drop 8 v0)) eqn:E2; [lia|done]. }
    right. destruct (expectedHash value =? FNV1a64 (drop 8 v0)) eqn:E2; [|lia]. cbn [negb].
    cbn [st withChecksum]. rewrite <- Hst1.
    destruct (Z_lt_le_dec (store.size (st c1))
                (store.length (st c1) + (12 + len key + len (newValue value))))
      as [Hfull|Hfit].
    + left. do 3 (split; [done|]). by rewrite (put_full _ _ _ Hfull).
    + right. do 3 (split; [done|]).
      destruct (put_room _ key (newValue value) Hsok1 Hfit) as
        (st' & Hput & Hst' & Hlen' & Hdel' & Hsz' & Hnew' & Hpres).
      rewrite Hput. eexists. split; [reflexivity|].
      pose proof Hf as (Hi & _).
      split.
      * split.
        { apply wf_withChecksum.
          apply (wf_overwrite c1 st' i (filing h64) _ key (newValue value))
            with (off0 := off0); done. }
        split.
        { apply (stored_new c1 st' i (filing h64) _ key (newValue value)); done. }
        split.
        { intros h' k' v' Hne.
          apply (stored_others c1 st' i (filing h64) _ key (newValue value)); try done.
          right. by exists off0. }
        split; [exact Hlen'|exact Hdel'].
      * unfold Checksum. cbn. by rewrite Hck1.
  - left. split.
    { intros v0 Hh. apply (Hnh v0). by apply Hsame. }
    destruct (Z.eq_dec (expectedInstant value) 0) as [Hz|Hnz];
      destruct (Z.eq_dec (expectedHash value) (FNV1a64 [])) as [Hhz|Hhnz].
    all: destruct (expectedInstant value =? 0) eqn:E1; try lia.
    all: destruct (expectedHash value =? FNV1a64 []) eqn:E2; try lia.
    all: cbn [negb andb].
    4:{ left. done. }
    all: right.
    all: assert (Hor : expectedInstant value = 0 \/ expectedHash value = FNV1a64 [])
           by (first [by left|by right]).
    all: rewrite <- Hst1.
    all: destruct (Z_lt_le_dec (store.size (st c1))
                (store.length (st c1) + (12 + len key + len (newValue value))))
      as [Hfull|Hfit].
    all: try (left; do 2 (split; [done|]); by rewrite (put_full _ _ _ Hfull)).
    all: right; do 2 (split; [done|]).
    all: destruct (put_room _ key (newValue value) Hsok1 Hfit) as
        (st' & Hput & Hst' & Hlen' & Hdel' & Hsz' & Hnew' & Hpres).
    all: rewrite Hput; eexists; (split; [reflexivity|]).
    all: split; [|unfold Checksum; cbn; by rewrite Hck1].
    all: split; [apply wf_withChecksum;
                 apply (wf_insert c1 st' j (filing h64) _ key (newValue value)); done|].
    all: split; [apply (stored_new c1 st' j (filing h64) _ key (newValue value)); done|].
    all: split; [|split; [exact Hlen'|exact Hdel']].
    all: intros h' k' v' Hne;
         apply (stored_others c1 st' j (filing h64) _ key (newValue value)); try done;
         by left.
Qed.

(** * Reachable maps *)

Lemma wf_New (log2size sizeLimit : Z) (path : string) (size : Z) :
  0 <= log2size <= 32 -> sizeLimit <= 2 ^ 32 -> 0 <= size <= 2 ^ 32 ->
  wf (New log2size sizeLimit path size).
Proof.
  intros HL Hlim Hsize.
  destruct (newHashMap_ok log2size sizeLimit HL Hlim) as (Hok & Hpaths).
  split; [exact Hok|]. split; [exact Hpaths|]. split.
  { split; [|split; [cbn; lia|cbn; lia]]. cbn. unfold len. rewrite repeat_length. lia. }
  split.
  - intros i Hi Hoc. cbn [hm New] in Hoc. rewrite newHashMap_bucket in Hoc. by destruct Hoc.
  - intros i j k Hi Hj Hoc. cbn [hm New] in Hoc. rewrite newHashMap_bucket in Hoc.
    by destruct Hoc.
Qed.

Lemma wf_Set (c : PMap) (h64 : Z) (key value : list byte) (c' : PMap) (err : option error) :
  wf c -> Set_ c h64 key value = Ret (c', err) -> wf c'.
Proof.
  intros Hwf Hset.
  destruct (Z_lt_le_dec (len value) 8) as [Hshort|Hlong].
  { unfold Set_ in Hset. destruct (len value <? 8) eqn:E; [|lia]. by inversion Hset; subst. }
  destruct (Set_cases c h64 key value Hwf Hlong) as
    [(_ & _ & E)|(c1 & _ & (Hwf1 & _) &
        [(_ & [(_ & E)|(_ & c2 & E & (Hwf2 & _) & _)])
        |(v0 & _ & [(_ & E)|[(_ & _ & E)|(_ & _ & c2 & E & (Hwf2 & _) & _)]])])];
    rewrite E in Hset; inversion Hset; subst; done.
Qed.

Lemma wf_CAS (c : PMap) (h64 : Z) (key value : list byte) (c' : PMap) (err : option error) :
  wf c -> CAS c h64 key value = Ret (c', err) -> wf c'.
Proof.
  intros Hwf Hcas.
  destruct (Z_lt_le_dec (len value) 24) as [Hshort|Hlong].
  { unfold CAS in Hcas. destruct (len value <? 24) eqn:E; [|lia]. by inversion Hcas; subst. }
  destruct (CAS_cases c h64 key value Hwf Hlong) as
    [(_ & _ & E)|(c1 & _ & (Hwf1 & _) &
        [(_ & [(_ & _ & E)|[(_ & _ & E)|(_ & _ & c2 & E & (Hwf2 & _) & _)]])
        |(v0 & _ & [(_ & E)|[(_ & _ & E)|[(_ & _ & _ & E)
                   |(_ & _ & _ & c2 & E & (Hwf2 & _) & _)]]])])];
    rewrite E in Hcas; inversion Hcas; subst; try done.
Qed.

Lemma wf_Del (c : PMap) (h64 : Z) (key value : list byte) (c' : PMap) (err : option error) :
  wf c -> Del c h64 key value = Ret (c', err) -> wf c'.
Proof.
  intros Hwf Hdel.
  destruct (Del_cases c h64 key value Hwf) as
    [(_ & E)|(v0 & _ & [(_ & E)|[(_ & _ & E)
                        |(_ & _ & c2 & e2 & E & (Hwf2 & _) & _)]])];
    rewrite E in Hdel; inversion Hdel; subst; done.
Qed.

Lemma wf_reachable (c : PMap) : reachable c -> wf c.
Proof.
  induction 1 as [L lim p sz HL Hlim Hsz|c h64 k v c' e _ IH Hs
                 |c h64 k v c' e _ IH Hs|c h64 k v c' e _ IH Hs].
  - by apply wf_New.
  - by apply (wf_Set c h64 k v c' e).
  - by apply (wf_CAS c h64 k v c' e).
  - by apply (wf_Del c h64 k v c' e).
Qed.

(** On a well-formed map, [Get] under the hash the mutators file a key
    under returns a value exactly when the map holds it. *)
Lemma Get_filing (c : PMap) (h64 : Z) (key v : list byte) :
  wf c ->
  (Get c (filing h64) key = Ret (Some v, None) <-> holds c (filing h64) key v).
Proof.
  intros Hwf. pose proof (filing_range h64) as Hr.
  pose proof (filing_occupied h64 0) as (_ & Hd). cbn [fst] in Hd.
  split.
  - intros Hg. destruct (Get_decided c Hwf (filing h64) key Hr Hd) as
      [(v' & Hh & E)|(_ & E)]; rewrite E in Hg; inversion Hg; by subst.
  - by apply Get_holds.
Qed.

Lemma Get_filing_None (c : PMap) (h64 : Z) (key : list byte) :
  wf c ->
  (Get c (filing h64) key = Ret (None, None) <-> forall v, ~ holds c (filing h64) key v).
Proof.
  intros Hwf. pose proof (filing_range h64) as Hr.
  pose proof (filing_occupied h64 0) as (_ & Hd). cbn [fst] in Hd.
  split.
  - intros Hg v Hh. rewrite (Get_holds c Hwf _ _ _ Hh) in Hg. discriminate.
  - intros Hno. by apply Get_not_held.
Qed.

(** * Workloads of Sets *)

Lemma digest_empty (H : list byte -> Z) : digest H ∅ = 0.
Proof. unfold digest. by rewrite map_fold_empty. Qed.

Lemma digest_insert (H : list byte -> Z) (m : gmap (list byte) (list byte))
  (k v : list byte) :
  m !! k = None ->
  digest H (<[k := v]> m) = Z.lxor (Z.lxor (H k) (stamp v)) (digest H m).
Proof.
  intros Hk. unfold digest.
  apply (map_fold_insert_L (fun k v acc => Z.lxor (Z.lxor (H k) (stamp v)) acc)); [|done].
  intros j1 j2 z1 z2 y _ _ _. cbv beta.
  set (a := Z.lxor (H j1) (stamp z1)). set (b := Z.lxor (H j2) (stamp z2)).
  by rewrite <- (Z.lxor_assoc a b y), <- (Z.lxor_assoc b a y), (Z.lxor_comm a b).
Qed.

Lemma digest_replace (H : list byte -> Z) (m : gmap (list byte) (list byte))
  (k v0 v : list byte) :
  m !! k = Some v0 ->
  digest H (<[k := v]> m)
  = Z.lxor (Z.lxor (digest H m) (Z.lxor (H k) (stamp v0))) (Z.lxor (H k) (stamp v)).
Proof.
  intros Hk.
  rewrite <- (insert_delete_eq m k v).
  rewrite digest_insert by apply lookup_delete_eq.
  rewrite <- (insert_delete_id m k v0 Hk) at 2.
  rewrite digest_insert by apply lookup_delete_eq.
  set (D := digest H (delete k m)). set (a := Z.lxor (H k) (stamp v0)).
  set (b := Z.lxor (H k) (stamp v)).
  rewrite (Z.lxor_comm a D), (Z.lxor_assoc D a a), Z.lxor_nilpotent, Z.lxor_0_r.
  apply Z.lxor_comm.
Qed.

(** ** The merge does not depend on the order *)

Lemma lww_snoc (ops : list (list byte * list byte)) (op : list byte * list byte) :
  lww (ops ++ [op]) = lww_step (lww ops) op.
Proof. unfold lww. by rewrite foldl_app. Qed.

Lemma lww_step_other (m : gmap (list byte) (list byte)) (op : list byte * list byte)
  (k : list byte) :
  k <> fst op -> lww_step m op !! k = m !! k.
Proof.
  intros Hne. unfold lww_step.
  destruct (m !! fst op) as [old|]; [destruct (instant (snd op) <=? instant old)|];
    try done; by rewrite lookup_insert_ne.
Qed.

Lemma lww_None (ops : list (list byte * list byte)) (k v : list byte) :
  lww ops !! k = None -> (k, v) ∉ ops.
Proof.
  induction ops as [|op ops IH] using rev_ind; intros Hn Hin.
  - by apply elem_of_nil in Hin.
  - rewrite lww_snoc in Hn. apply elem_of_app in Hin as [Hin|Hin].
    + destruct (decide (k = fst op)) as [->|Hne].
      * unfold lww_step in Hn. destruct (lww ops !! fst op) as [old|] eqn:E.
        -- destruct (instant (snd op) <=? instant old).
           ++ by rewrite E in Hn.
           ++ by rewrite lookup_insert_eq in Hn.
        -- by rewrite lookup_insert_eq in Hn.
      * rewrite lww_step_other in Hn by done. by apply IH.
    + apply list_elem_of_singleton in Hin. subst op.
      unfold lww_step in Hn. cbn [fst snd] in Hn.
      destruct (lww ops !! k) as [old|] eqn:E.
      * destruct (instant v <=? instant old).
        -- by rewrite E in Hn.
        -- by rewrite lookup_insert_eq in Hn.
      * by rewrite lookup_insert_eq in Hn.
Qed.

(** What the merge holds for a key was written for that key, and no write
    for that key is newer. *)
Lemma lww_Some (ops : list (list byte * list byte)) (k v : list byte) :
  lww ops !! k = Some v ->
  (k, v) ∈ ops /\ forall v', (k, v') ∈ ops -> instant v' <= instant v.
Proof.
  revert v. induction ops as [|op ops IH] using rev_ind; intros v Hl.
  - unfold lww in Hl. simpl in Hl. by rewrite lookup_empty in Hl.
  - rewrite lww_snoc in Hl. destruct op as [k0 v0].
    destruct (decide (k = k0)) as [->|Hne].
    + unfold lww_step in Hl. cbn [fst snd] in Hl.
      destruct (lww ops !! k0) as [old|] eqn:Eold.
      * destruct (IH old eq_refl) as (Hin & Hmax).
        destruct (instant v0 <=? instant old) eqn:Ecmp.
        -- rewrite Eold in Hl. inversion Hl; subst v. split.
           ++ apply elem_of_app. by left.
           ++ intros v' Hv'. apply elem_of_app in Hv' as [Hv'|Hv'].
              ** by apply Hmax.
              ** apply list_elem_of_singleton in Hv'. inversion Hv'; subst. lia.
        -- rewrite lookup_insert_eq in Hl. inversion Hl; subst v. split.
           ++ apply elem_of_app. right. by apply list_elem_of_singleton.
           ++ intros v' Hv'. apply elem_of_app in Hv' as [Hv'|Hv'].
              ** specialize (Hmax v' Hv'). lia.
              ** apply list_elem_of_singleton in Hv'. inversion Hv'; subst. lia.
      * rewrite lookup_insert_eq in Hl. inversion Hl; subst v. split.
        -- apply elem_of_app. right. by apply list_elem_of_singleton.
        -- intros v' Hv'. apply elem_of_app in Hv' as [Hv'|Hv'].
           ++ exfalso. by apply (lww_None ops k0 v' Eold).
           ++ apply list_elem_of_singleton in Hv'. inversion Hv'; subst. lia.
    + rewrite lww_step_other in Hl by done.
      destruct (IH v Hl) as (Hin & Hmax). split.
      * apply elem_of_app. by left.
      * intros v' Hv'. apply elem_of_app in Hv' as [Hv'|Hv']; [by apply Hmax|].
        apply list_elem_of_singleton in Hv'. inversion Hv'; subst. done.
Qed.

Lemma distinct_stamps_spec (ops : list (list byte * list byte)) (k v v' : list byte) :
  distinct_stamps ops -> (k, v) ∈ ops -> (k, v') ∈ ops ->
  instant v = instant v' -> v = v'.
Proof.
  intros Hd H1 H2 Hi. unfold distinct_stamps in Hd.
  rewrite Forall_forall in Hd. specialize (Hd _ H1).
  rewrite Forall_forall in Hd. by apply (Hd _ H2).
Qed.

Lemma lww_permutation (ops ops' : list (list byte * list byte)) :
  distinct_stamps ops -> ops ≡ₚ ops' -> lww ops = lww ops'.
Proof.
  intros Hd Hp. apply map_eq. intros k.
  destruct (lww ops !! k) as [v|] eqn:E1, (lww ops' !! k) as [v'|] eqn:E2; try done.
  - destruct (lww_Some _ _ _ E1) as (Hin & Hmax).
    destruct (lww_Some _ _ _ E2) as (Hin' & Hmax').
    assert (Hin2 : (k, v') ∈ ops) by (by rewrite Hp).
    assert (Hin3 : (k, v) ∈ ops') by (by rewrite <- Hp).
    pose proof (Hmax _ Hin2). pose proof (Hmax' _ Hin3).
    f_equal. apply (distinct_stamps_spec ops k); try done. lia.
  - destruct (lww_Some _ _ _ E1) as (Hin & _).
    exfalso. apply (lww_None ops' k v E2). by rewrite <- Hp.
  - destruct (lww_Some _ _ _ E2) as (Hin & _).
    exfalso. apply (lww_None ops k v' E1). by rewrite Hp.
Qed.

(** ** A map under a workload of Sets *)

Lemma represents_New (H : list byte -> Z) (log2size sizeLimit : Z) (path : string)
  (size : Z) :
  0 <= log2size <= 32 -> sizeLimit <= 2 ^ 32 -> 0 <= size <= 2 ^ 32 ->
  represents H (New log2size sizeLimit path size) ∅.
Proof.
  intros HL Hlim Hsize. split; [by apply wf_New|]. split.
  - intros h k v. split.
    + intros (i & off & (Hi & Hb & Hoc & _) & _). cbn [hm New] in Hb.
      rewrite newHashMap_bucket in Hb. inversion Hb; subst. by destruct Hoc.
    + intros (_ & Hl). by rewrite lookup_empty in Hl.
  - by rewrite digest_empty.
Qed.

Lemma represents_Set (H : list byte -> Z) (c c' : PMap)
  (m : gmap (list byte) (list byte)) (k v : list byte) :
  represents H c m ->
  Set_ c (H k) k v = Ret (c', None) ->
  represents H c' (lww_step m (k, v)).
Proof.
  intros (Hwf & Hm & Hck) Hset.
  assert (Hlen : 8 <= len v).
  { destruct (Z_lt_le_dec (len v) 8) as [Hs|Hl]; [|done].
    unfold Set_ in Hset. destruct (len v <? 8) eqn:E; [discriminate|lia]. }
  assert (Hstored : forall c1 c2 v0,
            regrouped c c1 -> stored c1 c2 (filing (H k)) k v ->
            m !! k = v0 ->
            (match v0 with
             | Some old => Checksum c2 = Z.lxor (Z.lxor (Checksum c)
                                                   (Z.lxor (H k) (stamp old)))
                                           (Z.lxor (H k) (stamp v))
             | None => Checksum c2 = Z.lxor (Checksum c) (Z.lxor (H k) (stamp v))
             end) ->
            represents H c2 (<[k := v]> m)).
  { intros c1 c2 v0 (Hwf1 & _ & _ & _ & Hsame) (Hwf2 & Hnew & Hothers & _) Hv0 Hsum.
    split; [done|]. split.
    - intros h' k' v'. destruct (decide ((h', k') = (filing (H k), k))) as [E|Hne].
      + inversion E; subst h' k'. rewrite lookup_insert_eq. split.
        * intros Hh. split; [done|]. f_equal.
          by apply (holds_functional c2 Hwf2 (filing (H k)) k).
        * intros (_ & Hv). inversion Hv; by subst.
      + rewrite (Hothers h' k' v' Hne), Hsame, Hm. split.
        * intros (-> & Hl). split; [done|].
          rewrite lookup_insert_ne; [done|]. intros ->. by apply Hne.
        * intros (-> & Hl). split; [done|].
          rewrite lookup_insert_ne in Hl; [done|]. intros ->. by apply Hne.
    - destruct v0 as [old|].
      + rewrite Hsum, Hck. symmetry. by apply digest_replace.
      + rewrite Hsum, Hck, digest_insert by done. apply Z.lxor_comm. }
  destruct (Set_cases c (H k) k v Hwf Hlen) as
    [(_ & _ & E)|(c1 & _ & Hre &
        [(Hno & [(_ & E)|(_ & c2 & E & Hst & Hsum)])
        |(v0 & Hh & [(Hold & E)|[(_ & _ & E)|(Hnew & _ & c2 & E & Hst & Hsum)]])])];
    rewrite E in Hset; inversion Hset; subst; clear Hset.
  - assert (Hn : m !! k = None).
    { destruct (m !! k) as [old|] eqn:Eo; [|done].
      exfalso. apply (Hno old). apply Hm. by split. }
    unfold lww_step. cbn [fst snd]. rewrite Hn.
    by apply (Hstored c1 c' None).
  - assert (Hs : m !! k = Some v0) by (by apply Hm in Hh as (_ & Hh)).
    unfold lww_step. cbn [fst snd]. rewrite Hs.
    destruct (instant v <=? instant v0) eqn:Ecmp; [|lia].
    destruct Hre as (Hwf1 & _ & Hck1 & _ & Hsame).
    split; [done|]. split.
    + intros h' k' v'. by rewrite Hsame.
    + unfold Checksum in *. by rewrite Hck1.
  - assert (Hs : m !! k = Some v0) by (by apply Hm in Hh as (_ & Hh)).
    unfold lww_step. cbn [fst snd]. rewrite Hs.
    destruct (instant v <=? instant v0) eqn:Ecmp; [lia|].
    by apply (Hstored c1 c' (Some v0)).
Qed.

Lemma represents_applySets (H : list byte -> Z) (ops : list (list byte * list byte)) :
  forall c c' m,
    represents H c m -> applySets H c ops = Some c' ->
    represents H c' (foldl lww_step m ops).
Proof.
  induction ops as [|[k v] ops IH]; intros c c' m Hr Ha.
  - cbn in Ha. inversion Ha; by subst.
  - cbn [applySets] in Ha.
    destruct (Set_ c (H k) k v) as [[c1 [e|]]| |] eqn:E; try discriminate.
    cbn [foldl]. apply (IH c1 c'); [|done]. by apply (represents_Set H c c1 m k v).
Qed.

(** * Scenarios evaluated on the code *)

(** C1.  [Set] of the key "ydojwsz" under its FNV-1a hash succeeds on a
    fresh map, and the [Get] that follows, under the low 32 bits of the same
    hash, returns nil instead of the value: the hash ends in [emptyBucket],
    [Set] files the key under the remapped hash and [Get] probes with the
    raw one. *)
Theorem Get_after_Set_sentinel_hash :
  wrap32 (FNV1a64 (bs keyE)) = hashmap.emptyBucket /\
  exists c,
    setKey keyE (ts 1000 ++ bs "X") fresh = Ret (c, None) /\
    hashmap.table (hm c)
      = [(hashmap.emptyBucket, 0); (1, 0);
         (hashmap.emptyBucket, 0); (hashmap.emptyBucket, 0)] /\
    getKey keyE c = Ret (None, None).
Proof.
  split; [vm_compute; reflexivity|].
  exists (after (ok (setKey keyE (ts 1000 ++ bs "X") fresh))).
  split; [vm_compute; reflexivity|].
  split; vm_compute; reflexivity.
Qed.

(** C3.  On a fresh map, where the key "c" is absent, [CAS] succeeds with
    expected timestamp 5 (and the hash of the empty payload), and it
    succeeds with expected timestamp 0 and an arbitrary expected hash; it
    fails only when both tests fail.  The new record is then read by
    [Get]. *)
Theorem CAS_absent_needs_one_test_only :
  (exists c,
     casKey "c" (casValue 5 (FNV1a64 []) 100 (bs "hello")) fresh = Ret (c, None) /\
     getKey "c" c = Ret (Some (ts 100 ++ bs "hello"), None)) /\
  (exists c,
     casKey "c" (casValue 0 12345 100 (bs "hello")) fresh = Ret (c, None) /\
     getKey "c" c = Ret (Some (ts 100 ++ bs "hello"), None)) /\
  casKey "c" (casValue 5 12345 100 (bs "hello")) fresh
    = Ret (fresh, Some ErrCASEmptyPair).
Proof.
  split; [|split].
  - exists (after (ok (casKey "c" (casValue 5 (FNV1a64 []) 100 (bs "hello")) fresh))).
    split; vm_compute; reflexivity.
  - exists (after (ok (casKey "c" (casValue 0 12345 100 (bs "hello")) fresh))).
    split; vm_compute; reflexivity.
  - vm_compute; reflexivity.
Qed.

(** C4.  Scenario S2: "a" is inserted with a 9-byte value, an older write
    is discarded, a newer 9-byte value overwrites it.  Afterwards [Used] is
    44 and [Deleted] is still 0, not 22; a [CAS] that then replaces the
    record leaves [Deleted] at 0 as well.  Re-opening the file of the S2
    map counts the shadowed record: [Deleted] is 22 there. *)
Theorem S2_overwrite_leaves_Deleted_unchanged :
  exists c1 c2 c3 c4 c5,
    setKey "a" (ts 1000 ++ bs "X") fresh = Ret (c1, None) /\
    setKey "a" (ts 500 ++ bs "Y") c1 = Ret (c2, None) /\
    setKey "a" (ts 2000 ++ bs "Z") c2 = Ret (c3, None) /\
    getKey "a" c3 = Ret (Some (ts 2000 ++ bs "Z"), None) /\
    Used c3 = 44 /\ Deleted c3 = 0 /\
    casKey "a" (casValue 2000 (FNV1a64 (bs "Z")) 3000 (bs "W")) c3 = Ret (c4, None) /\
    getKey "a" c4 = Ret (Some (ts 3000 ++ bs "W"), None) /\
    Used c4 = 66 /\ Deleted c4 = 0 /\
    Open 2 1024 "" (Close c3) = Ret c5 /\
    Used c5 = 44 /\ Deleted c5 = 22.
Proof.
  pose (c1 := after (ok (setKey "a" (ts 1000 ++ bs "X") fresh))).
  pose (c2 := after (ok (setKey "a" (ts 500 ++ bs "Y") c1))).
  pose (c3 := after (ok (setKey "a" (ts 2000 ++ bs "Z") c2))).
  exists c1, c2, c3.
  exists (after (ok (casKey "a" (casValue 2000 (FNV1a64 (bs "Z")) 3000 (bs "W")) c3))).
  exists (match Open 2 1024 "" (Close c3) with Ret c => c | _ => fresh end).
  repeat (split; [vm_compute; reflexivity|]).
  vm_compute; reflexivity.
Qed.

(** C5.  The key "xnmozm", whose hash ends in [deletedBucket], is stored
    in bucket 0; "c" and "d" fill buckets 2 and 3.  [Del] of "xnmozm" with
    a newer timestamp succeeds, adds 12 + 6 + 9 to [Deleted], turns bucket 0
    into a deleted bucket and appends a tombstone; yet the [Get] that
    follows returns the deleted value, and [Iterate] yields the key. *)
Theorem Get_after_Del_reads_deleted_bucket :
  wrap32 (FNV1a64 (bs keyD)) = hashmap.deletedBucket /\
  exists c0 c1,
    thenDo (thenDo (ok (setKey keyD (ts 10 ++ bs "v") fresh))
              (setKey "c" (ts 11 ++ bs "v")))
      (setKey "d" (ts 12 ++ bs "v")) = Some c0 /\
    delKey keyD (ts 20) c0 = Ret (c1, None) /\
    Deleted c1 = Deleted c0 + (12 + 6 + 9) /\
    Used c1 = Used c0 + (12 + 6) /\
    hashmap.getHash (hm c1) 0 = hashmap.deletedBucket /\
    getKey keyD c1 = Ret (Some (ts 10 ++ bs "v"), None) /\
    Iterate c1 everything
      = Ret [(bs keyD, ts 10 ++ bs "v"); (bs "c", ts 11 ++ bs "v");
             (bs "d", ts 12 ++ bs "v")].
Proof.
  split; [vm_compute; reflexivity|].
  pose (c0 := after (thenDo (thenDo (ok (setKey keyD (ts 10 ++ bs "v") fresh))
                               (setKey "c" (ts 11 ++ bs "v")))
                       (setKey "d" (ts 12 ++ bs "v")))).
  exists c0, (after (ok (delKey keyD (ts 20) c0))).
  repeat (split; [vm_compute; reflexivity|]).
  vm_compute; reflexivity.
Qed.

(** C6.  The workload [Set("", ts 1000 X); Set("a", ts 2000 Y)] succeeds on
    a fresh map, which then reads both keys, iterates over both and has a
    non-zero checksum.  The map opened on its file is empty: the replay
    stops at offset 0, where the frame of the empty key has keyLen 0. *)
Theorem Open_stops_at_empty_key :
  exists c c',
    thenDo (ok (setKey "" (ts 1000 ++ bs "X") fresh))
      (setKey "a" (ts 2000 ++ bs "Y")) = Some c /\
    getKey "a" c = Ret (Some (ts 2000 ++ bs "Y"), None) /\
    getKey "" c = Ret (Some (ts 1000 ++ bs "X"), None) /\
    Iterate c everything
      = Ret [(bs "", ts 1000 ++ bs "X"); (bs "a", ts 2000 ++ bs "Y")] /\
    Checksum c <> 0 /\
    Open 2 1024 "" (Close c) = Ret c' /\
    getKey "a" c' = Ret (None, None) /\
    getKey "" c' = Ret (None, None) /\
    Iterate c' everything = Ret [] /\
    Checksum c' = 0 /\
    Used c' = 0.
Proof.
  pose (c := after (thenDo (ok (setKey "" (ts 1000 ++ bs "X") fresh))
                      (setKey "a" (ts 2000 ++ bs "Y")))).
  exists c, (match Open 2 1024 "" (Close c) with Ret c' => c' | _ => c end).
  repeat (split; [vm_compute; first [reflexivity | discriminate]|]).
  vm_compute; reflexivity.
Qed.

(** C8.  [Set] probes for the remapped hash and [Get] for the raw one: a
    key filed by [Set] under a 64-bit hash whose low 32 bits are
    [emptyBucket] or [deletedBucket] sits in a bucket with hash 1 or 0, and
    [Get], given those low 32 bits, does not find it. *)
Theorem Get_probes_with_the_raw_hash :
  hashmap.hashReMap hashmap.emptyBucket = 1 /\
  hashmap.hashReMap hashmap.deletedBucket = 0 /\
  (exists c,
     Set_ fresh hashmap.emptyBucket (bs "k") (ts 1 ++ bs "v") = Ret (c, None) /\
     hashmap.bucket (hm c) 1 = (1, 0) /\
     Get c hashmap.emptyBucket (bs "k") = Ret (None, None) /\
     Get c (hashmap.hashReMap hashmap.emptyBucket) (bs "k")
       = Ret (Some (ts 1 ++ bs "v"), None)) /\
  (exists c,
     Set_ fresh hashmap.deletedBucket (bs "k") (ts 1 ++ bs "v") = Ret (c, None) /\
     hashmap.bucket (hm c) 0 = (0, 0) /\
     Get c hashmap.deletedBucket (bs "k") = Ret (None, None) /\
     Get c (hashmap.hashReMap hashmap.deletedBucket) (bs "k")
       = Ret (Some (ts 1 ++ bs "v"), None)).
Proof.
  split; [reflexivity|]. split; [reflexivity|].
  split.
  - exists (after (ok (Set_ fresh hashmap.emptyBucket (bs "k") (ts 1 ++ bs "v")))).
    repeat (split; [vm_compute; reflexivity|]).
    vm_compute; reflexivity.
  - exists (after (ok (Set_ fresh hashmap.deletedBucket (bs "k") (ts 1 ++ bs "v")))).
    repeat (split; [vm_compute; reflexivity|]).
    vm_compute; reflexivity.
Qed.

(** C9.  After the single [Set] of "ydojwsz" the log holds one frame, with
    that key and a 9-byte value, bucket 1 refers to it, and nothing was
    deleted: the pair is live.  [Iterate] and [BackwardsIterate] yield
    nothing, because [isPresent] looks the key up with the raw hash. *)
Theorem Iterate_misses_live_key :
  exists c,
    setKey keyE (ts 1000 ++ bs "X") fresh = Ret (c, None) /\
    Used c = 12 + 7 + 9 /\
    store.key (st c) 0 = Ret (bs keyE) /\
    (exists v, store.val (st c) 0 = Ret v /\ elems v = ts 1000 ++ bs "X") /\
    hashmap.bucket (hm c) 1
      = (hashmap.hashReMap (wrap32 (FNV1a64 (bs keyE))), 0) /\
    isPresent c 0 = Ret false /\
    Iterate c everything = Ret [] /\
    BackwardsIterate c everything = Ret [].
Proof.
  pose (c := after (ok (setKey keyE (ts 1000 ++ bs "X") fresh))).
  exists c.
  split; [vm_compute; reflexivity|].
  split; [vm_compute; reflexivity|].
  split; [vm_compute; reflexivity|].
  split.
  { exists (match store.val (st c) 0 with Ret v => v | _ => tight [] end).
    split; vm_compute; reflexivity. }
  repeat (split; [vm_compute; reflexivity|]).
  vm_compute; reflexivity.
Qed.

(** C7, scenario S6.  The operations Set("a", ts 1, "X"), Set("b", ts 2,
    "Y") and Del("a", ts 3) all succeed in either order below, and the two
    checksums differ: a [Del] that comes before the [Set] of its key finds
    no key and leaves no trace, so "a" stays in the map. *)
Lemma S6_checksum_depends_on_order :
  exists c c',
    thenDo (thenDo (ok (setKey "a" (ts 1 ++ bs "X") fresh))
              (setKey "b" (ts 2 ++ bs "Y")))
      (delKey "a" (ts 3)) = Some c /\
    thenDo (thenDo (ok (delKey "a" (ts 3) fresh))
              (setKey "a" (ts 1 ++ bs "X")))
      (setKey "b" (ts 2 ++ bs "Y")) = Some c' /\
    getKey "a" c = Ret (None, None) /\
    getKey "a" c' = Ret (Some (ts 1 ++ bs "X"), None) /\
    Checksum c <> Checksum c'.
Proof.
  exists (after (thenDo (thenDo (ok (setKey "a" (ts 1 ++ bs "X") fresh))
                           (setKey "b" (ts 2 ++ bs "Y")))
                   (delKey "a" (ts 3)))).
  exists (after (thenDo (thenDo (ok (delKey "a" (ts 3) fresh))
                           (setKey "a" (ts 1 ++ bs "X")))
                   (setKey "b" (ts 2 ++ bs "Y")))).
  repeat (split; [vm_compute; reflexivity|]).
  vm_compute; discriminate.
Qed.

(** C2 at a full index.  Three keys are set in a map whose index of four
    buckets is at its limit; "a" holds ts(1000) X.  The [Set] of the older
    ts(500) Y for "a" is stopped by the guard in front of the probing loop:
    it returns the error of the expansion, not nil, and leaves the map as
    it was. *)
Lemma Set_older_write_on_full_index :
  thenDo (thenDo (ok (setKey "a" (ts 1000 ++ bs "X") (New 2 4 "" 256)))
            (setKey "b" (ts 1001 ++ bs "Y")))
    (setKey "c" (ts 1002 ++ bs "Z")) = Some full /\
  getKey "a" full = Ret (Some (ts 1000 ++ bs "X"), None) /\
  instant (ts 500 ++ bs "Y") <= instant (ts 1000 ++ bs "X") /\
  setKey "a" (ts 500 ++ bs "Y") full = Ret (full, Some ErrTableTooLarge) /\
  setKey "a" (ts 500 ++ bs "Y") full <> Ret (full, None).
Proof.
  repeat (split; [vm_compute; reflexivity || (intros HH; discriminate HH)|]).
  vm_compute. intros HH. discriminate HH.
Qed.

(** * Theorems on every reachable map *)

Lemma reachable_fresh : reachable fresh.
Proof. apply reach_New; done. Defined.

Lemma reachable_afterS1 : reachable afterS1.
Proof.
  apply (reach_Set fresh (FNV1a64 (bs "a")) (bs "a") (ts 1000 ++ bs "X") afterS1 None).
  - exact reachable_fresh.
  - vm_compute. reflexivity.
Defined.

(** C2, amended.  LWW discard on Set.  On a reachable map in which [key]
    is present with the stored value [old] (the [Get] under the hash [Set]
    files the key under returns it), take a [Set] of a value of at least 8
    bytes whose timestamp is not newer than that of [old].  When the index
    is below its expansion threshold or may still double, the [Set] returns
    a nil error; checksum, used and deleted bytes are unchanged, [Get]
    returns what it returned before for every key (under every hash but the
    [deletedBucket] sentinel), in particular [old] for [key], and when the
    index did not grow the map is unchanged altogether.  When the index is
    at its threshold and may not double, the [Set] returns the error of the
    expansion and the map is unchanged. *)
Theorem Set_discards_older_write
  (c : PMap) (h64 : Z) (key value old : list byte) :
  reachable c ->
  8 <= len value ->
  Get c (filing h64) key = Ret (Some old, None) ->
  instant value <= instant old ->
  ((hashmap.numStoredKeys (hm c) < hashmap.numKeysToExpand (hm c) \/
    2 ^ (hashmap.log2size (hm c) + 1) <= hashmap.sizeLimit (hm c)) ->
   exists c',
     Set_ c h64 key value = Ret (c', None) /\
     Checksum c' = Checksum c /\ Used c' = Used c /\ Deleted c' = Deleted c /\
     (forall h32 k, wrap32 h32 <> hashmap.deletedBucket -> Get c' h32 k = Get c h32 k) /\
     Get c' (filing h64) key = Ret (Some old, None) /\
     (hashmap.numStoredKeys (hm c) < hashmap.numKeysToExpand (hm c) -> c' = c))
  /\
  (hashmap.numKeysToExpand (hm c) <= hashmap.numStoredKeys (hm c) ->
   hashmap.sizeLimit (hm c) < 2 ^ (hashmap.log2size (hm c) + 1) ->
   Set_ c h64 key value = Ret (c, Some ErrTableTooLarge)).
Proof.
  intros Hreach Hlen Hget Hts.
  pose proof (wf_reachable c Hreach) as Hwf.
  apply (Get_filing c h64 key old Hwf) in Hget.
  split.
  - intros Hgrow.
    destruct (Set_cases c h64 key value Hwf Hlen) as
      [(Hn & Hl & _)|(c1 & Hcs & Hre & [(Hno & _)|(v0 & Hh & Hcases)])].
    + lia.
    + by destruct (Hno old).
    + assert (v0 = old) by (by apply (holds_functional c Hwf (filing h64) key)). subst v0.
      destruct Hcases as [(_ & E)|[(Hnew & _)|(Hnew & _)]]; try lia.
      exists c1. split; [done|].
      pose proof Hre as (Hwf1 & Hst1 & Hck1 & _ & Hsame).
      split; [unfold Checksum; by rewrite Hck1|].
      split; [unfold Used; by rewrite Hst1|].
      split; [unfold Deleted; by rewrite Hst1|].
      split; [intros h32 k Hd; by apply Get_regrouped|].
      split.
      * apply Get_filing; [done|]. by apply Hsame.
      * intros Hroom.
        destruct (checkSpace_cases c Hwf) as
          [(_ & Ec)|[(Hn & _)|(Hn & _)]]; try lia.
        rewrite Ec in Hcs. by inversion Hcs.
  - intros Hfull Hlimit.
    destruct (Set_cases c h64 key value Hwf Hlen) as
      [(_ & _ & E)|(c1 & Hcs & _)]; [done|].
    destruct (checkSpace_cases c Hwf) as
      [(Hn & _)|[(_ & _ & Ec)|(_ & Hn & _)]]; try lia.
    rewrite Ec in Hcs. discriminate Hcs.
Qed.


(** C7, amended.  Two fresh maps to which the same writes [(key, value)]
    are applied by [Set] in two orders, each key always with the hash
    [H key], every [Set] returning a nil error, have equal checksums,
    provided no two writes to the same key share a timestamp. *)
Theorem Checksum_of_Sets_is_order_invariant
  (H : list byte -> Z)
  (log2size sizeLimit : Z) (path : string) (size : Z)
  (log2size' sizeLimit' : Z) (path' : string) (size' : Z)
  (ops ops' : list (list byte * list byte)) (c c' : PMap) :
  0 <= log2size <= 32 -> sizeLimit <= 2 ^ 32 -> 0 <= size <= 2 ^ 32 ->
  0 <= log2size' <= 32 -> sizeLimit' <= 2 ^ 32 -> 0 <= size' <= 2 ^ 32 ->
  ops ≡ₚ ops' ->
  distinct_stamps ops ->
  applySets H (New log2size sizeLimit path size) ops = Some c ->
  applySets H (New log2size' sizeLimit' path' size') ops' = Some c' ->
  Checksum c = Checksum c'.
Proof.
  intros HL Hlim Hsize HL' Hlim' Hsize' Hperm Hd Ha Ha'.
  pose proof (represents_applySets H ops _ _ _
                (represents_New H _ _ path _ HL Hlim Hsize) Ha) as (_ & _ & Hc).
  pose proof (represents_applySets H ops' _ _ _
                (represents_New H _ _ path' _ HL' Hlim' Hsize') Ha') as (_ & _ & Hc').
  rewrite Hc, Hc'. fold (lww ops) (lww ops'). by rewrite (lww_permutation ops ops').
Qed.

(** * The theorems at work *)

Lemma Set_discards_older_write_witness :
  reachable afterS1 /\
  8 <= len (ts 500 ++ bs "Y") /\
  Get afterS1 (filing (FNV1a64 (bs "a"))) (bs "a") = Ret (Some (ts 1000 ++ bs "X"), None) /\
  instant (ts 500 ++ bs "Y") <= instant (ts 1000 ++ bs "X") /\
  hashmap.numStoredKeys (hm afterS1) < hashmap.numKeysToExpand (hm afterS1) /\
  exists c',
    Set_ afterS1 (FNV1a64 (bs "a")) (bs "a") (ts 500 ++ bs "Y") = Ret (c', None) /\
    Checksum c' = Checksum afterS1 /\ Used c' = Used afterS1 /\
    Deleted c' = Deleted afterS1 /\
    (forall h32 k, wrap32 h32 <> hashmap.deletedBucket -> Get c' h32 k = Get afterS1 h32 k) /\
    Get c' (filing (FNV1a64 (bs "a"))) (bs "a") = Ret (Some (ts 1000 ++ bs "X"), None) /\
    (hashmap.numStoredKeys (hm afterS1) < hashmap.numKeysToExpand (hm afterS1) ->
     c' = afterS1).
Proof.
  assert (H1 : 8 <= len (ts 500 ++ bs "Y")) by (by vm_compute).
  assert (H2 : Get afterS1 (filing (FNV1a64 (bs "a"))) (bs "a")
               = Ret (Some (ts 1000 ++ bs "X"), None)) by (vm_compute; reflexivity).
  assert (H3 : instant (ts 500 ++ bs "Y") <= instant (ts 1000 ++ bs "X")) by (by vm_compute).
  assert (H4 : hashmap.numStoredKeys (hm afterS1) < hashmap.numKeysToExpand (hm afterS1))
    by (by vm_compute).
  split; [exact reachable_afterS1|]. split; [exact H1|]. split; [exact H2|].
  split; [exact H3|]. split; [exact H4|].
  exact (proj1 (Set_discards_older_write afterS1 _ _ _ _ reachable_afterS1 H1 H2 H3)
           (or_introl H4)).
Defined.


Lemma Checksum_of_Sets_is_order_invariant_witness :
  writes1 ≡ₚ writes2 /\
  distinct_stamps writes1 /\
  exists c c',
    applySets FNV1a64 fresh writes1 = Some c /\
    applySets FNV1a64 (New 3 64 "" 512) writes2 = Some c' /\
    Checksum c = Checksum c'.
Proof.
  assert (Hp : writes1 ≡ₚ writes2).
  { unfold writes1, writes2.
    etransitivity; [apply perm_skip, perm_swap|].
    etransitivity; [apply perm_swap|].
    apply perm_skip, perm_swap. }
  assert (Hd : distinct_stamps writes1).
  { apply (bool_decide_unpack _). vm_compute. exact I. }
  split; [exact Hp|]. split; [exact Hd|].
  exists (default fresh (applySets FNV1a64 fresh writes1)).
  exists (default fresh (applySets FNV1a64 (New 3 64 "" 512) writes2)).
  assert (Ha : applySets FNV1a64 fresh writes1
               = Some (default fresh (applySets FNV1a64 fresh writes1)))
    by (vm_compute; reflexivity).
  assert (Ha' : applySets FNV1a64 (New 3 64 "" 512) writes2
                = Some (default fresh (applySets FNV1a64 (New 3 64 "" 512) writes2)))
    by (vm_compute; reflexivity).
  split; [exact Ha|]. split; [exact Ha'|].
  exact (Checksum_of_Sets_is_order_invariant FNV1a64 2 1024 "" 256 3 64 "" 512
           writes1 writes2 _ _
           ltac:(lia) ltac:(lia) ltac:(lia) ltac:(lia) ltac:(lia) ltac:(lia)
           Hp Hd Ha Ha').
Defined.

(** * Further properties of the mutators *)

(** [Get] under a hash other than [deletedBucket] depends on what the map
    holds only. *)
Lemma Get_ext (c c' : PMap) (h32 : Z) (k : list byte) :
  wf c -> wf c' -> wrap32 h32 <> hashmap.deletedBucket ->
  (forall v, holds c' (wrap32 h32) k v <-> holds c (wrap32 h32) k v) ->
  Get c' h32 k = Get c h32 k.
Proof.
  intros Hwf Hwf' Hd Hsame.
  assert (Hr : 0 <= wrap32 h32 < 2 ^ 32) by (apply Z.mod_pos_bound; done).
  assert (Hg : forall c0, Get c0 h32 k = Get c0 (wrap32 h32) k).
  { intros c0. unfold Get. by rewrite (wrap32_id (wrap32 h32)). }
  rewrite (Hg c), (Hg c').
  destruct (Get_decided c Hwf (wrap32 h32) k Hr Hd) as [(v & Hh & ->)|(Hno & ->)].
  - apply Get_holds; [done|]. by apply Hsame.
  - apply Get_not_held; try done. intros v Hh. apply (Hno v). by apply Hsame.
Qed.

Lemma Set_short (c : PMap) (h64 : Z) (key value : list byte) :
  len value < 8 -> Set_ c h64 key value = Ret (c, Some ErrSetValueLen).
Proof. intros H. unfold Set_. destruct (len value <? 8) eqn:E; [done|lia]. Qed.

Lemma Set_nil_len (c c' : PMap) (h64 : Z) (key value : list byte) :
  Set_ c h64 key value = Ret (c', None) -> 8 <= len value.
Proof.
  intros H. destruct (Z_lt_le_dec (len value) 8) as [Hs|Hl]; [|done].
  rewrite (Set_short _ _ _ _ Hs) in H. discriminate H.
Qed.

Lemma regrouped_wf (c c1 : PMap) : regrouped c c1 -> wf c1.
Proof. by intros (H & _). Qed.

Lemma stored_Get (c1 c2 : PMap) (h64 : Z) (key value : list byte) :
  stored c1 c2 (filing h64) key value ->
  Get c2 (filing h64) key = Ret (Some value, None).
Proof. intros (Hwf2 & Hh & _). by apply Get_holds. Qed.

Lemma stored_Get_others (c c1 c2 : PMap) (h64 : Z) (key value : list byte)
  (h32 : Z) (k : list byte) :
  wf c -> regrouped c c1 -> stored c1 c2 (filing h64) key value ->
  wrap32 h32 <> hashmap.deletedBucket ->
  (wrap32 h32, k) <> (filing h64, key) ->
  Get c2 h32 k = Get c h32 k.
Proof.
  intros Hwf Hre (Hwf2 & _ & Hoth & _) Hd Hne.
  apply Get_ext; try done. intros v.
  rewrite (Hoth _ _ v Hne). by apply Hre.
Qed.

(** X1.  After a [Set] that returned nil, [Get] under the hash [Set] filed the
    key under returns the value set when the key was absent or held an
    older timestamp, and the value held before otherwise. *)
Theorem Get_after_Set (c c' : PMap) (h64 : Z) (key value : list byte) :
  reachable c ->
  Set_ c h64 key value = Ret (c', None) ->
  (Get c (filing h64) key = Ret (None, None) /\
   Get c' (filing h64) key = Ret (Some value, None))
  \/
  (exists old, Get c (filing h64) key = Ret (Some old, None) /\
     instant old < instant value /\
     Get c' (filing h64) key = Ret (Some value, None))
  \/
  (exists old, Get c (filing h64) key = Ret (Some old, None) /\
     instant value <= instant old /\
     Get c' (filing h64) key = Ret (Some old, None)).
Proof.
  intros Hreach Hset. pose proof (wf_reachable c Hreach) as Hwf.
  pose proof (Set_nil_len _ _ _ _ _ Hset) as Hlen.
  destruct (Set_cases c h64 key value Hwf Hlen) as
    [(_ & _ & E)|(c1 & Hcs & Hre & [(Hno & [(_ & E)|(_ & c2 & E & Hst & _)])
                                   |(v0 & Hh & [(Hold & E)|[(_ & _ & E)|(Hnew & _ & c2 & E & Hst & _)]])])];
    rewrite E in Hset; inversion Hset; subst c'.
  - left. split; [by apply Get_filing_None|]. by apply (stored_Get c1).
  - right. right. exists v0. split; [by apply Get_filing|]. split; [done|].
    apply Get_filing; [by apply (regrouped_wf c)|]. by apply Hre.
  - right. left. exists v0. split; [by apply Get_filing|]. split; [done|].
    by apply (stored_Get c1).
Qed.

(** X2.  A [Set], whatever it returns, leaves every other key as it was: [Get]
    for another key, or for the same key under another hash, returns what
    it returned before. *)
Theorem Set_keeps_other_keys (c c' : PMap) (err : option error)
  (h64 : Z) (key value : list byte) (h32 : Z) (k : list byte) :
  reachable c ->
  Set_ c h64 key value = Ret (c', err) ->
  wrap32 h32 <> hashmap.deletedBucket ->
  (wrap32 h32, k) <> (filing h64, key) ->
  Get c' h32 k = Get c h32 k.
Proof.
  intros Hreach Hset Hd Hne. pose proof (wf_reachable c Hreach) as Hwf.
  destruct (Z_lt_le_dec (len value) 8) as [Hs|Hlen].
  { rewrite (Set_short _ _ _ _ Hs) in Hset. by inversion Hset. }
  destruct (Set_cases c h64 key value Hwf Hlen) as
    [(_ & _ & E)|(c1 & Hcs & Hre & [(Hno & [(_ & E)|(_ & c2 & E & Hst & _)])
                                   |(v0 & Hh & [(Hold & E)|[(_ & _ & E)|(Hnew & _ & c2 & E & Hst & _)]])])];
    rewrite E in Hset; inversion Hset; subst c'; try done;
    try (by apply Get_regrouped);
    by apply (stored_Get_others c c1 c2 h64 key value).
Qed.


Lemma put_size (s s' : store.t) (k v : list byte) (i : Z) (e : option error) :
  store.put s k v = (s', i, e) -> store.size s' = store.size s.
Proof.
  unfold store.put. destruct (_ >? _); intros H; inversion H; subst; done.
Qed.

Lemma checkSpace_st (c c1 : PMap) (e : option error) :
  checkSpace c = Ret (c1, e) -> st c1 = st c.
Proof.
  unfold checkSpace. destruct (_ >=? _).
  - destruct (hashmap.expand (hm c)) as [[nh [e'|]]| |]; cbn [rbind];
      intros H; inversion H; subst; done.
  - intros H; inversion H; subst; done.
Qed.

(** [Set] never changes the size of the store. *)
Lemma Set_Size (c c' : PMap) (err : option error) (h64 : Z) (key value : list byte) :
  Set_ c h64 key value = Ret (c', err) -> Size c' = Size c.
Proof.
  unfold Set_, Size. destruct (len value <? 8); [intros H; by inversion H|].
  destruct (checkSpace c) as [[c1 [e|]]| |] eqn:Hcs; cbn [rbind]; try discriminate.
  { intros H; inversion H; subst. by rewrite (checkSpace_st _ _ _ Hcs). }
  rewrite <- (checkSpace_st _ _ _ Hcs).
  destruct (search c1 _ key) as [[j|j off]| |]; cbn [rbind]; try discriminate.
  - destruct (store.put (st c1) key value) as [[s' i] [e|]] eqn:Hp.
    + intros H; by inversion H.
    + destruct (Uint64_prefix (tight value)); cbn [rbind]; try discriminate.
      intros H; inversion H; subst. cbn. by apply (put_size _ _ _ _ _ _ Hp).
  - destruct (store.val (st c1) off); cbn [rbind]; try discriminate.
    destruct (Uint64_prefix a); cbn [rbind]; try discriminate.
    destruct (Uint64_prefix (tight value)); cbn [rbind]; try discriminate.
    destruct (_ || _); [intros H; by inversion H|].
    destruct (store.put (st c1) key value) as [[s' i] [e|]] eqn:Hp.
    + intros H; by inversion H.
    + destruct (store.valLater (st c1) s' off); cbn [rbind]; try discriminate.
      destruct (Uint64_prefix a2); cbn [rbind]; try discriminate.
      intros H; inversion H; subst. cbn. by apply (put_size _ _ _ _ _ _ Hp).
Qed.

(** X4.  A [Set] that returns nil never changes [Deleted] nor [Size]; [Used]
    stays within [Size] and either stays as it was, when the write was
    discarded, or grows by the 12 bytes of a frame plus the lengths of key
    and value. *)
Theorem Set_accounting (c c' : PMap) (h64 : Z) (key value : list byte) :
  reachable c ->
  Set_ c h64 key value = Ret (c', None) ->
  Deleted c' = Deleted c /\ Size c' = Size c /\ Used c' <= Size c' /\
  ((exists old, Get c (filing h64) key = Ret (Some old, None) /\
      instant value <= instant old /\ Used c' = Used c /\ Checksum c' = Checksum c)
   \/
   ((forall old, Get c (filing h64) key = Ret (Some old, None) ->
       instant old < instant value) /\
    Used c' = Used c + (12 + len key + len value))).
Proof.
  intros Hreach Hset. pose proof (wf_reachable c Hreach) as Hwf.
  pose proof (Set_nil_len _ _ _ _ _ Hset) as Hlen.
  assert (Hwf' : wf c') by (by apply (wf_Set c h64 key value c' None)).
  assert (Hle : Used c' <= Size c').
  { destruct Hwf' as (_ & _ & (_ & Hb & _) & _). unfold Used, Size. lia. }
  pose proof (Set_Size _ _ _ _ _ _ Hset) as Hsz.
  destruct (Set_cases c h64 key value Hwf Hlen) as
    [(_ & _ & E)|(c1 & Hcs & Hre & [(Hno & [(_ & E)|(_ & c2 & E & Hst & _)])
                                   |(v0 & Hh & [(Hold & E)|[(_ & _ & E)|(Hnew & _ & c2 & E & Hst & _)]])])];
    rewrite E in Hset; inversion Hset; subst c';
    pose proof Hre as (_ & Hst1 & Hck1 & _).
  - destruct Hst as (_ & _ & _ & Hu & Hdl).
    unfold Used, Deleted in *. rewrite Hst1 in *.
    do 3 (split; [done|]). right. split; [|done].
    intros old Hg. apply (Get_filing c h64 key old Hwf) in Hg. by destruct (Hno old).
  - unfold Used, Deleted, Checksum in *. rewrite Hst1, Hck1 in *.
    do 3 (split; [done|]). left. exists v0. split; [by apply Get_filing|]. done.
  - destruct Hst as (_ & _ & _ & Hu & Hdl).
    unfold Used, Deleted in *. rewrite Hst1 in *.
    do 3 (split; [done|]). right. split; [|done].
    intros old Hg. apply (Get_filing c h64 key old Hwf) in Hg.
    by rewrite (holds_functional c Hwf _ _ _ _ Hg Hh).
Qed.

(** [Del] and [CAS] never change the size of the store. *)
Lemma Del_Size (c c' : PMap) (err : option error) (h64 : Z) (key value : list byte) :
  Del c h64 key value = Ret (c', err) -> Size c' = Size c.
Proof.
  unfold Del, Size.
  destruct (search c _ key) as [[j|j off]| |]; cbn [rbind]; try discriminate.
  { intros H; by inversion H. }
  destruct (store.val (st c) off) as [v| |]; cbn [rbind]; try discriminate.
  destruct (Uint64_prefix v) as [ob| |]; cbn [rbind]; try discriminate.
  destruct (Uint64_prefix (tight value)) as [nb| |]; cbn [rbind]; try discriminate.
  destruct (_ <? _); [intros H; by inversion H|].
  cbn [st withSt withHm withChecksum].
  destruct (store.put _ key []) as [[s' i] e] eqn:Hp.
  intros H; inversion H; subst. cbn [st withSt].
  by rewrite (put_size _ _ _ _ _ _ Hp).
Qed.

Lemma CAS_Size (c c' : PMap) (err : option error) (h64 : Z) (key value : list byte) :
  CAS c h64 key value = Ret (c', err) -> Size c' = Size c.
Proof.
  unfold CAS, Size. destruct (len value <? 24); [intros H; by inversion H|].
  destruct (checkSpace c) as [[c1 [e|]]| |] eqn:Hcs; cbn [rbind]; try discriminate.
  { intros H; inversion H; subst. by rewrite (checkSpace_st _ _ _ Hcs). }
  rewrite <- (checkSpace_st _ _ _ Hcs).
  destruct (search c1 _ key) as [[j|j off]| |]; cbn [rbind]; try discriminate.
  - destruct (_ && _); [intros H; by inversion H|].
    destruct (store.put (st c1) key _) as [[s' i] [e|]] eqn:Hp.
    + intros H; by inversion H.
    + intros H; inversion H; subst. cbn. by apply (put_size _ _ _ _ _ _ Hp).
  - destruct (store.val (st c1) off) as [v| |]; cbn [rbind]; try discriminate.
    destruct (Uint64_prefix v) as [ob| |]; cbn [rbind]; try discriminate.
    destruct (negb _); [intros H; by inversion H|].
    destruct (from8 v) as [pl| |]; cbn [rbind]; try discriminate.
    destruct (negb _); [intros H; by inversion H|].
    cbn [st withChecksum].
    destruct (store.put (st c1) key _) as [[s' i] [e|]] eqn:Hp.
    + intros H; by inversion H.
    + intros H; inversion H; subst. cbn. by apply (put_size _ _ _ _ _ _ Hp).
Qed.


(** X6.  A [Del] for a key the map does not hold, or with a timestamp older than
    that of the value the key holds, returns nil and leaves the map as it
    is. *)
Theorem Del_keeps_newer_value (c : PMap) (h64 : Z) (key value : list byte) :
  reachable c ->
  (Get c (filing h64) key = Ret (None, None) \/
   8 <= len value /\
   exists old, Get c (filing h64) key = Ret (Some old, None) /\
     instant value < instant old) ->
  Del c h64 key value = Ret (c, None).
Proof.
  intros Hreach Hcase. pose proof (wf_reachable c Hreach) as Hwf.
  destruct (Del_cases c h64 key value Hwf) as
    [(_ & E)|(v0 & Hh & [(Hs & _)|[(_ & _ & E)|(_ & Hge & _)]])]; try done.
  - destruct Hcase as [Hnone|(Hl & _)]; [|lia].
    pose proof (proj1 (Get_filing_None c h64 key Hwf) Hnone) as Hn.
    by destruct (Hn v0).
  - destruct Hcase as [Hnone|(_ & old & Hg & Hlt)].
    + pose proof (proj1 (Get_filing_None c h64 key Hwf) Hnone) as Hn.
      by destruct (Hn v0).
    + apply (Get_filing c h64 key old Hwf) in Hg.
      rewrite (holds_functional c Hwf _ _ _ _ Hh Hg) in Hge. lia.
Qed.

Lemma CAS_short (c : PMap) (h64 : Z) (key value : list byte) :
  len value < 24 -> CAS c h64 key value = Ret (c, Some ErrCASValueLen).
Proof. intros H. unfold CAS. destruct (len value <? 24) eqn:E; [done|lia]. Qed.




(** * hashing/hashing.go *)

(** One turn of the loop of [FNV1a64]. *)
Lemma FNV1a64_snoc (b : list byte) (x : byte) :
  FNV1a64 (b ++ [x]) = wrap64 (Z.lxor (FNV1a64 b) (byte_to_Z x) * prime64).
Proof. unfold FNV1a64. by rewrite fold_left_app. Qed.

Lemma FNV1a64_range (b : list byte) : 0 <= FNV1a64 b < 2 ^ 64.
Proof.
  destruct b as [|x b] using rev_ind.
  - vm_compute. split; [intros H; discriminate H|reflexivity].
  - rewrite FNV1a64_snoc. unfold wrap64. apply Z.mod_pos_bound. reflexivity.
Qed.

Lemma lxor_byte_range (h : Z) (x : byte) :
  0 <= h < 2 ^ 64 -> 0 <= Z.lxor h (byte_to_Z x) < 2 ^ 64.
Proof.
  intros Hh. pose proof (byte_to_Z_range x) as Hx.
  assert (Hnn : 0 <= Z.lxor h (byte_to_Z x)) by (apply Z.lxor_nonneg; lia).
  split; [done|].
  destruct (Z.eq_dec (Z.lxor h (byte_to_Z x)) 0) as [->|Hne]; [reflexivity|].
  apply Z.log2_lt_pow2; [lia|].
  eapply Z.le_lt_trans; [apply Z.log2_lxor; lia|].
  apply Z.max_lub_lt.
  - destruct (Z.eq_dec h 0) as [->|]; [reflexivity|]. apply Z.log2_lt_pow2; lia.
  - destruct (Z.eq_dec (byte_to_Z x) 0) as [->|]; [reflexivity|].
    apply Z.log2_lt_pow2; [lia|]. change (2 ^ 64) with (2 ^ 8 * 2 ^ 56). lia.
Qed.

(** Multiplication by [prime64] is invertible modulo [2 ^ 64]. *)
Lemma mul_prime64_inj (x y : Z) :
  0 <= x < 2 ^ 64 -> 0 <= y < 2 ^ 64 ->
  wrap64 (x * prime64) = wrap64 (y * prime64) -> x = y.
Proof.
  intros Hx Hy E. unfold wrap64 in E.
  assert (Hinv : (prime64 * 14886173955864302971) mod 2 ^ 64 = 1) by reflexivity.
  assert (Hm : forall z, 0 <= z < 2 ^ 64 ->
            ((z * prime64) mod 2 ^ 64 * 14886173955864302971) mod 2 ^ 64 = z).
  { intros z Hz. rewrite Z.mul_mod_idemp_l by (intros HH; discriminate HH).
    rewrite <- Z.mul_assoc, <- Z.mul_mod_idemp_r by (intros HH; discriminate HH).
    rewrite Hinv, Z.mul_1_r. by apply Z.mod_small. }
  rewrite <- (Hm x Hx), <- (Hm y Hy). by rewrite E.
Qed.

Lemma lxor_cancel_r (a b x : Z) : Z.lxor a x = Z.lxor b x -> a = b.
Proof.
  intros E.
  rewrite <- (Z.lxor_0_r a), <- (Z.lxor_0_r b), <- (Z.lxor_nilpotent x).
  by rewrite <- !Z.lxor_assoc, E.
Qed.

Lemma FNV1a64_app (a s : list byte) :
  FNV1a64 (a ++ s)
  = fold_left (fun h c => wrap64 (Z.lxor h (byte_to_Z c) * prime64)) s (FNV1a64 a).
Proof. unfold FNV1a64. by rewrite fold_left_app. Qed.

Lemma fold_step_inj (s : list byte) : forall h1 h2 : Z,
  0 <= h1 < 2 ^ 64 -> 0 <= h2 < 2 ^ 64 ->
  fold_left (fun h c => wrap64 (Z.lxor h (byte_to_Z c) * prime64)) s h1
  = fold_left (fun h c => wrap64 (Z.lxor h (byte_to_Z c) * prime64)) s h2 ->
  h1 = h2.
Proof.
  induction s as [|x s IH]; intros h1 h2 H1 H2 E; [done|].
  cbn [fold_left] in E.
  apply IH in E; try (unfold wrap64; apply Z.mod_pos_bound; reflexivity).
  apply mul_prime64_inj in E; try (by apply lxor_byte_range).
  by apply lxor_cancel_r in E.
Qed.

(** X12.  [FNV1a64] returns a uint64, and two inputs followed by the same bytes
    have the same hash exactly when they have the same hash themselves:
    every turn of the loop is a bijection on the hash so far. *)
Theorem FNV1a64_common_suffix (a b s : list byte) :
  0 <= FNV1a64 a < 2 ^ 64 /\
  (FNV1a64 (a ++ s) = FNV1a64 (b ++ s) <-> FNV1a64 a = FNV1a64 b).
Proof.
  split; [apply FNV1a64_range|]. rewrite !FNV1a64_app. split.
  - apply fold_step_inj; apply FNV1a64_range.
  - by intros ->.
Qed.

(** X13.  For a positive number of chunks [GetChunkID] returns a chunk number
    below it; for 0 the division panics; for a negative [int] the
    conversion to uint64 makes the divisor larger than every dividend, and
    the result is the high half of the hash, whatever [numChunks] is. *)
Theorem GetChunkID_range (b : list byte) (numChunks : Z) :
  - 2 ^ 63 <= numChunks < 2 ^ 63 ->
  (0 < numChunks ->
   exists id, GetChunkID b numChunks = Ret id /\ 0 <= id < numChunks /\ id < 2 ^ 32) /\
  (numChunks = 0 -> GetChunkID b numChunks = Panics) /\
  (numChunks < 0 -> GetChunkID b numChunks = Ret (Z.shiftr (FNV1a64 b) 32)).
Proof.
  intros Hn. pose proof (FNV1a64_range b) as Hh.
  assert (Hs : 0 <= Z.shiftr (FNV1a64 b) 32 < 2 ^ 32).
  { rewrite Z.shiftr_div_pow2 by lia. split.
    - apply Z.div_pos; lia.
    - apply Z.div_lt_upper_bound; [reflexivity|]. change (2 ^ 32 * 2 ^ 32) with (2 ^ 64). lia. }
  unfold GetChunkID. cbv zeta. split; [|split].
  - intros Hpos. destruct (numChunks =? 0) eqn:E; [lia|].
    assert (Hw : wrap64 numChunks = numChunks).
    { unfold wrap64. apply Z.mod_small. change (2 ^ 64) with (2 * 2 ^ 63). lia. }
    rewrite Hw. eexists. split; [reflexivity|].
    pose proof (Z.mod_pos_bound (Z.shiftr (FNV1a64 b) 32) numChunks Hpos).
    split; [done|]. eapply Z.le_lt_trans; [apply Z.mod_le; lia|]. lia.
  - intros ->. reflexivity.
  - intros Hneg. destruct (numChunks =? 0) eqn:E; [lia|].
    assert (Hw : wrap64 numChunks = 2 ^ 64 + numChunks).
    { unfold wrap64. symmetry. apply (Z.mod_unique_pos _ _ (-1)).
      - change (2 ^ 64) with (2 * 2 ^ 63). lia.
      - lia. }
    rewrite Hw. f_equal. apply Z.mod_small.
    change (2 ^ 64) with (2 * 2 ^ 63). change (2 ^ 63) with (2 ^ 31 * 2 ^ 32) in *. lia.
Qed.

(** * The map as a whole *)

(** X10.  On every map that [Set], [CAS] and [Del] can produce from a fresh one,
    the log lies within the store, the index holds at most three quarters of
    its buckets and has an empty bucket, which is where every probe ends. *)
Theorem reachable_invariant (c : PMap) :
  reachable c ->
  0 <= Used c <= Size c /\ Size c <= 2 ^ 32 /\
  len (hashmap.table (hm c)) = 2 ^ hashmap.log2size (hm c) /\
  hashmap.sizeMask (hm c) = 2 ^ hashmap.log2size (hm c) - 1 /\
  hashmap.numStoredKeys (hm c) <= hashmap.numKeysToExpand (hm c) /\
  hashmap.numKeysToExpand (hm c) < 2 ^ hashmap.log2size (hm c) /\
  exists i, 0 <= i < 2 ^ hashmap.log2size (hm c) /\
    hashmap.getHash (hm c) i = hashmap.emptyBucket.
Proof.
  intros Hreach. pose proof (wf_reachable c Hreach) as (Hok & _ & (Hs1 & Hs2 & Hs3) & _).
  pose proof Hok as (H1 & H2 & H3 & H4 & H5 & H6 & H7 & H8).
  pose proof (capacity_pos _ Hok) as Hpos. unfold capacity in *.
  unfold Used, Size. do 5 (split; [done || lia|]).
  split.
  { rewrite H4. apply Z.div_lt_upper_bound; lia. }
  destruct (first_empty_exists _ Hok 0) as (d & Hd & (He & _)).
  exists ((0 + Z.of_nat d) mod 2 ^ hashmap.log2size (hm c)).
  split; [apply Z.mod_pos_bound; lia|]. exact He.
Qed.

(** X9.  On a reachable map [Set] and [CAS] always return: no slice expression
    of theirs is out of range and their probing loops end.  So does [Get]
    under every hash but the [deletedBucket] sentinel, with nil or with a
    value of at least 8 bytes, and never with an error. *)
Theorem calls_return (c : PMap) (h64 h32 : Z) (key value : list byte) :
  reachable c ->
  (exists c' err, Set_ c h64 key value = Ret (c', err)) /\
  (exists c' err, CAS c h64 key value = Ret (c', err)) /\
  (wrap32 h32 <> hashmap.deletedBucket ->
   Get c h32 key = Ret (None, None) \/
   exists v, Get c h32 key = Ret (Some v, None) /\ 8 <= len v).
Proof.
  intros Hreach. pose proof (wf_reachable c Hreach) as Hwf. split; [|split].
  - destruct (Z_lt_le_dec (len value) 8) as [Hs|Hlen].
    { rewrite (Set_short _ _ _ _ Hs). by eauto. }
    destruct (Set_cases c h64 key value Hwf Hlen) as
      [(_ & _ & E)|(c1 & Hcs & Hre & [(Hno & [(_ & E)|(_ & c2 & E & _)])
                                     |(v0 & Hh & [(_ & E)|[(_ & _ & E)|(_ & _ & c2 & E & _)]])])];
      rewrite E; by eauto.
  - destruct (Z_lt_le_dec (len value) 24) as [Hs|Hlen].
    { rewrite (CAS_short _ _ _ _ Hs). by eauto. }
    destruct (CAS_cases c h64 key value Hwf Hlen) as
      [(_ & _ & E)|(c1 & Hcs & Hre &
         [(Hno & [(_ & _ & E)|[(_ & _ & E)|(_ & _ & c2 & E & _)]])
         |(v0 & Hh & [(_ & E)|[(_ & _ & E)|[(_ & _ & _ & E)|(_ & _ & _ & c2 & E & _)]]])])];
      rewrite E; by eauto.
  - intros Hd.
    assert (Hr : 0 <= wrap32 h32 < 2 ^ 32) by (apply Z.mod_pos_bound; done).
    assert (Hg : Get c h32 key = Get c (wrap32 h32) key).
    { unfold Get. by rewrite (wrap32_id (wrap32 h32)). }
    rewrite Hg.
    destruct (Get_decided c Hwf (wrap32 h32) key Hr Hd) as [(v & Hh & E)|(_ & E)].
    + right. exists v. split; [done|]. by apply (holds_len c Hwf _ _ _ Hh).
    + by left.
Qed.

(** X11.  A fresh map is empty: [Get] returns nil for every key and hash, [Del]
    returns nil and changes nothing, the iterators call their callback for
    nothing, the counters and the checksum are 0 and [Size] is the size
    asked for. *)
Theorem New_is_empty (log2size sizeLimit : Z) (path : string) (size : Z)
  (h32 h64 : Z) (key value : list byte) (foreach : list byte -> list byte -> bool) :
  0 <= log2size ->
  let c := New log2size sizeLimit path size in
  Get c h32 key = Ret (None, None) /\
  Del c h64 key value = Ret (c, None) /\
  Iterate c foreach = Ret [] /\ BackwardsIterate c foreach = Ret [] /\
  Used c = 0 /\ Deleted c = 0 /\ Checksum c = 0 /\ Size c = size.
Proof.
  intros HL c.
  assert (Hb : forall i, hashmap.getHash (hm c) i = hashmap.emptyBucket).
  { intros i. unfold hashmap.getHash, hashmap.bucket. cbn [hm c New hashmap.newHashMap hashmap.table].
    destruct (repeat _ _ !! _) as [b|] eqn:E; [|done].
    apply list_elem_of_lookup_2 in E. apply list_elem_of_In, repeat_spec in E. by subst. }
  assert (Hf : exists n, hashmap.fuel (hm c) = S n).
  { unfold hashmap.fuel. cbn [hm c New hashmap.newHashMap hashmap.sizeMask].
    assert (0 < 2 ^ log2size) by (apply Z.pow_pos_nonneg; lia).
    exists (Z.to_nat (2 ^ log2size - 1)). lia. }
  destruct Hf as (n & Hf).
  assert (Hs : forall h, exists j, search c h key = Ret (EmptySlot j)).
  { intros h. unfold search. rewrite Hf. cbn [probe]. rewrite Hb, Z.eqb_refl. by eexists. }
  split.
  { unfold Get. destruct (Hs (wrap32 h32)) as (j & ->). done. }
  split.
  { unfold Del. destruct (Hs (hashmap.hashReMap (wrap32 h64))) as (j & ->). done. }
  done.
Qed.

(** * The log of a workload *)

Lemma log_bytes_snoc (l : list (list byte * list byte)) (k v : list byte) :
  log_bytes (l ++ [(k, v)]) = log_bytes l ++ store.frame k v.
Proof.
  unfold log_bytes. rewrite map_app, concat_app. cbn [map concat fst snd].
  by rewrite app_nil_r.
Qed.

Lemma log_bytes_cons (l : list (list byte * list byte)) (k v : list byte) :
  log_bytes ((k, v) :: l) = store.frame k v ++ log_bytes l.
Proof. reflexivity. Qed.

Lemma log_bytes_app (l1 l2 : list (list byte * list byte)) :
  log_bytes (l1 ++ l2) = log_bytes l1 ++ log_bytes l2.
Proof. unfold log_bytes. by rewrite map_app, concat_app. Qed.

Lemma log_map_snoc (l : list (list byte * list byte)) (kv : list byte * list byte) :
  log_map (l ++ [kv]) = log_step (log_map l) kv.
Proof. unfold log_map. by rewrite foldl_app. Qed.

Lemma log_wf_snoc (l : list (list byte * list byte)) (kv : list byte * list byte) :
  forall m, log_wf m (l ++ [kv]) <-> log_wf m l /\ frame_wf (foldl log_step m l) kv.
Proof.
  induction l as [|x l IH]; intros m; cbn [app log_wf foldl].
  - tauto.
  - rewrite IH. tauto.
Qed.

Lemma drop_repeat {A : Type} (x : A) : forall n m : nat,
  drop n (repeat x m) = repeat x (m - n).
Proof.
  induction n as [|n IH]; intros [|m]; cbn [drop repeat Nat.sub]; done.
Qed.

Lemma put_file (s s' : store.t) (k v : list byte) (off : Z) :
  store.put s k v = (s', off, None) ->
  store.file s'
  = take (Z.to_nat (store.length s)) (store.file s) ++ store.frame k v
    ++ drop (Z.to_nat (store.length s + (12 + len k + len v))) (store.file s).
Proof.
  unfold store.put. destruct (_ >? _); intros H; [discriminate H|].
  inversion H; subst. reflexivity.
Qed.

(** [put] appends a frame to the log. *)
Lemma put_log (s s' : store.t) (l : list (list byte * list byte))
  (k v : list byte) (off : Z) :
  log_ok s l -> store.put s k v = (s', off, None) ->
  log_ok s' (l ++ [(k, v)]) /\ off = store.length s.
Proof.
  intros (Hok & Hlen & Hfile) Hput.
  pose proof (len_nonneg k). pose proof (len_nonneg v).
  destruct (Z_lt_le_dec (store.size s) (store.length s + (12 + len k + len v)))
    as [Hfull|Hfit].
  { rewrite (put_full _ _ _ Hfull) in Hput. discriminate Hput. }
  destruct (put_room s k v Hok Hfit) as (s1 & E & Hok1 & Hl1 & _ & Hsz1 & _).
  rewrite E in Hput. inversion Hput; subst s1 off. split; [|done].
  split; [done|]. rewrite log_bytes_snoc, len_app, len_frame.
  split; [by rewrite Hl1, Hlen|].
  rewrite (put_file _ _ _ _ _ E), Hsz1, Hl1.
  pose proof Hok as (Hfl & Hr & _).
  assert (Hll : length (log_bytes l) = Z.to_nat (store.length s)).
  { unfold len in Hlen. lia. }
  rewrite Hfile at 1. rewrite take_app_length' by done.
  rewrite Hfile. rewrite drop_app_ge by lia.
  rewrite <- !app_assoc. f_equal. f_equal.
  rewrite drop_repeat. f_equal. unfold len in *. lia.
Qed.

(** What a mutator does to the store: nothing, or one [put]. *)
Lemma Set_store (c c' : PMap) (err : option error) (h64 : Z) (key value : list byte) :
  Set_ c h64 key value = Ret (c', err) ->
  st c' = st c \/ exists off, store.put (st c) key value = (st c', off, None).
Proof.
  unfold Set_. destruct (len value <? 8); [intros H; inversion H; by left|].
  destruct (checkSpace c) as [[c1 [e|]]| |] eqn:Hcs; cbn [rbind]; try discriminate.
  { intros H; inversion H; subst. left. by apply (checkSpace_st _ _ _ Hcs). }
  rewrite <- (checkSpace_st _ _ _ Hcs).
  destruct (search c1 _ key) as [[j|j off]| |]; cbn [rbind]; try discriminate.
  - destruct (store.put (st c1) key value) as [[s' i] [e|]] eqn:Hp.
    + intros H; inversion H; by left.
    + destruct (Uint64_prefix (tight value)) as [nb| |]; cbn [rbind]; try discriminate.
      intros H; inversion H; subst. right. by exists i.
  - destruct (store.val (st c1) off) as [v| |]; cbn [rbind]; try discriminate.
    destruct (Uint64_prefix v) as [ob| |]; cbn [rbind]; try discriminate.
    destruct (Uint64_prefix (tight value)) as [nb| |]; cbn [rbind]; try discriminate.
    destruct (_ || _); [intros H; inversion H; by left|].
    destruct (store.put (st c1) key value) as [[s' i] [e|]] eqn:Hp.
    + intros H; inversion H; by left.
    + destruct (store.valLater (st c1) s' off) as [v'| |]; cbn [rbind]; try discriminate.
      destruct (Uint64_prefix v') as [ob'| |]; cbn [rbind]; try discriminate.
      intros H; inversion H; subst. right. by exists i.
Qed.

Lemma CAS_store (c c' : PMap) (err : option error) (h64 : Z) (key value : list byte) :
  CAS c h64 key value = Ret (c', err) ->
  st c' = st c \/ exists off, store.put (st c) key (drop 16 value) = (st c', off, None).
Proof.
  unfold CAS. destruct (len value <? 24); [intros H; inversion H; by left|].
  destruct (checkSpace c) as [[c1 [e|]]| |] eqn:Hcs; cbn [rbind]; try discriminate.
  { intros H; inversion H; subst. left. by apply (checkSpace_st _ _ _ Hcs). }
  rewrite <- (checkSpace_st _ _ _ Hcs).
  destruct (search c1 _ key) as [[j|j off]| |]; cbn [rbind]; try discriminate.
  - destruct (_ && _); [intros H; inversion H; by left|].
    destruct (store.put (st c1) key _) as [[s' i] [e|]] eqn:Hp.
    + intros H; inversion H; by left.
    + intros H; inversion H; subst. right. by exists i.
  - destruct (store.val (st c1) off) as [v| |]; cbn [rbind]; try discriminate.
    destruct (Uint64_prefix v) as [ob| |]; cbn [rbind]; try discriminate.
    destruct (negb _); [intros H; inversion H; by left|].
    destruct (from8 v) as [pl| |]; cbn [rbind]; try discriminate.
    destruct (negb _); [intros H; inversion H; by left|].
    cbn [st withChecksum].
    destruct (store.put (st c1) key _) as [[s' i] [e|]] eqn:Hp.
    + intros H; inversion H; by left.
    + intros H; inversion H; subst. right. by exists i.
Qed.

Lemma Del_store (c c' : PMap) (err : option error) (h64 : Z) (key value : list byte) :
  Del c h64 key value = Ret (c', err) ->
  st c' = st c \/
  exists n off, store.put (store.addDeleted (st c) n) key [] = (st c', off, err).
Proof.
  unfold Del.
  destruct (search c _ key) as [[j|j off]| |]; cbn [rbind]; try discriminate.
  { intros H; inversion H; by left. }
  destruct (store.val (st c) off) as [v| |]; cbn [rbind]; try discriminate.
  destruct (Uint64_prefix v) as [ob| |]; cbn [rbind]; try discriminate.
  destruct (Uint64_prefix (tight value)) as [nb| |]; cbn [rbind]; try discriminate.
  destruct (_ <? _); [intros H; inversion H; by left|].
  cbn [st withSt withHm withChecksum].
  destruct (store.put _ key []) as [[s' i] e] eqn:Hp.
  intros H; inversion H; subst. right. eexists _, i. exact Hp.
Qed.

Lemma log_ok_addDeleted (s : store.t) (l : list (list byte * list byte)) (n : Z) :
  log_ok s l -> log_ok (store.addDeleted s n) l.
Proof.
  intros (Hok & Hl & Hf). split; [by apply store_ok_addDeleted|]. done.
Qed.

(** * What a workload leaves in the map *)

Lemma digest_delete (H : list byte -> Z) (m : gmap (list byte) (list byte))
  (k v0 : list byte) :
  m !! k = Some v0 ->
  digest H (delete k m) = Z.lxor (digest H m) (Z.lxor (H k) (stamp v0)).
Proof.
  intros Hk.
  rewrite <- (insert_id m k v0 Hk) at 2. rewrite <- insert_delete_eq.
  rewrite digest_insert by apply lookup_delete_eq.
  rewrite (Z.lxor_comm (Z.lxor (H k) (stamp v0))), Z.lxor_assoc.
  by rewrite Z.lxor_nilpotent, Z.lxor_0_r.
Qed.

Lemma represents_regrouped (H : list byte -> Z) (c c1 : PMap)
  (m : gmap (list byte) (list byte)) :
  represents H c m -> regrouped c c1 -> represents H c1 m.
Proof.
  intros (Hwf & Hm & Hck) (Hwf1 & _ & Hck1 & _ & Hsame).
  split; [done|]. split.
  - intros h k v. by rewrite Hsame.
  - unfold Checksum in *. by rewrite Hck1.
Qed.

Lemma represents_stored (H : list byte -> Z) (c c1 c2 : PMap)
  (m : gmap (list byte) (list byte)) (k v : list byte) :
  represents H c m -> regrouped c c1 -> stored c1 c2 (filing (H k)) k v ->
  Checksum c2
  = match m !! k with
    | Some old => Z.lxor (Z.lxor (Checksum c) (Z.lxor (H k) (stamp old)))
                    (Z.lxor (H k) (stamp v))
    | None => Z.lxor (Checksum c) (Z.lxor (H k) (stamp v))
    end ->
  represents H c2 (<[k := v]> m).
Proof.
  intros (Hwf & Hm & Hck) (Hwf1 & _ & _ & _ & Hsame) (Hwf2 & Hnew & Hothers & _) Hsum.
  split; [done|]. split.
  - intros h' k' v'. destruct (decide ((h', k') = (filing (H k), k))) as [E|Hne].
    + inversion E; subst h' k'. rewrite lookup_insert_eq. split.
      * intros Hh. split; [done|]. f_equal.
        by apply (holds_functional c2 Hwf2 (filing (H k)) k).
      * intros (_ & Hv). inversion Hv; by subst.
    + rewrite (Hothers h' k' v' Hne), Hsame, Hm. split.
      * intros (-> & Hl). split; [done|].
        rewrite lookup_insert_ne; [done|]. intros ->. by apply Hne.
      * intros (-> & Hl). split; [done|].
        rewrite lookup_insert_ne in Hl; [done|]. intros ->. by apply Hne.
  - destruct (m !! k) as [old|] eqn:Ek.
    + rewrite Hsum, Hck. symmetry. by apply digest_replace.
    + rewrite Hsum, Hck, digest_insert by done. apply Z.lxor_comm.
Qed.

Lemma represents_removed (H : list byte -> Z) (c c2 : PMap)
  (m : gmap (list byte) (list byte)) (k v0 : list byte) :
  represents H c m -> removed c c2 (filing (H k)) k v0 ->
  m !! k = Some v0 ->
  Checksum c2 = Z.lxor (Checksum c) (Z.lxor (H k) (stamp v0)) ->
  represents H c2 (delete k m).
Proof.
  intros (Hwf & Hm & Hck) (Hwf2 & Hgone & Hothers & _) Hk Hsum.
  split; [done|]. split.
  - intros h' k' v'. destruct (decide ((h', k') = (filing (H k), k))) as [E|Hne].
    + inversion E; subst h' k'. rewrite lookup_delete_eq. split.
      * intros Hh. by destruct (Hgone v').
      * intros (_ & Hv). discriminate Hv.
    + rewrite (Hothers h' k' v' Hne), Hm. split.
      * intros (-> & Hl). split; [done|].
        rewrite lookup_delete_ne; [done|]. intros ->. by apply Hne.
      * intros (-> & Hl). split; [done|].
        rewrite lookup_delete_ne in Hl; [done|]. intros ->. by apply Hne.
  - rewrite Hsum, Hck. symmetry. by apply digest_delete.
Qed.

Lemma log_step_value (m : gmap (list byte) (list byte)) (k v : list byte) :
  8 <= len v -> log_step m (k, v) = <[k := v]> m.
Proof.
  intros Hv. unfold log_step. cbn [fst snd].
  destruct (decide (v = [])) as [->|]; [|done]. unfold len in Hv. simpl in Hv. lia.
Qed.

Lemma frame_wf_value (m : gmap (list byte) (list byte)) (k v : list byte) :
  k <> [] -> 8 <= len v -> frame_wf m (k, v).
Proof.
  intros Hk Hv. split; [done|]. cbn [fst snd].
  destruct (decide (v = [])) as [->|]; [|done]. unfold len in Hv. simpl in Hv. lia.
Qed.

(** A frame written for [k] and [v] goes to the end of the log. *)
Lemma logged_written (c c2 : PMap) (l : list (list byte * list byte))
  (k v : list byte) :
  logged c l -> 8 <= len v ->
  represents FNV1a64 c2 (<[k := v]> (log_map l)) ->
  Used c2 = Used c + (12 + len k + len v) ->
  (st c2 = st c \/ exists off, store.put (st c) k v = (st c2, off, None)) ->
  logged c2 (l ++ [(k, v)]).
Proof.
  intros (Hrep & Hlog) Hv Hrep2 Hu [Hst|(off & Hput)].
  { unfold Used in Hu. rewrite Hst in Hu. pose proof (len_nonneg k). pose proof (len_nonneg v).
    lia. }
  split.
  - by rewrite log_map_snoc, log_step_value.
  - by apply (put_log _ _ _ _ _ _ Hlog Hput).
Qed.

(** A [Set] that returns nil either loses against the value the key holds
    and leaves the log alone, or appends its frame. *)
Lemma logged_Set (c c' : PMap) (l : list (list byte * list byte)) (k v : list byte) :
  logged c l ->
  Set_ c (FNV1a64 k) k v = Ret (c', None) ->
  (exists old, log_map l !! k = Some old /\ instant v <= instant old /\ logged c' l)
  \/
  ((forall old, log_map l !! k = Some old -> instant old < instant v) /\
   8 <= len v /\ logged c' (l ++ [(k, v)])).
Proof.
  intros Hlg Hset. pose proof Hlg as (Hrep & Hlog).
  pose proof Hrep as (Hwf & Hm & Hck).
  pose proof (Set_nil_len _ _ _ _ _ Hset) as Hlen.
  pose proof (Set_store _ _ _ _ _ _ Hset) as Hstore.
  destruct (Set_cases c (FNV1a64 k) k v Hwf Hlen) as
    [(_ & _ & E)|(c1 & _ & Hre &
        [(Hno & [(_ & E)|(_ & c2 & E & Hst & Hsum)])
        |(v0 & Hh & [(Hold & E)|[(_ & _ & E)|(Hnew & _ & c2 & E & Hst & Hsum)]])])];
    rewrite E in Hset; inversion Hset; subst; clear Hset.
  - assert (Hn : log_map l !! k = None).
    { destruct (log_map l !! k) as [old|] eqn:Eo; [|done].
      exfalso. apply (Hno old). apply Hm. by split. }
    right. split; [intros old Ho; by rewrite Hn in Ho|]. split; [done|].
    apply (logged_written c); try done.
    + apply (represents_stored FNV1a64 c c1); try done. by rewrite Hn.
    + destruct Hst as (_ & _ & _ & Hu & _). destruct Hre as (_ & Hs1 & _).
      unfold Used in *. by rewrite Hu, Hs1.
  - assert (Hs : log_map l !! k = Some v0) by (by apply Hm in Hh as (_ & Hh)).
    left. exists v0. split; [done|]. split; [done|].
    split; [by apply (represents_regrouped FNV1a64 c)|].
    destruct Hre as (_ & Hs1 & _). by rewrite Hs1.
  - assert (Hs : log_map l !! k = Some v0) by (by apply Hm in Hh as (_ & Hh)).
    right. split; [intros old Ho; rewrite Hs in Ho; by inversion Ho; subst|].
    split; [done|].
    apply (logged_written c); try done.
    + apply (represents_stored FNV1a64 c c1); try done. by rewrite Hs.
    + destruct Hst as (_ & _ & _ & Hu & _). destruct Hre as (_ & Hs1 & _).
      unfold Used in *. by rewrite Hu, Hs1.
Qed.

Lemma tracked_Set (c c' : PMap) (l : list (list byte * list byte)) (k v : list byte) :
  tracked c l -> k <> [] ->
  Set_ c (FNV1a64 k) k v = Ret (c', None) ->
  exists l', tracked c' l'.
Proof.
  intros (Hlg & Hlwf) Hk Hset.
  destruct (logged_Set c c' l k v Hlg Hset) as [(_ & _ & _ & Hlg')|(_ & Hv & Hlg')].
  - by exists l.
  - exists (l ++ [(k, v)]). split; [done|].
    apply log_wf_snoc. split; [done|]. by apply frame_wf_value.
Qed.

Lemma CAS_nil_len (c c' : PMap) (h64 : Z) (key value : list byte) :
  CAS c h64 key value = Ret (c', None) -> 24 <= len value.
Proof.
  intros H. destruct (Z_lt_le_dec (len value) 24) as [Hs|Hl]; [|done].
  rewrite (CAS_short _ _ _ _ Hs) in H. discriminate H.
Qed.

(** A [CAS] that returns nil appends the frame of the new value. *)
Lemma logged_CAS (c c' : PMap) (l : list (list byte * list byte)) (k v : list byte) :
  logged c l ->
  CAS c (FNV1a64 k) k v = Ret (c', None) ->
  8 <= len (newValue v) /\ logged c' (l ++ [(k, newValue v)]).
Proof.
  intros Hlg Hcas. pose proof Hlg as (Hrep & Hlog).
  pose proof Hrep as (Hwf & Hm & Hck).
  pose proof (CAS_nil_len _ _ _ _ _ Hcas) as Hlen.
  pose proof (CAS_store _ _ _ _ _ _ Hcas) as Hstore. fold (newValue v) in Hstore.
  pose proof (len_newValue v Hlen) as Hnv.
  assert (Hv8 : 8 <= len (newValue v)) by lia. split; [done|].
  destruct (CAS_cases c (FNV1a64 k) k v Hwf Hlen) as
    [(_ & _ & E)|(c1 & _ & Hre &
       [(Hno & [(_ & _ & E)|[(_ & _ & E)|(_ & _ & c2 & E & Hst & Hsum)]])
       |(v0 & Hh & [(_ & E)|[(_ & _ & E)|[(_ & _ & _ & E)|(_ & _ & _ & c2 & E & Hst & Hsum)]]])])];
    rewrite E in Hcas; inversion Hcas; subst; clear Hcas.
  - apply (logged_written c); try done.
    + apply (represents_stored FNV1a64 c c1); try done.
      assert (Hn : log_map l !! k = None).
      { destruct (log_map l !! k) as [old|] eqn:Eo; [|done].
        exfalso. apply (Hno old). apply Hm. by split. }
      by rewrite Hn.
    + destruct Hst as (_ & _ & _ & Hu & _). destruct Hre as (_ & Hs1 & _).
      unfold Used in *. by rewrite Hu, Hs1.
  - apply (logged_written c); try done.
    + apply (represents_stored FNV1a64 c c1); try done.
      assert (Hs : log_map l !! k = Some v0) by (by apply Hm in Hh as (_ & Hh)).
      by rewrite Hs.
    + destruct Hst as (_ & _ & _ & Hu & _). destruct Hre as (_ & Hs1 & _).
      unfold Used in *. by rewrite Hu, Hs1.
Qed.

Lemma tracked_CAS (c c' : PMap) (l : list (list byte * list byte)) (k v : list byte) :
  tracked c l -> k <> [] ->
  CAS c (FNV1a64 k) k v = Ret (c', None) ->
  exists l', tracked c' l'.
Proof.
  intros (Hlg & Hlwf) Hk Hcas.
  destruct (logged_CAS c c' l k v Hlg Hcas) as (Hv & Hlg').
  exists (l ++ [(k, newValue v)]). split; [done|].
  apply log_wf_snoc. split; [done|]. by apply frame_wf_value.
Qed.

(** A [Del] that returns nil either leaves the log alone or appends the
    tombstone of a key the map holds. *)
Lemma logged_Del (c c' : PMap) (l : list (list byte * list byte)) (k v : list byte) :
  logged c l ->
  Del c (FNV1a64 k) k v = Ret (c', None) ->
  logged c' l \/ (is_Some (log_map l !! k) /\ logged c' (l ++ [(k, [])])).
Proof.
  intros Hlg Hdel. pose proof Hlg as (Hrep & Hlog).
  pose proof Hrep as (Hwf & Hm & Hck).
  pose proof (Del_store _ _ _ _ _ _ Hdel) as Hstore.
  destruct (Del_cases c (FNV1a64 k) k v Hwf) as
    [(_ & E)|(v0 & Hh & [(_ & E)|[(_ & _ & E)
       |(_ & _ & c2 & e2 & E & Hrem & Hsum & _ & Hused)]])];
    rewrite E in Hdel; inversion Hdel; subst; clear Hdel; try (by left).
  assert (Hs : log_map l !! k = Some v0) by (by apply Hm in Hh as (_ & Hh)).
  destruct Hused as [(_ & _ & Hu & _)|(_ & Hx & _)]; [|discriminate Hx].
  destruct Hstore as [Hst|(n & off & Hput)].
  { unfold Used in Hu. rewrite Hst in Hu. pose proof (len_nonneg k). lia. }
  right. split; [by rewrite Hs|]. split.
  - rewrite log_map_snoc. unfold log_step. cbn [fst snd]. rewrite decide_True by done.
    by apply (represents_removed FNV1a64 c c' _ k v0).
  - apply (put_log _ _ _ _ _ _ (log_ok_addDeleted _ _ n Hlog) Hput).
Qed.

Lemma tracked_Del (c c' : PMap) (l : list (list byte * list byte)) (k v : list byte) :
  tracked c l -> k <> [] ->
  Del c (FNV1a64 k) k v = Ret (c', None) ->
  exists l', tracked c' l'.
Proof.
  intros (Hlg & Hlwf) Hk Hdel.
  destruct (logged_Del c c' l k v Hlg Hdel) as [Hlg'|(Hs & Hlg')].
  - by exists l.
  - exists (l ++ [(k, [])]). split; [done|].
    apply log_wf_snoc. split; [done|]. split; [done|]. cbn [fst snd].
    rewrite decide_True by done. done.
Qed.

Lemma log_ok_newStore (path : string) (size : Z) :
  0 <= size <= 2 ^ 32 -> log_ok (store.newStore path size) [].
Proof.
  intros Hs. split; [|split].
  - split; [|split]; cbn; [|lia|lia]. unfold len. rewrite repeat_length. lia.
  - reflexivity.
  - cbn. by rewrite Z.sub_0_r.
Qed.

(** A workload of calls that all return nil, for keys that are not empty,
    keeps the map and the log of its store in step. *)
Lemma run_tracked (ops : list op) : forall (c c' : PMap) (l : list (list byte * list byte)),
  tracked c l ->
  Forall (fun o => op_key o <> []) ops ->
  run c ops = Some c' ->
  exists l', tracked c' l'.
Proof.
  induction ops as [|o ops IH]; intros c c' l Htr Hkeys Hrun.
  - inversion Hrun; subst. by exists l.
  - cbn [run] in Hrun. inversion Hkeys as [|? ? Hk Hks]; subst.
    destruct (apply_op c o) as [[c1 [e|]]| |] eqn:E; try discriminate Hrun.
    assert (Hstep : exists l1, tracked c1 l1).
    { destruct o as [k v|k v|k v]; cbn [apply_op op_key] in *.
      - by apply (tracked_Set c c1 l k v).
      - by apply (tracked_CAS c c1 l k v).
      - by apply (tracked_Del c c1 l k v). }
    destruct Hstep as (l1 & Htr1). by apply (IH c1 c' l1).
Qed.

Lemma tracked_New (log2size sizeLimit : Z) (path : string) (size : Z) :
  0 <= log2size <= 32 -> sizeLimit <= 2 ^ 32 -> 0 <= size <= 2 ^ 32 ->
  tracked (New log2size sizeLimit path size) [].
Proof.
  intros HL Hlim Hsize. split; [split|].
  - by apply represents_New.
  - by apply log_ok_newStore.
  - done.
Qed.

(** * Replaying a log *)

Lemma represents_put (H : list byte -> Z) (c c2 : PMap)
  (m : gmap (list byte) (list byte)) (k v : list byte) :
  represents H c m -> wf c2 ->
  holds c2 (filing (H k)) k v ->
  (forall h' k' v', (h', k') <> (filing (H k), k) ->
     (holds c2 h' k' v' <-> holds c h' k' v')) ->
  Checksum c2
  = match m !! k with
    | Some old => Z.lxor (Z.lxor (Checksum c) (Z.lxor (H k) (stamp old)))
                    (Z.lxor (H k) (stamp v))
    | None => Z.lxor (Checksum c) (Z.lxor (H k) (stamp v))
    end ->
  represents H c2 (<[k := v]> m).
Proof.
  intros (Hwf & Hm & Hck) Hwf2 Hnew Hothers Hsum.
  split; [done|]. split.
  - intros h' k' v'. destruct (decide ((h', k') = (filing (H k), k))) as [E|Hne].
    + inversion E; subst h' k'. rewrite lookup_insert_eq. split.
      * intros Hh. split; [done|]. f_equal.
        by apply (holds_functional c2 Hwf2 (filing (H k)) k).
      * intros (_ & Hv). inversion Hv; by subst.
    + rewrite (Hothers h' k' v' Hne), Hm. split.
      * intros (-> & Hl). split; [done|].
        rewrite lookup_insert_ne; [done|]. intros ->. by apply Hne.
      * intros (-> & Hl). split; [done|].
        rewrite lookup_insert_ne in Hl; [done|]. intros ->. by apply Hne.
  - destruct (m !! k) as [old|] eqn:Ek.
    + rewrite Hsum, Hck. symmetry. by apply digest_replace.
    + rewrite Hsum, Hck, digest_insert by done. apply Z.lxor_comm.
Qed.

Lemma represents_gone (H : list byte -> Z) (c c2 : PMap)
  (m : gmap (list byte) (list byte)) (k v0 : list byte) :
  represents H c m -> wf c2 ->
  (forall v, ~ holds c2 (filing (H k)) k v) ->
  (forall h' k' v', (h', k') <> (filing (H k), k) ->
     (holds c2 h' k' v' <-> holds c h' k' v')) ->
  m !! k = Some v0 ->
  Checksum c2 = Z.lxor (Checksum c) (Z.lxor (H k) (stamp v0)) ->
  represents H c2 (delete k m).
Proof.
  intros (Hwf & Hm & Hck) Hwf2 Hgone Hothers Hk Hsum.
  split; [done|]. split.
  - intros h' k' v'. destruct (decide ((h', k') = (filing (H k), k))) as [E|Hne].
    + inversion E; subst h' k'. rewrite lookup_delete_eq. split.
      * intros Hh. by destruct (Hgone v').
      * intros (_ & Hv). discriminate Hv.
    + rewrite (Hothers h' k' v' Hne), Hm. split.
      * intros (-> & Hl). split; [done|].
        rewrite lookup_delete_ne; [done|]. intros ->. by apply Hne.
      * intros (-> & Hl). split; [done|].
        rewrite lookup_delete_ne in Hl; [done|]. intros ->. by apply Hne.
  - rewrite Hsum, Hck. symmetry. by apply digest_delete.
Qed.

Lemma wrap64_small (z : Z) : 0 <= z <= 2 ^ 32 -> wrap64 z = z.
Proof.
  intros H. unfold wrap64. apply Z.mod_small. split; [lia|].
  apply Z.le_lt_trans with (2 ^ 32); [lia|reflexivity].
Qed.

Lemma live_bytes_insert (m : gmap (list byte) (list byte)) (k v : list byte) :
  m !! k = None ->
  live_bytes (<[k := v]> m) = 12 + len k + len v + live_bytes m.
Proof.
  intros Hk. unfold live_bytes.
  apply (map_fold_insert_L (fun k v acc => 12 + len k + len v + acc)); [|done].
  intros j1 j2 z1 z2 y _ _ _. lia.
Qed.

Lemma live_bytes_delete (m : gmap (list byte) (list byte)) (k v0 : list byte) :
  m !! k = Some v0 ->
  live_bytes m = 12 + len k + len v0 + live_bytes (delete k m).
Proof.
  intros Hk. rewrite <- (insert_delete_id m k v0 Hk) at 1.
  apply live_bytes_insert, lookup_delete_eq.
Qed.

Lemma live_bytes_replace (m : gmap (list byte) (list byte)) (k v0 v : list byte) :
  m !! k = Some v0 ->
  live_bytes (<[k := v]> m) + (12 + len k + len v0)
  = live_bytes m + (12 + len k + len v).
Proof.
  intros Hk. rewrite (live_bytes_delete m k v0 Hk), <- (insert_delete_eq m k v).
  rewrite live_bytes_insert by apply lookup_delete_eq. lia.
Qed.

Lemma live_bytes_nonneg (m : gmap (list byte) (list byte)) : 0 <= live_bytes m.
Proof.
  induction m as [|k v m Hk IH] using map_ind; [done|].
  rewrite live_bytes_insert by done.
  pose proof (len_nonneg k). pose proof (len_nonneg v). lia.
Qed.

(** The guard of [restorePair] lets every frame of the log through: an
    index that may grow to as many buckets as the file has bytes never
    fails to expand. *)
Lemma replay_checkSpace (file : list byte) (c : PMap)
  (p : list (list byte * list byte)) :
  replayed file c p ->
  len (log_bytes p) + 17 <= len file ->
  exists c1, checkSpace c = Ret (c1, None) /\ regrouped c c1 /\
    hashmap.sizeLimit (hm c1) = hashmap.sizeLimit (hm c) /\
    hashmap.numStoredKeys (hm c1) <= hashmap.numStoredKeys (hm c).
Proof.
  intros ((Hwf & _) & _ & _ & _ & Hn & Hlim & _) Hroom.
  destruct (checkSpace_cases c Hwf) as [(Hr & E)|[(Hfull & Hbig & _)|(_ & _ & nh & E & Hexp)]].
  - exists c. split; [done|]. split; [by apply regrouped_refl|]. done.
  - exfalso. pose proof Hwf as (Hok & _).
    pose proof Hok as (H1 & _ & _ & H4 & _).
    pose proof (capacity_pos _ Hok) as Hpos. unfold capacity in *.
    rewrite H4 in Hfull.
    replace (2 ^ (hashmap.log2size (hm c) + 1)) with (2 * 2 ^ hashmap.log2size (hm c)) in Hbig
      by (rewrite Z.pow_add_r by lia; lia).
    revert Hfull Hbig Hpos. generalize (2 ^ hashmap.log2size (hm c)). intros cp Hfull Hbig Hpos.
    assert (cp * 3 < 4 * (hashmap.numStoredKeys (hm c) + 1)).
    { pose proof (Z.mul_succ_div_gt (cp * 3) 4 ltac:(lia)). lia. }
    lia.
  - exists (withHm c nh). split; [done|]. split; [by apply regrouped_expanded|].
    destruct Hexp as (_ & _ & _ & Hsl & Hns & _). cbn [hm withHm].
    split; [done|]. rewrite Hns.
    pose proof Hwf as ((_ & _ & _ & _ & _ & Hcnt & _) & _).
    pose proof (filter_occupied_nonempty (hashmap.table (hm c))). lia.
Qed.

Section ReplayFrame.

Context (file : list byte) (c : PMap) (p : list (list byte * list byte))
  (k v rest : list byte).
Hypothesis Hrep : replayed file c p.
Hypothesis Hfile : file = log_bytes p ++ store.frame k v ++ rest.
Hypothesis Hrest : 4 <= len rest.
Hypothesis Hfw : frame_wf (log_map p) (k, v).

Local Notation "'here'" := (len (log_bytes p)) (only parsing).
Local Notation "'need'" := (12 + len k + len v) (only parsing).

Lemma frame_fits : len file = here + need + len rest /\ 0 <= here /\ 1 <= len k /\ 0 <= len v.
Proof.
  rewrite Hfile, !len_app, len_frame. destruct Hfw as (Hk & _). cbn [fst] in Hk.
  pose proof (len_nonneg (log_bytes p)). pose proof (len_nonneg v).
  assert (1 <= len k) by (destruct k; [done|unfold len; simpl; lia]). lia.
Qed.

Lemma file_bound : len file <= 2 ^ 32.
Proof.
  destruct Hrep as (((_ & _ & (Hl & _ & Hs) & _) & _) & _ & Hsz & _). lia.
Qed.

(** A store on the same file whose log ends after the frame. *)
Lemma advanced (s' : store.t) :
  store.file s' = file -> store.size s' = len file -> store.length s' = here + need ->
  store_ok s' /\
  (forall o k0 v0, frame_at (st c) o k0 v0 -> frame_at s' o k0 v0) /\
  frame_at s' here k v.
Proof.
  intros Hf Hs Hl. pose proof frame_fits as (Hlen & H0 & Hk & Hv).
  pose proof file_bound as Hb.
  destruct Hrep as (_ & Hcf & Hcs & Hcl & _).
  split; [|split].
  - split; [by rewrite Hf, Hs|]. split; lia.
  - intros o k0 v0 (Ho & Hend & Hbytes). split; [done|]. split; [lia|].
    by rewrite Hf, <- Hcf.
  - split; [done|]. split; [lia|]. rewrite Hf, Hfile.
    rewrite drop_app_length' by (unfold len; lia).
    by rewrite take_app_length.
Qed.

Lemma here_wrap32 : wrap32 here = here.
Proof.
  pose proof frame_fits. pose proof file_bound. unfold wrap32. apply Z.mod_small. lia.
Qed.

(** What the loop of [Open] reads at the frame. *)
Lemma read_frame :
  store.keyLen (st c) here = Ret (len k) /\
  store.key (st c) here = Ret k /\
  store.val (st c) here
  = Ret {| elems := v; spare := drop (Z.to_nat (here + 8 + len k + len v)) file |} /\
  (forall s', store.file s' = file -> store.totalLen s' here = Ret (len k + len v)).
Proof.
  set (s' := store.setLength (st c) (here + need)).
  destruct Hrep as (_ & Hcf & Hcs & Hcl & _).
  destruct (advanced s') as (Hok & _ & Hfr); try done.
  split; [|split; [|split]].
  - change (store.keyLen (st c) here) with (store.keyLen s' here).
    by apply (frame_keyLen s' _ k v).
  - change (store.key (st c) here) with (store.key s' here).
    by apply (frame_key s' _ k v).
  - change (store.val (st c) here) with (store.val s' here).
    rewrite (frame_val s' _ k v Hok Hfr). by rewrite <- Hcf.
  - intros s2 Hf2.
    assert (E : store.totalLen s2 here = store.totalLen s' here).
    { unfold store.totalLen, store.keyLen, store.valLen. by rewrite Hf2, <- Hcf. }
    rewrite E. by apply (frame_totalLen s' _ k v).
Qed.

Lemma view_prefix :
  exists b, Uint64_prefix
              {| elems := v; spare := drop (Z.to_nat (here + 8 + len k + len v)) file |}
            = Ret b /\ (v <> [] -> b = stamp v).
Proof.
  pose proof frame_fits as (Hlen & H0 & Hk & Hv).
  destruct (decide (v = [])) as [Hnil|Hne].
  - unfold Uint64_prefix, upto8. cbn [elems spare].
    assert (Hsp : 8 <= len (v ++ drop (Z.to_nat (here + 8 + len k + len v)) file)).
    { rewrite len_app. unfold len in *. rewrite length_drop. lia. }
    destruct (8 <=? _) eqn:E; [|lia]. cbn [rbind]. eexists. split; [reflexivity|done].
  - destruct Hfw as (_ & Hw). cbn [snd] in Hw. rewrite decide_False in Hw by done.
    exists (stamp v). split; [|done]. by apply Uint64_prefix_elems.
Qed.

(** [restorePair] on the frame, and the map once the loop of [Open] has
    moved the end of the log past it. *)
Lemma restorePair_replayed :
  exists c2 e,
    restorePair c k
      {| elems := v; spare := drop (Z.to_nat (here + 8 + len k + len v)) file |} here
    = Ret (c2, e) /\
    store.file (st c2) = file /\ store.size (st c2) = len file /\
    forall s', store.file s' = file -> store.size s' = len file ->
      store.length s' = here + need ->
      store.deleted s'
      = (if len v >? 0 then store.deleted (st c2)
         else wrap64 (store.deleted (st c2) + (12 + len k))) ->
      replayed file (withSt c2 s') (p ++ [(k, v)]).
Proof.
  pose proof frame_fits as (Hlen & H0 & Hk & Hv).
  destruct (replay_checkSpace file c p Hrep ltac:(lia)) as (c1 & Hcs & Hre & Hsl & Hns).
  pose proof Hrep as (Hrepc & Hcf & Hcsz & Hcl & Hcn & Hclim & Hdel0 & Hdel).
  pose proof file_bound as Hbound.
  pose proof (live_bytes_nonneg (log_map p)) as Hlive.
  pose proof (represents_regrouped _ _ _ _ Hrepc Hre) as Hrep1.
  pose proof Hrep1 as (Hwf1 & Hm1 & Hck1).
  pose proof Hre as (_ & Hst1 & _).
  pose proof (filing_occupied (FNV1a64 k) 0) as Hocc.
  pose proof (filing_range (FNV1a64 k)) as Hrange.
  destruct view_prefix as (bits & Hbits & Hstamp).
  assert (Hadv : forall s', store.file s' = file -> store.size s' = len file ->
            store.length s' = here + need ->
            store_ok s' /\
            (forall o k0 v0, frame_at (st c1) o k0 v0 -> frame_at s' o k0 v0) /\
            frame_at s' here k v).
  { intros s' Hf Hs Hl. rewrite Hst1. by apply advanced. }
  assert (Hlenp : len (log_bytes (p ++ [(k, v)])) = here + need).
  { by rewrite log_bytes_snoc, len_app, len_frame. }
  unfold restorePair. rewrite Hcs. cbn [rbind]. fold (filing (FNV1a64 k)).
  destruct (search_holds c1 Hwf1 (filing (FNV1a64 k)) k Hocc) as
    [(i & off0 & v0 & Hs & Hf & Hfr & Hl0)|(j & Hs & Hj & He & Hpath & Hnof & Hnh)];
    rewrite Hs; cbn [rbind].
  - (* the key is in the index *)
    assert (Hold : log_map p !! k = Some v0).
    { assert (Hh : holds c1 (filing (FNV1a64 k)) k v0) by (by exists i, off0).
      by apply Hm1 in Hh as (_ & Hh). }
    pose proof Hwf1 as (_ & _ & Hsok1 & _).
    rewrite (frame_val _ _ _ _ Hsok1 Hfr). cbn [rbind].
    rewrite Hbits. cbn [rbind].
    rewrite Uint64_prefix_elems by done. cbn [rbind elems].
    destruct (decide (v = [])) as [Hnil|Hne].
    + subst v. change (len [] >? 0) with false. cbv iota.
      eexists _, _. split; [reflexivity|].
      split; [cbn; by rewrite Hst1|]. split; [cbn; by rewrite Hst1|].
      intros s' Hf' Hs' Hl' Hd'. destruct (Hadv s' Hf' Hs' Hl') as (Hok' & Hpres & _).
      match goal with |- replayed _ ?x _ =>
        change x with
          (withChecksum
             (withSt (withHm c1 (hashmap.setHash (hm c1) i hashmap.deletedBucket)) s')
             (syncChecksum.sub (checksum c1) (Z.lxor (FNV1a64 k) (stamp v0)) (int64 bits)))
      end.
      split; [|split; [|split; [|split; [|split; [|split]]]]]; try done.
      * rewrite log_map_snoc. unfold log_step. cbn [fst snd]. rewrite decide_True by done.
        apply (represents_gone FNV1a64 c1 _ _ k v0); try done.
        -- apply wf_withChecksum.
           apply (wf_delete c1 s' i (filing (FNV1a64 k)) off0 k); done.
        -- apply (deleted_gone c1 s' i (filing (FNV1a64 k)) off0 k); done.
        -- apply (deleted_others c1 s' i (filing (FNV1a64 k)) off0 k); done.
      * by rewrite Hlenp.
      * rewrite Hlenp. cbn. lia.
      * cbn. lia.
      * cbn in Hd'. rewrite Hst1 in Hd'. cbn [st withChecksum withSt].
        rewrite Hd', Hlenp, log_map_snoc. unfold log_step. cbn [fst snd].
        rewrite decide_True by done.
        pose proof (live_bytes_delete _ _ _ Hold) as Hlb.
        pose proof (live_bytes_nonneg (delete k (log_map p))).
        pose proof (len_nonneg v0).
        assert (Hz : len (@nil byte) = 0) by done. rewrite Hz in *.
        rewrite (wrap64_small (store.deleted (st c) + (12 + len k + len v0))) by lia.
        rewrite wrap64_small by lia. lia.
    + assert (Hv8 : 8 <= len v).
      { destruct Hfw as (_ & Hw). cbn [snd] in Hw. by rewrite decide_False in Hw. }
      destruct (len v >? 0) eqn:Eg; [|lia].
      eexists _, _. split; [reflexivity|].
      split; [cbn; by rewrite Hst1|]. split; [cbn; by rewrite Hst1|].
      intros s' Hf' Hs' Hl' Hd'. destruct (Hadv s' Hf' Hs' Hl') as (Hok' & Hpres & Hframe).
      pose proof Hf as (Hi & _).
      match goal with |- replayed _ ?x _ =>
        change x with
          (withChecksum (takeBucket (withSt c1 s') i (filing (FNV1a64 k)) here)
             (syncChecksum.sum
                (syncChecksum.sub (checksum c1) (Z.lxor (FNV1a64 k) (stamp v0)) (int64 bits))
                (Z.lxor (FNV1a64 k) bits) (int64 bits)))
      end.
      split; [|split; [|split; [|split; [|split; [|split]]]]]; try done.
      * rewrite log_map_snoc, log_step_value by done.
        apply (represents_put FNV1a64 c1); try done.
        -- apply wf_withChecksum.
           apply (wf_overwrite c1 s' i (filing (FNV1a64 k)) _ k v) with (off0 := off0); done.
        -- apply (stored_new c1 s' i (filing (FNV1a64 k)) _ k v); try done.
        -- intros h' k' v' Hne'.
           apply (stored_others c1 s' i (filing (FNV1a64 k)) _ k v); try done.
           right. by exists off0.
        -- rewrite Hold, (Hstamp Hne). unfold Checksum. reflexivity.
      * by rewrite Hlenp.
      * rewrite Hlenp. cbn. lia.
      * cbn. lia.
      * cbn in Hd'. rewrite Hst1 in Hd'. cbn [st withChecksum withSt takeBucket withHm].
        rewrite Hd', Hlenp, log_map_snoc, log_step_value by done.
        pose proof (live_bytes_replace _ _ _ v Hold) as Hlb.
        pose proof (live_bytes_nonneg (<[k := v]> (log_map p))).
        pose proof (len_nonneg v0).
        rewrite !wrap64_small by lia. lia.
  - (* the key is not in the index *)
    assert (Hnone : log_map p !! k = None).
    { destruct (log_map p !! k) as [old|] eqn:Eo; [|done].
      exfalso. apply (Hnh old). apply Hm1. by split. }
    assert (Hne : v <> []).
    { intros ->. destruct Hfw as (_ & Hw). cbn [fst snd] in Hw.
      rewrite decide_True, Hnone in Hw by done. by destruct Hw. }
    assert (Hv8 : 8 <= len v).
    { destruct Hfw as (_ & Hw). cbn [snd] in Hw. by rewrite decide_False in Hw. }
    rewrite Hbits. cbn [rbind].
    eexists _, _. split; [reflexivity|].
    split; [cbn; by rewrite Hst1|]. split; [cbn; by rewrite Hst1|].
    intros s' Hf' Hs' Hl' Hd'. destruct (Hadv s' Hf' Hs' Hl') as (Hok' & Hpres & Hframe).
    pose proof Hre as (_ & _ & _ & Hroom & _).
    match goal with |- replayed _ ?x _ =>
      change x with
        (withChecksum
           (withHm (takeBucket (withSt c1 s') j (filing (FNV1a64 k)) here)
              (hashmap.incStoredKeys
                 (hm (takeBucket (withSt c1 s') j (filing (FNV1a64 k)) here))))
           (syncChecksum.sum (checksum c1) (Z.lxor (FNV1a64 k) bits) (int64 bits)))
    end.
    split; [|split; [|split; [|split; [|split; [|split]]]]]; try done.
    + rewrite log_map_snoc, log_step_value by done.
      apply (represents_put FNV1a64 c1); try done.
      * apply wf_withChecksum.
        apply (wf_insert c1 s' j (filing (FNV1a64 k)) _ k v); done.
      * apply (stored_new c1 s' j (filing (FNV1a64 k)) _ k v); try done; by left.
      * intros h' k' v' Hne'.
        apply (stored_others c1 s' j (filing (FNV1a64 k)) _ k v); try done; by left.
      * rewrite Hnone, (Hstamp Hne). unfold Checksum. reflexivity.
    + by rewrite Hlenp.
    + rewrite Hlenp. cbn. lia.
    + cbn. lia.
    + destruct (len v >? 0) eqn:Eg; [|lia].
      cbn in Hd'. rewrite Hst1 in Hd'.
      cbn [st withChecksum withSt takeBucket withHm].
      rewrite Hd', Hlenp, log_map_snoc, log_step_value by done.
      rewrite live_bytes_insert by done. lia.
Qed.

End ReplayFrame.

(** One turn of the loop of [Open]. *)
Lemma replay_frame (file : list byte) (c : PMap) (p : list (list byte * list byte))
  (k v rest : list byte) (n : nat) :
  replayed file c p ->
  file = log_bytes p ++ store.frame k v ++ rest ->
  4 <= len rest ->
  frame_wf (log_map p) (k, v) ->
  exists c', replayed file c' (p ++ [(k, v)]) /\
    replay c (len (log_bytes p)) (S n)
    = replay c' (len (log_bytes (p ++ [(k, v)]))) n.
Proof.
  intros Hrep Hfile Hrest Hfw.
  destruct (frame_fits file p k v rest Hfile Hfw) as (Hlen & H0 & Hk & Hv).
  pose proof (file_bound file c p Hrep) as Hb.
  destruct (read_frame file c p k v rest Hrep Hfile Hrest Hfw) as (Rkl & Rk & Rv & Rtl).
  destruct (restorePair_replayed file c p k v rest Hrep Hfile Hrest Hfw)
    as (c2 & e & Hr & Hf2 & Hs2 & Hall).
  assert (Hlenp : len (log_bytes (p ++ [(k, v)])) = len (log_bytes p) + (12 + len k + len v)).
  { by rewrite log_bytes_snoc, len_app, len_frame. }
  assert (Hw : wrap64 (len (log_bytes p) + (12 + (len k + len v)))
               = len (log_bytes p) + (12 + len k + len v)).
  { unfold wrap64. rewrite Z.mod_small; [lia|]. split; [lia|].
    apply Z.le_lt_trans with (2 ^ 32); [lia|reflexivity]. }
  cbn [replay]. rewrite Rkl. cbn [rbind].
  destruct (len k <=? 0) eqn:Ek; [lia|].
  rewrite Rk. cbn [rbind]. rewrite Rv. cbn [rbind].
  rewrite (here_wrap32 file c p k v rest) by done. rewrite Hr. cbn [rbind fst elems].
  destruct (len v >? 0) eqn:Ev.
  - rewrite (Rtl (st c2) Hf2). cbn [rbind]. rewrite Hw, Hlenp.
    eexists. split; [|reflexivity].
    apply (Hall (store.setLength (st c2) _)); done.
  - cbn [st withSt].
    rewrite (Rtl (store.addDeleted (st c2) (12 + len k)) Hf2). cbn [rbind]. rewrite Hw, Hlenp.
    eexists. split; [|reflexivity].
    apply (Hall (store.setLength (store.addDeleted (st c2) (12 + len k)) _)); done.
Qed.

Lemma length_log_bytes (l : list (list byte * list byte)) :
  (length l <= length (log_bytes l))%nat.
Proof.
  induction l as [|(k & v) l IH]; [done|].
  rewrite log_bytes_cons, length_app, length_frame. cbn [length]. lia.
Qed.

(** The loop of [Open] replays the frames of a log to its end. *)
Lemma replay_log (q : list (list byte * list byte)) :
  forall (file : list byte) (c : PMap) (p : list (list byte * list byte)) (n z : nat),
  replayed file c p ->
  file = log_bytes (p ++ q) ++ repeat "000"%byte z ->
  (4 <= z)%nat ->
  log_wf (log_map p) q ->
  (length q < n)%nat ->
  exists c', replay c (len (log_bytes p)) n = Ret c' /\ replayed file c' (p ++ q).
Proof.
  induction q as [|(k & v) q IH]; intros file c p n z Hrep Hfile Hz Hwf Hn.
  - destruct n as [|n]; [lia|]. rewrite app_nil_r in *. exists c. split; [|done].
    cbn [replay]. unfold store.keyLen.
    destruct Hrep as (_ & Hcf & _). rewrite Hcf.
    pose proof (len_nonneg (log_bytes p)).
    replace (len (log_bytes p)) with (len (log_bytes p) + 0) at 1 by lia.
    rewrite (sub_window file (repeat "000"%byte z) (len (log_bytes p)) 0 4); try lia.
    + destruct z as [|[|[|[|z]]]]; try lia. reflexivity.
    + rewrite Hfile, len_app. lia.
    + rewrite Hfile. rewrite drop_app_length' by (unfold len; lia).
      by rewrite firstn_all.
    + unfold len. rewrite repeat_length. lia.
  - destruct n as [|n]; [cbn in Hn; lia|]. destruct Hwf as (Hfw & Hwf).
    destruct (replay_frame file c p k v (log_bytes q ++ repeat "000"%byte z) n Hrep)
      as (c1 & Hrep1 & E); try done.
    { by rewrite Hfile, log_bytes_app, log_bytes_cons, <- !app_assoc. }
    { rewrite len_app. pose proof (len_nonneg (log_bytes q)).
      unfold len at 2. rewrite repeat_length. lia. }
    rewrite E.
    destruct (IH file c1 (p ++ [(k, v)]) n z Hrep1) as (c' & Hc' & Hrep'); try done.
    { by rewrite <- app_assoc. }
    { by rewrite log_map_snoc. }
    { cbn in Hn. lia. }
    exists c'. split; [done|]. by rewrite <- app_assoc in Hrep'.
Qed.

(** The map [Open] starts its loop with. *)
Lemma replayed_start (log2size sizeLimit : Z) (path : string) (contents : list byte) :
  0 <= log2size <= 32 -> sizeLimit <= 2 ^ 32 ->
  len contents <= 2 ^ 32 -> len contents <= sizeLimit ->
  replayed contents
    {| hm := hashmap.newHashMap log2size sizeLimit;
       st := store.openStore contents;
       checksum := syncChecksum.zero;
       path := path |} [].
Proof.
  intros HL Hlim Hsize Hfit.
  destruct (newHashMap_ok log2size sizeLimit HL Hlim) as (Hok & Hpaths).
  pose proof (len_nonneg contents).
  split; [|split; [done|split; [done|split; [done|split]]]].
  - split; [|split].
    + split; [exact Hok|]. split; [exact Hpaths|]. split.
      { split; [done|]. split; cbn; lia. }
      split.
      * intros i Hi Hoc. cbn [hm] in Hoc. rewrite newHashMap_bucket in Hoc. by destruct Hoc.
      * intros i j k Hi Hj Hoc. cbn [hm] in Hoc. rewrite newHashMap_bucket in Hoc.
        by destruct Hoc.
    + intros h k v. split.
      * intros (i & off & (Hi & Hb & Hoc & _) & _). cbn [hm] in Hb.
        rewrite newHashMap_bucket in Hb. inversion Hb; subst. by destruct Hoc.
      * intros (_ & Hl). unfold log_map in Hl. cbn in Hl. by rewrite lookup_empty in Hl.
    + unfold log_map. cbn [foldl]. by rewrite digest_empty.
  - change (13 * 0 <= 0). lia.
  - split; [exact Hfit|]. split; [done|].
    unfold log_map, live_bytes. cbn [foldl]. by rewrite map_fold_empty.
Qed.

(** What two maps that hold the same keys answer. *)
Lemma represents_Get (H : list byte -> Z) (c c' : PMap)
  (m : gmap (list byte) (list byte)) (h32 : Z) (k : list byte) :
  represents H c m -> represents H c' m ->
  wrap32 h32 <> hashmap.deletedBucket ->
  Get c' h32 k = Get c h32 k.
Proof.
  intros (Hwf & Hm & _) (Hwf' & Hm' & _) Hd.
  apply Get_ext; try done. intros v. by rewrite Hm, Hm'.
Qed.

Lemma run_Size (ops : list op) : forall c c' : PMap,
  run c ops = Some c' -> Size c' = Size c.
Proof.
  induction ops as [|o ops IH]; intros c c' Hrun.
  - by inversion Hrun; subst.
  - cbn [run] in Hrun.
    destruct (apply_op c o) as [[c1 [e|]]| |] eqn:E; try discriminate Hrun.
    rewrite (IH _ _ Hrun).
    destruct o as [k v|k v|k v]; cbn [apply_op] in E.
    + by apply (Set_Size _ _ _ _ _ _ E).
    + by apply (CAS_Size _ _ _ _ _ _ E).
    + by apply (Del_Size _ _ _ _ _ _ E).
Qed.

(** [Open] on the file of a closed map replays the log of the map. *)
Lemma Open_replays (log2size sizeLimit : Z) (path : string) (size : Z)
  (ops : list op) (c : PMap) :
  0 <= log2size <= 32 -> sizeLimit <= 2 ^ 32 -> 0 <= size <= 2 ^ 32 ->
  size <= sizeLimit ->
  Forall (fun o => op_key o <> []) ops ->
  run (New log2size sizeLimit path size) ops = Some c ->
  Used c + 4 <= Size c ->
  exists c' l,
    Open log2size sizeLimit path (Close c) = Ret c' /\
    logged c l /\ replayed (Close c) c' l.
Proof.
  intros HL Hlim Hsize Hfit Hkeys Hrun Hspare.
  destruct (run_tracked ops _ c [] (tracked_New log2size sizeLimit path size HL Hlim Hsize)
              Hkeys Hrun) as (l & Hlg & Hlwf).
  pose proof Hlg as (Hrep & (Hok & Hlen & Hfile)).
  pose proof Hok as (Hfl & Hbounds & Hmax).
  set (contents := store.file (st c)).
  assert (Hcl : len contents = Size c) by done.
  unfold Used, Size in Hspare.
  destruct (replay_log l contents
              {| hm := hashmap.newHashMap log2size sizeLimit;
                 st := store.openStore contents;
                 checksum := syncChecksum.zero;
                 path := path |} [] (S (length contents))
              (Z.to_nat (store.size (st c) - store.length (st c))))
    as (c' & Hopen & Hrep'); try done.
  - assert (Hcs : len contents = size).
    { rewrite Hcl. by rewrite (run_Size _ _ _ Hrun). }
    apply replayed_start; try done; lia.
  - lia.
  - pose proof (length_log_bytes l). unfold contents. rewrite Hfile, length_app. lia.
  - by exists c', l.
Qed.

(** X14.  The map opened on the file of a closed map answers as the closed map
    did.  The closed map is the outcome of a workload of [Set], [CAS] and
    [Del] on a fresh map, each call for a key that is not empty, with the
    FNV-1a hash of the key, and returning nil; its store has four bytes
    to spare, and the index may grow to as many buckets as the store has
    bytes.  Then [Open] returns, and [Get] for every key, the checksum and
    the used and total bytes are those of the closed map. *)
Theorem Open_after_Close (log2size sizeLimit : Z) (path : string) (size : Z)
  (ops : list op) (c : PMap) :
  0 <= log2size <= 32 -> sizeLimit <= 2 ^ 32 -> 0 <= size <= 2 ^ 32 ->
  size <= sizeLimit ->
  Forall (fun o => op_key o <> []) ops ->
  run (New log2size sizeLimit path size) ops = Some c ->
  Used c + 4 <= Size c ->
  exists c',
    Open log2size sizeLimit path (Close c) = Ret c' /\
    (forall h32 k, wrap32 h32 <> hashmap.deletedBucket -> Get c' h32 k = Get c h32 k) /\
    Checksum c' = Checksum c /\ Used c' = Used c /\ Size c' = Size c.
Proof.
  intros HL Hlim Hsize Hfit Hkeys Hrun Hspare.
  destruct (Open_replays log2size sizeLimit path size ops c) as
    (c' & l & Hopen & (Hrep & (Hok & Hlen & Hfile)) & Hrep'); try done.
  exists c'. split; [exact Hopen|].
  destruct Hrep' as (Hr' & Hf' & Hs' & Hl' & _).
  split; [intros h32 k Hd; by apply (represents_Get FNV1a64 c c' (log_map l))|].
  split.
  { destruct Hrep as (_ & _ & Hck). destruct Hr' as (_ & _ & Hck'). by rewrite Hck, Hck'. }
  unfold Used, Size. split; [by rewrite Hl', Hlen|].
  rewrite Hs'. unfold Close. by destruct Hok as (-> & _).
Qed.

(** X18.  [Open] counts the deleted bytes anew: on the map opened on the file of
    a closed map, the used bytes are the deleted bytes and the frames,
    each of 12 bytes more than its key and value, of the pairs that [Get]
    returns.  The closed map is the outcome of a workload of [Set], [CAS]
    and [Del] on a fresh map, each call for a key that is not empty, with
    the FNV-1a hash of the key, and returning nil; its store has four
    bytes to spare, and the index may grow to as many buckets as the store
    has bytes. *)
Theorem Open_recounts_Deleted (log2size sizeLimit : Z) (path : string) (size : Z)
  (ops : list op) (c : PMap) :
  0 <= log2size <= 32 -> sizeLimit <= 2 ^ 32 -> 0 <= size <= 2 ^ 32 ->
  size <= sizeLimit ->
  Forall (fun o => op_key o <> []) ops ->
  run (New log2size sizeLimit path size) ops = Some c ->
  Used c + 4 <= Size c ->
  exists c' m,
    Open log2size sizeLimit path (Close c) = Ret c' /\
    (forall k v, m !! k = Some v <->
       Get c' (filing (FNV1a64 k)) k = Ret (Some v, None)) /\
    0 <= Deleted c' /\
    Deleted c' + live_bytes m = Used c'.
Proof.
  intros HL Hlim Hsize Hfit Hkeys Hrun Hspare.
  destruct (Open_replays log2size sizeLimit path size ops c) as
    (c' & l & Hopen & _ & Hrep'); try done.
  destruct Hrep' as ((Hwf' & Hm' & _) & _ & _ & Hl' & _ & _ & Hd0 & Hd).
  exists c', (log_map l). split; [exact Hopen|]. split.
  - intros k v. rewrite (Get_filing c' _ k v Hwf'), Hm'.
    split; [intros Hv; by split|by intros (_ & Hv)].
  - unfold Deleted, Used. split; [done|]. by rewrite Hl'.
Qed.

(** * Traversals of the log *)

Lemma log_lww_snoc (l : list (list byte * list byte)) (kv : list byte * list byte) :
  forall m, log_lww m (l ++ [kv]) <->
    log_lww m l /\
    (8 <= len kv.2 /\
     forall old, foldl log_step m l !! kv.1 = Some old -> instant old < instant kv.2).
Proof.
  induction l as [|x l IH]; intros m; cbn [app log_lww foldl].
  - tauto.
  - rewrite IH. tauto.
Qed.

Lemma log_lww_app (p q : list (list byte * list byte)) :
  forall m, log_lww m (p ++ q) -> log_lww (foldl log_step m p) q.
Proof.
  induction p as [|x p IH]; intros m H; cbn [app foldl] in *; [done|].
  destruct H as (_ & H). by apply IH.
Qed.

(** What a log of [Set] frames leaves for a key that held [v] before it. *)
Lemma log_lww_lookup (q : list (list byte * list byte)) :
  forall (m : gmap (list byte) (list byte)) (k v : list byte),
  log_lww m q -> m !! k = Some v ->
  exists v', foldl log_step m q !! k = Some v' /\
    instant v <= instant v' /\ (8 <= len v -> 8 <= len v') /\
    (k ∉ q.*1 -> v' = v) /\ (k ∈ q.*1 -> instant v < instant v').
Proof.
  induction q as [|(k1 & v1) q IH]; intros m k v Hl Hk; cbn [foldl fmap list_fmap fst].
  - exists v. split; [done|]. split; [lia|]. split; [done|]. split; [done|].
    by intros H%elem_of_nil.
  - destruct Hl as ((Hv1 & Hnew) & Hl). cbn [fst snd] in *.
    rewrite log_step_value in * by done.
    destruct (decide (k1 = k)) as [->|Hne].
    + specialize (Hnew v Hk).
      destruct (IH (<[k := v1]> m) k v1 Hl) as (v' & Hv' & Hle & Hlen & _);
        [by rewrite lookup_insert_eq|].
      exists v'. split; [done|]. split; [lia|]. split; [intros _; by apply Hlen|]. split.
      * intros Hn. exfalso. apply Hn. apply list_elem_of_here.
      * intros _. lia.
    + destruct (IH (<[k1 := v1]> m) k v Hl) as (v' & Hv' & Hle & Hlen & Hout & Hin);
        [by rewrite lookup_insert_ne|].
      exists v'. split; [done|]. split; [done|]. split; [done|]. split.
      * intros Hn. apply Hout. intros Hx. apply Hn. by apply list_elem_of_further.
      * intros Hx. apply Hin. apply elem_of_cons in Hx as [->|Hx]; done.
Qed.

Lemma log_lww_values (l : list (list byte * list byte)) :
  forall m, log_lww m l -> Forall (fun kv => 8 <= len kv.2) l.
Proof.
  induction l as [|x l IH]; intros m H; [done|].
  destruct H as ((Hv & _) & H). constructor; [done|]. by apply (IH _ H).
Qed.

(** The value a log of [Set] frames leaves for the key of one of them. *)
Lemma log_lww_frame (p q : list (list byte * list byte)) (k v : list byte) :
  log_lww ∅ (p ++ (k, v) :: q) ->
  8 <= len v /\
  exists v', log_map (p ++ (k, v) :: q) !! k = Some v' /\ 8 <= len v' /\
    (k ∉ q.*1 -> v' = v) /\ (k ∈ q.*1 -> instant v < instant v').
Proof.
  intros H. pose proof (log_lww_app _ _ _ H) as H1. cbn [log_lww] in H1.
  destruct H1 as ((Hv & _) & Hq). cbn [fst snd] in *. split; [done|].
  rewrite log_step_value in Hq by done.
  destruct (log_lww_lookup q _ k v Hq) as (v' & Hv' & _ & Hlen & Hout & Hin);
    [by rewrite lookup_insert_eq|].
  exists v'. unfold log_map. rewrite foldl_app. cbn [foldl].
  rewrite log_step_value by done. split; [done|]. split; [by apply Hlen|done].
Qed.

(** Where the frames of a log lie in the store. *)
Lemma log_frame_at (s : store.t) (p q : list (list byte * list byte)) (k v : list byte) :
  log_ok s (p ++ (k, v) :: q) -> frame_at s (len (log_bytes p)) k v.
Proof.
  intros (Hok & Hlen & Hfile).
  rewrite log_bytes_app, log_bytes_cons in Hlen, Hfile.
  rewrite !len_app, len_frame in Hlen.
  pose proof (len_nonneg (log_bytes p)). pose proof (len_nonneg (log_bytes q)).
  split; [done|]. split; [lia|].
  rewrite Hfile, <- !app_assoc.
  rewrite drop_app_length' by (unfold len; lia).
  by rewrite take_app_length.
Qed.

Lemma frame_take_trailer (k v : list byte) :
  take 4 (drop (8 + length k + length v) (store.frame k v)) = le_bytes 4 (len k + len v).
Proof.
  unfold store.frame.
  rewrite (app_assoc (le_bytes 4 (len k))), (app_assoc _ k), (app_assoc _ v).
  rewrite drop_app_length' by (rewrite !length_app, !length_le_bytes; lia).
  apply firstn_all2. by rewrite length_le_bytes.
Qed.

(** [prev] at the end of a frame is the offset of the frame. *)
Lemma frame_prev (s : store.t) (off : Z) (k v : list byte) :
  store_ok s -> frame_at s off k v ->
  store.prev s (off + (12 + len k + len v)) = Ret off.
Proof.
  intros Hok Hfr.
  destruct (frame_bounds s off k v Hok Hfr) as (H0 & Hend & Hk & Hv).
  rewrite len_frame in Hend. pose proof Hok as (Hl & _ & Hs).
  unfold store.prev.
  destruct (off + (12 + len k + len v) =? 0) eqn:E; [lia|].
  replace (off + (12 + len k + len v) - 4) with (off + (8 + len k + len v)) by lia.
  rewrite (frame_sub s off k v Hok Hfr) by (rewrite ?len_frame; lia).
  replace (Z.to_nat (12 + len k + len v - (8 + len k + len v))) with 4%nat by lia.
  replace (Z.to_nat (8 + len k + len v)) with (8 + length k + length v)%nat
    by (unfold len; lia).
  rewrite frame_take_trailer. cbn [rbind].
  rewrite le_uint_le_bytes_4 by lia. f_equal. lia.
Qed.

Lemma upto8_elems (s : slice) :
  8 <= len (elems s) -> upto8 s = Ret (take 8 (elems s)).
Proof.
  intros H. unfold upto8. rewrite len_app. pose proof (len_nonneg (spare s)).
  destruct (8 <=? len (elems s) + len (spare s)) eqn:E; [|lia].
  rewrite take_app_le; [done|]. unfold len in H. lia.
Qed.

Lemma plain_filing (k : list byte) :
  plain_hash k -> filing (FNV1a64 k) = wrap32 (FNV1a64 k).
Proof.
  intros (H1 & H2). cbn [fst] in *. unfold filing, hashmap.hashReMap.
  destruct (wrap32 (FNV1a64 k) =? hashmap.emptyBucket) eqn:E1; [lia|].
  destruct (wrap32 (FNV1a64 k) =? hashmap.deletedBucket) eqn:E2; [lia|]. done.
Qed.

(** [isPresent] at a frame of a log of [Set] frames: the key has no later
    frame. *)
Lemma isPresent_frame (c : PMap) (p q : list (list byte * list byte)) (k v : list byte) :
  logged c (p ++ (k, v) :: q) ->
  log_lww ∅ (p ++ (k, v) :: q) ->
  plain_hash k ->
  isPresent c (len (log_bytes p)) = Ret (bool_decide (k ∉ q.*1)).
Proof.
  intros (Hrep & Hlog) Hlww Hplain.
  pose proof Hrep as (Hwf & Hm & _). pose proof Hwf as (_ & _ & Hsok & _).
  pose proof (log_frame_at _ _ _ _ _ Hlog) as Hfr.
  destruct (log_lww_frame p q k v Hlww) as (Hv & v' & Hv' & Hl' & Hout & Hin).
  unfold isPresent. rewrite (frame_key _ _ k v Hsok Hfr). cbn [rbind].
  rewrite <- (plain_filing k Hplain).
  assert (Hh : holds c (filing (FNV1a64 k)) k v') by (apply Hm; by split).
  rewrite (Get_holds c Hwf _ _ _ Hh). cbn [rbind].
  rewrite (frame_val _ _ k v Hsok Hfr). cbn [rbind].
  rewrite (upto8_elems (tight v')) by done. cbn [rbind].
  rewrite upto8_elems by done. cbn [rbind elems tight].
  f_equal. unfold bytes_Equal.
  destruct (decide (k ∈ q.*1)) as [Hi|Hn].
  - rewrite (bool_decide_eq_false_2 (k ∉ q.*1)) by (intros Hx; by apply Hx).
    apply bool_decide_eq_false_2. intros E.
    specialize (Hin Hi). unfold instant, stamp in Hin. rewrite E in Hin. lia.
  - rewrite (bool_decide_eq_true_2 (k ∉ q.*1)) by done.
    apply bool_decide_eq_true_2. by rewrite (Hout Hn).
Qed.

Lemma logged_bounds (c : PMap) (l : list (list byte * list byte)) :
  logged c l ->
  store.length (st c) = len (log_bytes l) /\ len (log_bytes l) <= 2 ^ 32.
Proof. intros (_ & (_ & Hb & Hs) & Hl & _). split; [done|]. lia. Qed.

(** [Iterate] from a frame of the log on. *)
Lemma iterate_from (c : PMap) (foreach : list byte -> list byte -> bool)
  (q : list (list byte * list byte)) :
  forall (p : list (list byte * list byte)) (n : nat),
  logged c (p ++ q) -> log_lww ∅ (p ++ q) ->
  Forall (fun kv => plain_hash kv.1) (p ++ q) ->
  (length q < n)%nat ->
  iterateFrom c foreach (len (log_bytes p)) n = Ret (stop_at foreach (last_writes q [])).
Proof.
  induction q as [|(k & v) q IH]; intros p n Hlg Hlww Hplain Hn;
    (destruct n as [|n]; [cbn in Hn; lia|]);
    destruct (logged_bounds _ _ Hlg) as (Hlen & Hmax); cbn [iterateFrom].
  - rewrite app_nil_r in Hlen. rewrite Hlen.
    destruct (len (log_bytes p) <? len (log_bytes p)) eqn:E; [lia|done].
  - pose proof Hlg as ((Hwf & _) & Hlog). pose proof Hwf as (_ & _ & Hsok & _).
    pose proof (log_frame_at _ _ _ _ _ Hlog) as Hfr.
    rewrite log_bytes_app, log_bytes_cons, !len_app, len_frame in Hlen, Hmax.
    pose proof (len_nonneg (log_bytes p)). pose proof (len_nonneg (log_bytes q)).
    pose proof (len_nonneg k). pose proof (len_nonneg v).
    destruct (len (log_bytes p) <? store.length (st c)) eqn:E; [|lia].
    rewrite (isPresent_frame c p q k v Hlg Hlww). cbn [rbind].
    2:{ apply Forall_app in Hplain as (_ & Hp). by inversion Hp. }
    rewrite (frame_totalLen _ _ k v Hsok Hfr). cbn [rbind].
    rewrite (frame_key _ _ k v Hsok Hfr), (frame_val _ _ k v Hsok Hfr). cbn [rbind elems].
    rewrite wrap64_small by lia.
    assert (Hnext : len (log_bytes p) + (12 + (len k + len v))
                    = len (log_bytes (p ++ [(k, v)]))).
    { rewrite log_bytes_snoc, len_app, len_frame. lia. }
    rewrite Hnext.
    rewrite (IH (p ++ [(k, v)]) n); try (by rewrite <- app_assoc); [|cbn in Hn; lia].
    cbn [last_writes stop_at fst snd]. rewrite app_nil_r.
    destruct (decide (k ∈ q.*1)) as [Hi|Hni].
    + rewrite bool_decide_eq_false_2 by (intros Hx; by apply Hx). done.
    + rewrite bool_decide_eq_true_2 by done. cbn [stop_at fst snd].
      destruct (foreach k v); done.
Qed.

Lemma last_writes_snoc (p : list (list byte * list byte)) (kv : list byte * list byte) :
  forall q, last_writes (p ++ [kv]) q
            = last_writes p (kv :: q) ++ (if decide (kv.1 ∈ q.*1) then [] else [kv]).
Proof.
  induction p as [|x p IH]; intros q; cbn [app last_writes].
  - destruct (decide (kv.1 ∈ q.*1)); done.
  - rewrite IH, <- app_assoc. cbn [app].
    destruct (decide (x.1 ∈ (p ++ kv :: q).*1)); done.
Qed.

(** [BackwardsIterate] from a frame of the log back. *)
Lemma backwards_from (c : PMap) (foreach : list byte -> list byte -> bool)
  (p : list (list byte * list byte)) :
  forall (k v : list byte) (q : list (list byte * list byte)) (n : nat),
  logged c (p ++ (k, v) :: q) -> log_lww ∅ (p ++ (k, v) :: q) ->
  Forall (fun kv => plain_hash kv.1) (p ++ (k, v) :: q) ->
  (length p < n)%nat ->
  backwardsFrom c foreach (len (log_bytes p)) n
  = Ret (stop_at foreach (rev (last_writes (p ++ [(k, v)]) q))).
Proof.
  induction p as [|(k1 & v1) p IH] using rev_ind; intros k v q n Hlg Hlww Hplain Hn;
    (destruct n as [|n]; [cbn in Hn; lia|]);
    destruct (logged_bounds _ _ Hlg) as (Hlen & Hmax);
    pose proof Hlg as ((Hwf & _) & Hlog); pose proof Hwf as (_ & _ & Hsok & _);
    pose proof (log_frame_at _ _ _ _ _ Hlog) as Hfr;
    cbn [backwardsFrom];
    (rewrite (isPresent_frame c _ q k v Hlg Hlww);
       [|apply Forall_app in Hplain as (_ & Hp); by inversion Hp]);
    cbn [rbind];
    rewrite (frame_key _ _ k v Hsok Hfr), (frame_val _ _ k v Hsok Hfr); cbn [rbind elems];
    rewrite last_writes_snoc, rev_app_distr.
  - change (store.prev (st c) (len (log_bytes []))) with (@Ret Z (-1)). cbn [rbind].
    change (-1 <? 0) with true. cbv iota. cbn [last_writes rev app].
    destruct (decide (k ∈ q.*1)) as [Hi|Hni]; cbn [fst snd] in *.
    + rewrite bool_decide_eq_false_2 by (intros Hx; by apply Hx).
      rewrite decide_True by done. done.
    + rewrite bool_decide_eq_true_2 by done. rewrite decide_False by done.
      cbn [rev app stop_at fst snd]. destruct (foreach k v); done.
  - assert (Hlog1 : log_ok (st c) (p ++ (k1, v1) :: (k, v) :: q)).
    { by rewrite <- app_assoc in Hlog. }
    pose proof (log_frame_at _ _ _ _ _ Hlog1) as Hfr1.
    rewrite log_bytes_snoc, len_app, len_frame.
    rewrite (frame_prev _ _ k1 v1 Hsok Hfr1). cbn [rbind].
    pose proof (len_nonneg (log_bytes p)).
    destruct (len (log_bytes p) <? 0) eqn:E; [lia|].
    rewrite !log_bytes_app, !len_app in Hmax. pose proof (len_nonneg (log_bytes [(k1, v1)])).
    pose proof (len_nonneg (log_bytes ((k, v) :: q))).
    rewrite wrap64_small by lia.
    rewrite (IH k1 v1 ((k, v) :: q) n); try (by rewrite <- app_assoc in *);
      [|rewrite length_app in Hn; cbn in Hn; lia].
    cbn [fst snd].
    destruct (decide (k ∈ q.*1)) as [Hi|Hni].
    + rewrite bool_decide_eq_false_2 by (intros Hx; by apply Hx). done.
    + rewrite bool_decide_eq_true_2 by done. cbn [rev app stop_at fst snd].
      destruct (foreach k v); done.
Qed.

Lemma BackwardsIterate_logged (c : PMap) (foreach : list byte -> list byte -> bool)
  (l : list (list byte * list byte)) :
  logged c l -> log_lww ∅ l -> Forall (fun kv => plain_hash kv.1) l ->
  BackwardsIterate c foreach = Ret (stop_at foreach (rev (last_writes l []))).
Proof.
  intros Hlg Hlww Hplain. destruct (logged_bounds _ _ Hlg) as (Hlen & Hmax).
  pose proof Hlg as ((Hwf & _) & Hlog). pose proof Hwf as (_ & _ & Hsok & _).
  unfold BackwardsIterate.
  destruct l as [|(k & v) p _] using rev_ind.
  - rewrite Hlen. done.
  - assert (Hlog1 : log_ok (st c) (p ++ [(k, v)])) by done.
    pose proof (log_frame_at _ _ _ _ _ Hlog1) as Hfr.
    rewrite log_bytes_snoc, len_app, len_frame in Hlen, Hmax.
    pose proof (len_nonneg (log_bytes p)). pose proof (len_nonneg k).
    pose proof (len_nonneg v).
    destruct (store.length (st c) <=? 0) eqn:E; [lia|].
    rewrite Hlen.
    replace (len (log_bytes p) + (12 + len k + len v))
      with (len (log_bytes p) + (12 + len k + len v)) by lia.
    rewrite (frame_prev _ _ k v Hsok Hfr). cbn [rbind].
    rewrite wrap64_small by lia.
    apply (backwards_from c foreach p k v []); try done.
    pose proof (length_log_bytes p). unfold len in *. lia.
Qed.

Lemma Iterate_logged (c : PMap) (foreach : list byte -> list byte -> bool)
  (l : list (list byte * list byte)) :
  logged c l -> log_lww ∅ l -> Forall (fun kv => plain_hash kv.1) l ->
  Iterate c foreach = Ret (stop_at foreach (last_writes l [])).
Proof.
  intros Hlg Hlww Hplain. destruct (logged_bounds _ _ Hlg) as (Hlen & Hmax).
  unfold Iterate.
  apply (iterate_from c foreach l [] _ Hlg Hlww Hplain).
  rewrite Hlen. pose proof (length_log_bytes l). unfold len. lia.
Qed.

Lemma last_writes_sub (p q : list (list byte * list byte)) (x : list byte * list byte) :
  x ∈ last_writes p q -> x ∈ p.
Proof.
  induction p as [|y p IH]; cbn [last_writes]; [done|].
  destruct (decide _); [by right; auto|].
  intros [->|H]%elem_of_cons; [by left|right; auto].
Qed.

Lemma last_writes_NoDup (p q : list (list byte * list byte)) :
  NoDup (last_writes p q).*1.
Proof.
  induction p as [|y p IH]; cbn [last_writes]; [constructor|].
  destruct (decide _) as [Hi|Hni]; [done|].
  cbn [fmap list_fmap]. constructor; [|done].
  intros ((k' & v') & Hk & Hin)%list_elem_of_fmap. apply Hni.
  apply list_elem_of_fmap. exists (k', v'). split; [done|].
  apply elem_of_app. left. by apply last_writes_sub in Hin.
Qed.

Lemma last_writes_elem (p q : list (list byte * list byte)) (k v : list byte) :
  (k, v) ∈ last_writes p q <->
  exists p1 p2, p = p1 ++ (k, v) :: p2 /\ k ∉ (p2 ++ q).*1.
Proof.
  induction p as [|(k1 & v1) p IH]; cbn [last_writes fst].
  - split; [by intros ?%elem_of_nil|]. intros (p1 & p2 & H & _). by destruct p1.
  - destruct (decide (k1 ∈ (p ++ q).*1)) as [Hi|Hni].
    + rewrite IH. split.
      * intros (p1 & p2 & -> & Hn). by exists ((k1, v1) :: p1), p2.
      * intros (p1 & p2 & Heq & Hn). destruct p1 as [|x p1]; cbn in Heq.
        -- inversion Heq; subst. done.
        -- inversion Heq; subst. by exists p1, p2.
    + rewrite elem_of_cons, IH. split.
      * intros [Heq|(p1 & p2 & -> & Hn)].
        -- inversion Heq; subst. by exists [], p.
        -- by exists ((k1, v1) :: p1), p2.
      * intros (p1 & p2 & Heq & Hn). destruct p1 as [|x p1]; cbn in Heq.
        -- inversion Heq; subst. by left.
        -- inversion Heq; subst. right. by exists p1, p2.
Qed.

Lemma log_map_other (k : list byte) (l : list (list byte * list byte)) :
  forall m, k ∉ l.*1 -> foldl log_step m l !! k = m !! k.
Proof.
  induction l as [|(k1 & v1) l IH]; intros m Hn; [done|].
  cbn [foldl]. cbn [fmap list_fmap fst] in Hn.
  apply not_elem_of_cons in Hn as (Hne & Hn).
  rewrite IH by done. unfold log_step. cbn [fst snd].
  destruct (decide (v1 = [])); by rewrite ?lookup_insert_ne, ?lookup_delete_ne.
Qed.

Lemma last_frame (k : list byte) (l : list (list byte * list byte)) :
  k ∈ l.*1 -> exists p v q, l = p ++ (k, v) :: q /\ k ∉ q.*1.
Proof.
  induction l as [|(k1 & v1) l IH]; [by intros ?%elem_of_nil|].
  intros Hin. destruct (decide (k ∈ l.*1)) as [Hi|Hni].
  - destruct (IH Hi) as (p & v & q & -> & Hn). by exists ((k1, v1) :: p), v, q.
  - cbn [fmap list_fmap fst] in Hin. apply elem_of_cons in Hin as [->|Hin]; [|done].
    by exists [], v1, l.
Qed.

(** The log that a run of [Set]s leaves. *)
Lemma applySets_logged (ops : list (list byte * list byte)) :
  forall (c c' : PMap) (l : list (list byte * list byte)),
  logged c l -> log_lww ∅ l -> Forall (fun kv => plain_hash kv.1) l ->
  Forall (fun kv => plain_hash kv.1) ops ->
  applySets FNV1a64 c ops = Some c' ->
  exists l', logged c' l' /\ log_lww ∅ l' /\ Forall (fun kv => plain_hash kv.1) l'.
Proof.
  induction ops as [|(k & v) ops IH]; intros c c' l Hlg Hlww Hpl Hops Ha.
  - cbn in Ha. inversion Ha; subst. by exists l.
  - cbn [applySets] in Ha. inversion Hops as [|? ? Hk Hops']; subst.
    destruct (Set_ c (FNV1a64 k) k v) as [[c1 [e|]]| |] eqn:ES; try discriminate.
    destruct (logged_Set _ _ _ _ _ Hlg ES) as [(old & _ & _ & Hlg1)|(Hnew & Hv & Hlg1)].
    + by apply (IH c1 c' l).
    + apply (IH c1 c' (l ++ [(k, v)])); try done.
      * apply log_lww_snoc. done.
      * apply Forall_app. split; [done|]. by constructor.
Qed.

Lemma logged_Get (c : PMap) (l : list (list byte * list byte)) (k v : list byte) :
  logged c l -> log_lww ∅ l -> plain_hash k ->
  ((k, v) ∈ last_writes l [] <-> Get c (wrap32 (FNV1a64 k)) k = Ret (Some v, None)).
Proof.
  intros ((Hwf & Hm & _) & _) Hlww Hk.
  rewrite <- (plain_filing k Hk), (Get_filing c _ k v Hwf), Hm, last_writes_elem.
  split.
  - intros (p & q & -> & Hn). rewrite app_nil_r in Hn. split; [done|].
    destruct (log_lww_frame _ _ _ _ Hlww) as (_ & v' & Hv' & _ & Hout & _).
    by rewrite Hv', (Hout Hn).
  - intros (_ & Hv).
    destruct (decide (k ∈ l.*1)) as [Hi|Hni].
    + destruct (last_frame k l Hi) as (p & v1 & q & -> & Hn).
      destruct (log_lww_frame _ _ _ _ Hlww) as (_ & v' & Hv' & _ & Hout & _).
      rewrite Hv' in Hv. inversion Hv; subst. rewrite (Hout Hn).
      exists p, q. by rewrite app_nil_r.
    + unfold log_map in Hv. rewrite (log_map_other k l ∅ Hni) in Hv. done.
Qed.

(** X15.  After a run of [Set]s on a new map, each returning nil, with the
    FNV-1a hash of its key, which is not a bucket sentinel, [Iterate]
    calls the callback exactly once with each pair that [Get] returns,
    until the callback answers false, and [BackwardsIterate] does so in
    the opposite order. *)
Theorem Iterate_yields_live_pairs (log2size sizeLimit : Z) (path : string) (size : Z)
  (ops : list (list byte * list byte)) (c : PMap)
  (foreach : list byte -> list byte -> bool) :
  0 <= log2size <= 32 -> sizeLimit <= 2 ^ 32 -> 0 <= size <= 2 ^ 32 ->
  Forall (fun kv => plain_hash kv.1) ops ->
  applySets FNV1a64 (New log2size sizeLimit path size) ops = Some c ->
  exists live,
    Iterate c foreach = Ret (stop_at foreach live) /\
    BackwardsIterate c foreach = Ret (stop_at foreach (rev live)) /\
    NoDup live.*1 /\
    (forall k v, (k, v) ∈ live <->
       plain_hash k /\ Get c (wrap32 (FNV1a64 k)) k = Ret (Some v, None)).
Proof.
  intros HL Hlim Hsize Hops Ha.
  destruct (tracked_New log2size sizeLimit path size HL Hlim Hsize) as (Hlg0 & _).
  destruct (applySets_logged ops _ c [] Hlg0) as (l & Hlg & Hlww & Hpl); try done.
  exists (last_writes l []).
  split; [by apply Iterate_logged|].
  split; [by apply BackwardsIterate_logged|].
  split; [apply last_writes_NoDup|].
  intros k v. split.
  - intros Hin. assert (Hk : plain_hash k).
    { apply last_writes_sub in Hin. rewrite Forall_forall in Hpl. by apply (Hpl (k, v)). }
    split; [done|]. by apply (logged_Get c l).
  - intros (Hk & Hg). by apply (logged_Get c l).
Qed.

(** * Runs of [Set] *)

(** X16.  After a run of [Set]s on a new map, each with the hash [H] of its key
    and each returning nil, [Get] for a key, under the hash [Set] files
    the key under, returns one of the values written for it, and no value
    written for it has a newer timestamp; for a key that was never written
    [Get] returns nil. *)
Theorem Get_returns_newest_write (H : list byte -> Z)
  (log2size sizeLimit : Z) (path : string) (size : Z)
  (ops : list (list byte * list byte)) (c : PMap) (k : list byte) :
  0 <= log2size <= 32 -> sizeLimit <= 2 ^ 32 -> 0 <= size <= 2 ^ 32 ->
  applySets H (New log2size sizeLimit path size) ops = Some c ->
  (exists v, Get c (filing (H k)) k = Ret (Some v, None) /\
     (k, v) ∈ ops /\ forall v', (k, v') ∈ ops -> instant v' <= instant v)
  \/ (Get c (filing (H k)) k = Ret (None, None) /\ k ∉ ops.*1).
Proof.
  intros HL Hlim Hsize Ha.
  pose proof (represents_applySets H ops _ _ _
                (represents_New H _ _ path _ HL Hlim Hsize) Ha) as (Hwf & Hm & _).
  fold (lww ops) in Hm.
  destruct (lww ops !! k) as [v|] eqn:E.
  - left. exists v. split; [|by apply lww_Some].
    apply Get_filing; [done|]. by apply Hm.
  - right. split.
    + apply Get_filing_None; [done|]. intros v Hh. apply Hm in Hh as (_ & Hh).
      rewrite E in Hh. discriminate Hh.
    + intros ((k' & v) & Hk & Hin)%list_elem_of_fmap. cbn [fst] in Hk. subst k'.
      by apply (lww_None ops k v).
Qed.

(** X17.  Two new maps to which the same writes are applied by [Set] in two
    orders, each key always with the hash [H key] and every [Set]
    returning nil, answer every [Get] alike, provided no two writes to the
    same key share a timestamp. *)
Theorem Get_of_Sets_is_order_invariant (H : list byte -> Z)
  (log2size sizeLimit : Z) (path : string) (size : Z)
  (log2size' sizeLimit' : Z) (path' : string) (size' : Z)
  (ops ops' : list (list byte * list byte)) (c c' : PMap) (h32 : Z) (k : list byte) :
  0 <= log2size <= 32 -> sizeLimit <= 2 ^ 32 -> 0 <= size <= 2 ^ 32 ->
  0 <= log2size' <= 32 -> sizeLimit' <= 2 ^ 32 -> 0 <= size' <= 2 ^ 32 ->
  ops ≡ₚ ops' ->
  distinct_stamps ops ->
  applySets H (New log2size sizeLimit path size) ops = Some c ->
  applySets H (New log2size' sizeLimit' path' size') ops' = Some c' ->
  wrap32 h32 <> hashmap.deletedBucket ->
  Get c h32 k = Get c' h32 k.
Proof.
  intros HL Hlim Hsize HL' Hlim' Hsize' Hperm Hd Ha Ha' Hh.
  pose proof (represents_applySets H ops _ _ _
                (represents_New H _ _ path _ HL Hlim Hsize) Ha) as Hr.
  pose proof (represents_applySets H ops' _ _ _
                (represents_New H _ _ path' _ HL' Hlim' Hsize') Ha') as Hr'.
  fold (lww ops) in Hr. fold (lww ops') in Hr'.
  rewrite (lww_permutation ops ops' Hd Hperm) in Hr.
  by apply (represents_Get H c' c (lww ops')).
Qed.

(** * The further properties at work *)


Lemma Set_fresh_a :
  Set_ fresh (FNV1a64 (bs "a")) (bs "a") (ts 1000 ++ bs "X") = Ret (afterS1, None).
Proof. vm_compute. reflexivity. Defined.

Lemma Get_after_Set_witness :
  reachable fresh /\
  Set_ fresh (FNV1a64 (bs "a")) (bs "a") (ts 1000 ++ bs "X") = Ret (afterS1, None) /\
  Get afterS1 (filing (FNV1a64 (bs "a"))) (bs "a") = Ret (Some (ts 1000 ++ bs "X"), None).
Proof.
  split; [exact reachable_fresh|]. split; [exact Set_fresh_a|].
  destruct (Get_after_Set fresh afterS1 _ _ _ reachable_fresh Set_fresh_a) as
    [(_ & H)|[(old & _ & _ & H)|(old & H0 & _)]].
  - exact H.
  - exact H.
  - vm_compute in H0. discriminate H0.
Defined.

Lemma Set_keeps_other_keys_witness :
  reachable fresh /\
  Set_ fresh (FNV1a64 (bs "a")) (bs "a") (ts 1000 ++ bs "X") = Ret (afterS1, None) /\
  Get afterS1 (FNV1a64 (bs "b")) (bs "b") = Get fresh (FNV1a64 (bs "b")) (bs "b").
Proof.
  split; [exact reachable_fresh|]. split; [exact Set_fresh_a|].
  apply (Set_keeps_other_keys fresh afterS1 None (FNV1a64 (bs "a")) (bs "a")
           (ts 1000 ++ bs "X") (FNV1a64 (bs "b")) (bs "b") reachable_fresh Set_fresh_a).
  - vm_compute. intros H. discriminate H.
  - vm_compute. intros H. discriminate H.
Defined.



Lemma Set_accounting_witness :
  reachable fresh /\
  Set_ fresh (FNV1a64 (bs "a")) (bs "a") (ts 1000 ++ bs "X") = Ret (afterS1, None) /\
  Deleted afterS1 = Deleted fresh /\ Size afterS1 = Size fresh /\
  Used afterS1 <= Size afterS1.
Proof.
  split; [exact reachable_fresh|]. split; [exact Set_fresh_a|].
  destruct (Set_accounting fresh afterS1 _ _ _ reachable_fresh Set_fresh_a) as
    (H1 & H2 & H3 & _).
  split; [exact H1|]. split; [exact H2|exact H3].
Defined.

Lemma Get_afterS1_a :
  Get afterS1 (filing (FNV1a64 (bs "a"))) (bs "a") = Ret (Some (ts 1000 ++ bs "X"), None).
Proof. vm_compute. reflexivity. Defined.


Lemma Del_keeps_newer_value_witness :
  reachable afterS1 /\
  8 <= len (ts 500) /\
  Get afterS1 (filing (FNV1a64 (bs "a"))) (bs "a") = Ret (Some (ts 1000 ++ bs "X"), None) /\
  instant (ts 500) < instant (ts 1000 ++ bs "X") /\
  Del afterS1 (FNV1a64 (bs "a")) (bs "a") (ts 500) = Ret (afterS1, None).
Proof.
  assert (H1 : 8 <= len (ts 500)) by (by vm_compute).
  assert (H3 : instant (ts 500) < instant (ts 1000 ++ bs "X")) by (by vm_compute).
  split; [exact reachable_afterS1|]. split; [exact H1|]. split; [exact Get_afterS1_a|].
  split; [exact H3|].
  apply (Del_keeps_newer_value afterS1 _ _ _ reachable_afterS1).
  right. split; [exact H1|]. exists (ts 1000 ++ bs "X"). split; [exact Get_afterS1_a|exact H3].
Defined.



Lemma GetChunkID_range_witness :
  - 2 ^ 63 <= 8 < 2 ^ 63 /\ 0 < 8 /\
  exists id, GetChunkID (bs "a") 8 = Ret id /\ 0 <= id < 8 /\ id < 2 ^ 32.
Proof.
  assert (H1 : - 2 ^ 63 <= 8 < 2 ^ 63) by lia.
  assert (H2 : 0 < 8) by lia.
  split; [exact H1|]. split; [exact H2|].
  exact (proj1 (GetChunkID_range (bs "a") 8 H1) H2).
Defined.

Lemma reachable_invariant_witness :
  reachable afterS1 /\ 0 <= Used afterS1 <= Size afterS1.
Proof.
  split; [exact reachable_afterS1|].
  exact (proj1 (reachable_invariant afterS1 reachable_afterS1)).
Defined.

Lemma calls_return_witness :
  reachable afterS1 /\
  exists c' err, Set_ afterS1 (FNV1a64 (bs "b")) (bs "b") (ts 2000 ++ bs "Y") = Ret (c', err).
Proof.
  split; [exact reachable_afterS1|].
  exact (proj1 (calls_return afterS1 (FNV1a64 (bs "b")) 0 (bs "b") (ts 2000 ++ bs "Y")
                  reachable_afterS1)).
Defined.

Lemma New_is_empty_witness :
  0 <= 2 /\ Get fresh 7 (bs "a") = Ret (None, None).
Proof.
  assert (H : 0 <= 2) by lia. split; [exact H|].
  exact (proj1 (New_is_empty 2 1024 "" 256 7 0 (bs "a") [] everything H)).
Defined.

Lemma workload_keys : Forall (fun o => op_key o <> []) workload.
Proof. repeat constructor; intros H; discriminate H. Defined.

Lemma run_workload : run fresh workload = Some afterWorkload.
Proof. vm_compute. reflexivity. Defined.

Lemma Open_after_Close_witness :
  Forall (fun o => op_key o <> []) workload /\
  run (New 2 1024 "" 256) workload = Some afterWorkload /\
  Used afterWorkload + 4 <= Size afterWorkload /\
  exists c',
    Open 2 1024 "" (Close afterWorkload) = Ret c' /\
    (forall h32 k, wrap32 h32 <> hashmap.deletedBucket ->
       Get c' h32 k = Get afterWorkload h32 k) /\
    Checksum c' = Checksum afterWorkload /\ Used c' = Used afterWorkload /\
    Size c' = Size afterWorkload.
Proof.
  assert (H : Used afterWorkload + 4 <= Size afterWorkload) by (by vm_compute).
  split; [exact workload_keys|]. split; [exact run_workload|]. split; [exact H|].
  exact (Open_after_Close 2 1024 "" 256 workload afterWorkload
           ltac:(lia) ltac:(lia) ltac:(lia) ltac:(lia) workload_keys run_workload H).
Defined.

Lemma writes1_plain : Forall (fun kv => plain_hash kv.1) writes1.
Proof. repeat constructor; vm_compute; intros H; discriminate H. Defined.

Lemma applySets_writes1 :
  applySets FNV1a64 (New 2 1024 "" 256) writes1
  = Some (default fresh (applySets FNV1a64 fresh writes1)).
Proof. vm_compute. reflexivity. Defined.

Lemma Iterate_yields_live_pairs_witness :
  Forall (fun kv => plain_hash kv.1) writes1 /\
  applySets FNV1a64 (New 2 1024 "" 256) writes1
  = Some (default fresh (applySets FNV1a64 fresh writes1)) /\
  exists live,
    Iterate (default fresh (applySets FNV1a64 fresh writes1)) (fun _ _ => true)
    = Ret (stop_at (fun _ _ => true) live) /\
    BackwardsIterate (default fresh (applySets FNV1a64 fresh writes1)) (fun _ _ => true)
    = Ret (stop_at (fun _ _ => true) (rev live)) /\
    NoDup live.*1 /\
    (forall k v, (k, v) ∈ live <->
       plain_hash k /\
       Get (default fresh (applySets FNV1a64 fresh writes1)) (wrap32 (FNV1a64 k)) k
       = Ret (Some v, None)).
Proof.
  split; [exact writes1_plain|]. split; [exact applySets_writes1|].
  exact (Iterate_yields_live_pairs 2 1024 "" 256 writes1 _ (fun _ _ => true)
           ltac:(lia) ltac:(lia) ltac:(lia) writes1_plain applySets_writes1).
Defined.

Lemma Get_returns_newest_write_witness :
  applySets FNV1a64 (New 2 1024 "" 256) writes1
  = Some (default fresh (applySets FNV1a64 fresh writes1)) /\
  ((exists v,
      Get (default fresh (applySets FNV1a64 fresh writes1))
        (filing (FNV1a64 (bs "a"))) (bs "a") = Ret (Some v, None) /\
      (bs "a", v) ∈ writes1 /\
      forall v', (bs "a", v') ∈ writes1 -> instant v' <= instant v)
   \/ (Get (default fresh (applySets FNV1a64 fresh writes1))
         (filing (FNV1a64 (bs "a"))) (bs "a") = Ret (None, None) /\
       bs "a" ∉ writes1.*1)).
Proof.
  split; [exact applySets_writes1|].
  exact (Get_returns_newest_write FNV1a64 2 1024 "" 256 writes1 _ (bs "a")
           ltac:(lia) ltac:(lia) ltac:(lia) applySets_writes1).
Defined.

Lemma applySets_writes2 :
  applySets FNV1a64 (New 3 64 "" 512) writes2
  = Some (default fresh (applySets FNV1a64 (New 3 64 "" 512) writes2)).
Proof. vm_compute. reflexivity. Defined.

Lemma writes1_writes2 : writes1 ≡ₚ writes2.
Proof.
  unfold writes1, writes2.
  etransitivity; [apply perm_skip, perm_swap|].
  etransitivity; [apply perm_swap|].
  apply perm_skip, perm_swap.
Defined.

Lemma writes1_stamps : distinct_stamps writes1.
Proof. apply (bool_decide_unpack _). vm_compute. exact I. Defined.

Lemma Get_of_Sets_is_order_invariant_witness :
  writes1 ≡ₚ writes2 /\
  distinct_stamps writes1 /\
  applySets FNV1a64 (New 2 1024 "" 256) writes1
  = Some (default fresh (applySets FNV1a64 fresh writes1)) /\
  applySets FNV1a64 (New 3 64 "" 512) writes2
  = Some (default fresh (applySets FNV1a64 (New 3 64 "" 512) writes2)) /\
  wrap32 (FNV1a64 (bs "a")) <> hashmap.deletedBucket /\
  Get (default fresh (applySets FNV1a64 fresh writes1)) (FNV1a64 (bs "a")) (bs "a")
  = Get (default fresh (applySets FNV1a64 (New 3 64 "" 512) writes2))
      (FNV1a64 (bs "a")) (bs "a").
Proof.
  assert (Hh : wrap32 (FNV1a64 (bs "a")) <> hashmap.deletedBucket)
    by (vm_compute; intros H; discriminate H).
  split; [exact writes1_writes2|]. split; [exact writes1_stamps|].
  split; [exact applySets_writes1|]. split; [exact applySets_writes2|].
  split; [exact Hh|].
  exact (Get_of_Sets_is_order_invariant FNV1a64 2 1024 "" 256 3 64 "" 512
           writes1 writes2 _ _ (FNV1a64 (bs "a")) (bs "a")
           ltac:(lia) ltac:(lia) ltac:(lia) ltac:(lia) ltac:(lia) ltac:(lia)
           writes1_writes2 writes1_stamps applySets_writes1 applySets_writes2 Hh).
Defined.

Lemma Open_recounts_Deleted_witness :
  Forall (fun o => op_key o <> []) workload /\
  run (New 2 1024 "" 256) workload = Some afterWorkload /\
  Used afterWorkload + 4 <= Size afterWorkload /\
  exists c' m,
    Open 2 1024 "" (Close afterWorkload) = Ret c' /\
    (forall k v, m !! k = Some v <->
       Get c' (filing (FNV1a64 k)) k = Ret (Some v, None)) /\
    0 <= Deleted c' /\
    Deleted c' + live_bytes m = Used c'.
Proof.
  assert (H : Used afterWorkload + 4 <= Size afterWorkload) by (by vm_compute).
  split; [exact workload_keys|]. split; [exact run_workload|]. split; [exact H|].
  exact (Open_recounts_Deleted 2 1024 "" 256 workload afterWorkload
           ltac:(lia) ltac:(lia) ltac:(lia) ltac:(lia) workload_keys run_workload H).
Defined.
